(** * SR3: sparse relaxed regularized regression (pysindy/optimizers/sr3.py)

    A shallow embedding of the [SR3] optimizer class and proofs about its
    constructor, its trimming switches, its convergence test and its
    reduction loop.

    Modelling conventions.
    - numpy [float64] arrays are idealised as lists of real numbers
      ([vector]) and lists of rows ([matrix]); arithmetic is exact.
      Division is that of the real numbers: a [float64] division by 0
      gives inf or nan, which the model does not have, so the statement
      of the stopping rule asks for divisors other than 0.
    - Elementwise numpy operations are modelled on conformable operands;
      numpy's shape errors are not part of the model.
    - Python exceptions are values of [exn]; a method that can raise
      returns [exn + A].  Attributes and local variables that may be
      missing are options, and reading a missing one raises.  [coef_]
      and [history_], which the fitting code of the base class assigns
      before it calls [_reduce], are there from the start.
    - The object is passed explicitly: a method takes [self] and returns
      the new [self].  [_reduce] is split at its [for] statement into
      [reduce_enter], [reduce_body], [reduce_loop] and [reduce_exit].
    - A [Trace] records what a run does outside the object: the calls of
      [cho_factor] and the warnings.
    - [scipy.linalg.cho_factor], [scipy.linalg.cho_solve], the base class
      constructor and [get_prox] are parameters of the development;
      [capped_simplex_projection] is modelled from the specification.

    Layout: arrays and Python helpers; the object; the methods; the
    vocabulary of the statements; stand-ins and small problems to run the
    model on; then the properties, each numbered property (C1 to C10,
    X1 to X18) with a run on a small problem. *)

From Stdlib Require Import Reals Lra Lia String Ascii Bool Arith ZArith List.
From Stdlib Require Import NArith ClassicalEpsilon.
Import ListNotations.

Local Open Scope R_scope.

(** ** Exceptions and the error monad *)

Inductive exn : Type :=
| ValueError (msg : string)
| NotImplementedError (msg : string)
| TypeError (msg : string)
| AttributeError (name : string)
| IndexError
| UnboundLocalError (name : string)
| LinAlgError.

Definition result (A : Type) : Type := (exn + A)%type.

Definition ret {A} (a : A) : result A := inr a.
Definition raise {A} (e : exn) : result A := inl e.

Definition bind {A B} (c : result A) (k : A -> result B) : result B :=
  match c with
  | inl e => inl e
  | inr a => k a
  end.

Notation "x <- c ;; k" := (bind c (fun x => k))
  (at level 61, c at next level, right associativity).
Notation "' p <- c ;; k" := (bind c (fun x => let 'p := x in k))
  (at level 61, p pattern, c at next level, right associativity).

Definition raises {A} (c : result A) : Prop := exists e, c = inl e.
Definition succeeds {A} (c : result A) : Prop := exists a, c = inr a.

(** ** Arrays *)

Definition vector := list R.
Definition matrix := list (list R).

Module np.

Definition ltb (a b : R) : bool := if Rlt_dec a b then true else false.
Definition leb (a b : R) : bool := if Rle_dec a b then true else false.
Definition gtb (a b : R) : bool := ltb b a.
Definition eqb (a b : R) : bool := if Req_dec_T a b then true else false.

Fixpoint map2 {A B C} (f : A -> B -> C) (l : list A) (l' : list B) : list C :=
  match l, l' with
  | a :: t, b :: t' => f a b :: map2 f t t'
  | _, _ => []
  end.

(** [np.sum] of a one-dimensional array. *)
Definition sum1 (v : vector) : R := fold_right Rplus 0 v.

(** [np.sum] of a two-dimensional array: every entry. *)
Definition sum (m : matrix) : R := sum1 (concat m).

(** [np.sum(m, axis=1)]: one sum per row. *)
Definition sum_axis1 (m : matrix) : vector := map sum1 m.

Definition vsub (u v : vector) : vector := map2 Rminus u v.
Definition vscale (c : R) (v : vector) : vector := map (Rmult c) v.
Definition vsquare (v : vector) : vector := map (fun a => a * a) v.

Definition add (a b : matrix) : matrix := map2 (map2 Rplus) a b.
Definition sub (a b : matrix) : matrix := map2 (map2 Rminus) a b.
Definition divs (a : matrix) (c : R) : matrix := map (map (fun v => v / c)) a.
Definition square (a : matrix) : matrix := map (map (fun v => v * v)) a.

Definition zeros_like (a : matrix) : matrix := map (map (fun _ => 0)) a.
Definition vzeros_like (v : vector) : vector := map (fun _ => 0) v.

(** [a.shape] of a two-dimensional array held as a list of rows. *)
Definition shape (a : matrix) : nat * nat := (length a, length (hd [] a)).

Definition column (j : nat) (a : matrix) : vector := map (fun row => nth j row 0) a.

(** [a.T] *)
Definition T (a : matrix) : matrix :=
  map (fun j => column j a) (seq 0 (snd (shape a))).

Definition inner (u v : vector) : R := sum1 (map2 Rmult u v).

(** [np.dot(a, b)] of two-dimensional arrays. *)
Definition dot (a b : matrix) : matrix :=
  map (fun row => map (fun col => inner row col) (T b)) a.

(** [np.full(n, c)] and [np.repeat(c, n)] *)
Definition full (n : nat) (c : R) : vector := repeat c n.

(** [np.diag(v)] *)
Definition diag (v : vector) : matrix :=
  map (fun i => map (fun j => if Nat.eqb i j then nth i v 0 else 0)
                    (seq 0 (length v)))
      (seq 0 (length v)).

(** [x * w.reshape(n, 1)]: row [i] of [x] multiplied by [w[i]]. *)
Definition scale_rows (x : matrix) (w : vector) : matrix :=
  map2 (fun row c => map (fun v => v * c) row) x w.

(** [np.any(m < 0)] *)
Definition any_negative (m : matrix) : bool :=
  existsb (fun v => ltb v 0) (concat m).

(** [np.sqrt(np.sum((a - b) ** 2))] for matrices and for vectors. *)
Definition dist (a b : matrix) : R := sqrt (sum (square (sub a b))).
Definition vdist (u v : vector) : R := sqrt (sum1 (vsquare (vsub u v))).

End np.

(** ** Python sequences and strings *)

Module py.

(** [l[-1]] *)
Definition last {A} (l : list A) : result A :=
  match rev l with
  | a :: _ => ret a
  | [] => raise IndexError
  end.

(** [l[-2]] *)
Definition last2 {A} (l : list A) : result A :=
  match rev l with
  | _ :: a :: _ => ret a
  | _ => raise IndexError
  end.

Definition lower_char (c : ascii) : ascii :=
  let n := N_of_ascii c in
  if (65 <=? n)%N && (n <=? 90)%N then ascii_of_N (n + 32) else c.

(** [s.lower()] *)
Fixpoint lower (s : string) : string :=
  match s with
  | EmptyString => EmptyString
  | String c s' => String (lower_char c) (lower s')
  end.

(** [s[:n]] *)
Fixpoint prefix (n : nat) (s : string) : string :=
  match n, s with
  | S n', String c s' => String c (prefix n' s')
  | _, _ => EmptyString
  end.

(** [s in (t1, t2, ...)] *)
Definition mem (s : string) (l : list string) : bool :=
  existsb (String.eqb s) l.

End py.

(** ** The optimizer object *)

(** The second argument of a proximal operator: the scalar [threshold] or
    the transposed [thresholds] array. *)
Inductive thr : Type :=
| Scalar (t : R)
| PerEntry (m : matrix).

Definition Prox : Type := matrix -> thr -> matrix.

(** Attributes owned by [BaseOptimizer].  Its constructor does not
    assign [coef_] and [history_]; the fitting code does, before it calls
    [_reduce], and the record has them from the start. *)
Record BaseOptimizer : Type := mkBase {
  max_iter : Z;
  initial_guess : option matrix;
  fit_intercept : bool;
  copy_X : bool;
  normalize_columns : bool;
  iters : Z;
  coef_ : matrix;
  history_ : list matrix
}.

(** Attributes of an [SR3] instance; an attribute that may not have been
    assigned yet is an [option]. *)
Record SR3 : Type := mkSR3 {
  base : BaseOptimizer;
  threshold : R;
  thresholds : option matrix;
  nu : R;
  tol : R;
  thresholder : string;
  prox : Prox;
  use_trimming : bool;
  trimming_fraction : option R;
  trimming_step_size : R;
  coef_full_ : option matrix;
  history_trimming_ : option (list vector);
  trimming_array : option vector
}.

Definition set_base (f : BaseOptimizer -> BaseOptimizer) (s : SR3) : SR3 :=
  mkSR3 (f (base s)) (threshold s) (thresholds s) (nu s) (tol s)
        (thresholder s) (prox s) (use_trimming s) (trimming_fraction s)
        (trimming_step_size s) (coef_full_ s) (history_trimming_ s)
        (trimming_array s).

Definition set_iters (n : Z) (b : BaseOptimizer) : BaseOptimizer :=
  mkBase (max_iter b) (initial_guess b) (fit_intercept b) (copy_X b)
         (normalize_columns b) n (coef_ b) (history_ b).

Definition set_coef_ (c : matrix) (b : BaseOptimizer) : BaseOptimizer :=
  mkBase (max_iter b) (initial_guess b) (fit_intercept b) (copy_X b)
         (normalize_columns b) (iters b) c (history_ b).

Definition set_history_ (h : list matrix) (b : BaseOptimizer) : BaseOptimizer :=
  mkBase (max_iter b) (initial_guess b) (fit_intercept b) (copy_X b)
         (normalize_columns b) (iters b) (coef_ b) h.

Definition set_trimming (u : bool) (f : option R) (s : SR3) : SR3 :=
  mkSR3 (base s) (threshold s) (thresholds s) (nu s) (tol s)
        (thresholder s) (prox s) u f
        (trimming_step_size s) (coef_full_ s) (history_trimming_ s)
        (trimming_array s).

Definition set_coef_full_ (c : matrix) (s : SR3) : SR3 :=
  mkSR3 (base s) (threshold s) (thresholds s) (nu s) (tol s)
        (thresholder s) (prox s) (use_trimming s) (trimming_fraction s)
        (trimming_step_size s) (Some c) (history_trimming_ s)
        (trimming_array s).

Definition set_history_trimming_ (h : list vector) (s : SR3) : SR3 :=
  mkSR3 (base s) (threshold s) (thresholds s) (nu s) (tol s)
        (thresholder s) (prox s) (use_trimming s) (trimming_fraction s)
        (trimming_step_size s) (coef_full_ s) (Some h)
        (trimming_array s).

Definition set_trimming_array (t : vector) (s : SR3) : SR3 :=
  mkSR3 (base s) (threshold s) (thresholds s) (nu s) (tol s)
        (thresholder s) (prox s) (use_trimming s) (trimming_fraction s)
        (trimming_step_size s) (coef_full_ s) (history_trimming_ s)
        (Some t).

(** Arguments of [SR3.__init__]. *)
Record InitArgs : Type := mkArgs {
  arg_threshold : R;
  arg_thresholds : option matrix;
  arg_nu : R;
  arg_tol : R;
  arg_thresholder : string;
  arg_trimming_fraction : R;
  arg_trimming_step_size : R;
  arg_max_iter : Z;
  arg_fit_intercept : bool;
  arg_copy_X : bool;
  arg_initial_guess : option matrix;
  arg_normalize_columns : bool
}.

(** The defaults of the signature: [tol] is 1e-5. *)
Definition default_args : InitArgs :=
  mkArgs (1 / 10) None 1 (1 / 100000) "L0" 0 1 30%Z false true None false.

(** The tuple of names tested by the constructor. *)
Definition valid_thresholders : list string :=
  ["l0"; "l1"; "l2"; "weighted_l0"; "weighted_l1"; "weighted_l2"; "cad"]%string.

(** [if cond: raise e] *)
Definition raise_if (cond : bool) (e : exn) : result unit :=
  if cond then raise e else ret tt.

Definition is_none {A} (o : option A) : bool :=
  match o with None => true | Some _ => false end.

(** [thresholds is not None and np.any(thresholds < 0)] *)
Definition has_negative (o : option matrix) : bool :=
  match o with None => false | Some m => np.any_negative m end.

(** ** The capped-simplex projector *)

(** [np.maximum(np.minimum(a, 1.0), 0.0)] *)
Definition clip01 (a : R) : R := Rmax (Rmin a 1) 0.

Definition shift_clip (v : vector) (tau : R) : vector :=
  map (fun a => clip01 (a - tau)) v.

(** The total the projected weights must have. *)
Definition capped_total (trimming_fraction : R) (n : nat) : R :=
  (1 - trimming_fraction) * INR n.

(** Modelled from the spec: [pysindy.utils.capped_simplex_projection] is
    imported by sr3.py and is not among the sources.  The spec describes it
    as the exact Euclidean projection onto the vectors with entries in
    [0,1] and sum (1 - trimming_fraction) * n_samples, computed by a
    bisection or sorting algorithm for simplex-type projections adapted to
    the box [0,1].  Such an algorithm returns the input shifted by a
    common offset and clipped to [0,1], the offset being a root of
    "clipped sum = required total"; the root is taken here by choice. *)
Definition capped_simplex_projection
    (trimming_array : vector) (trimming_fraction : R) : vector :=
  shift_clip trimming_array
    (epsilon (inhabits 0)
       (fun tau => np.sum1 (shift_clip trimming_array tau)
                   = capped_total trimming_fraction (length trimming_array))).

(** ** Local variables and effects of [_reduce] *)

Module locals.

(** The local variables of [_reduce] that live across iterations; a
    local that may not be bound yet is an [option]. *)
Record t (Cho : Type) : Type := mk {
  coef_sparse : matrix;
  coef_full : option matrix;
  trimming_array : option vector;
  cho : Cho;
  x_transpose_y : matrix;
  trimming_grad : option vector
}.

Arguments mk {Cho}.
Arguments coef_sparse {Cho}.
Arguments coef_full {Cho}.
Arguments trimming_array {Cho}.
Arguments cho {Cho}.
Arguments x_transpose_y {Cho}.
Arguments trimming_grad {Cho}.

End locals.

Inductive warning : Type :=
| ConvergenceWarning (iterations : Z).

(** What a run leaves outside the object: the arguments of the calls of
    [cho_factor], oldest first, and the warnings issued. *)
Record Trace : Type := mkTrace {
  factorized : list matrix;
  warnings : list warning
}.

Definition log_factor (a : matrix) (tr : Trace) : Trace :=
  mkTrace (factorized tr ++ [a]) (warnings tr).

Definition warn (w : warning) (tr : Trace) : Trace :=
  mkTrace (factorized tr) (warnings tr ++ [w]).

(** Reading a local variable or an attribute that may be absent. *)
Definition local {A} (name : string) (o : option A) : result A :=
  match o with
  | Some a => ret a
  | None => raise (UnboundLocalError name)
  end.

Definition attribute {A} (name : string) (o : option A) : result A :=
  match o with
  | Some a => ret a
  | None => raise (AttributeError name)
  end.

(** An operand that must be a number: [None] is a [TypeError]. *)
Definition number (o : option R) : result R :=
  match o with
  | Some a => ret a
  | None => raise (TypeError "unsupported operand type(s): 'float' and 'NoneType'")
  end.

Section SR3.

(** [BaseOptimizer.__init__], called through [super()]. *)
Variable BaseOptimizer_init :
  Z -> option matrix -> bool -> bool -> bool -> result BaseOptimizer.

(** [pysindy.utils.get_prox] *)
Variable get_prox : string -> result Prox.

(** [scipy.linalg.cho_factor] and [scipy.linalg.cho_solve] *)
Variable Cho : Type.
Variable cho_factor : matrix -> result Cho.
Variable cho_solve : Cho -> matrix -> result matrix.

Definition __init__ (a : InitArgs) : result SR3 :=
  b <- BaseOptimizer_init (arg_max_iter a) (arg_initial_guess a)
         (arg_fit_intercept a) (arg_copy_X a) (arg_normalize_columns a) ;;
  let weighted :=
    String.eqb (py.lower (py.prefix 8 (arg_thresholder a))) "weighted" in
  _ <- raise_if (np.ltb (arg_threshold a) 0)
         (ValueError "threshold cannot be negative") ;;
  _ <- raise_if (np.leb (arg_nu a) 0)
         (ValueError "nu must be positive") ;;
  _ <- raise_if (np.leb (arg_tol a) 0)
         (ValueError "tol must be positive") ;;
  _ <- raise_if (np.ltb (arg_trimming_fraction a) 0
                 || np.gtb (arg_trimming_fraction a) 1)
         (ValueError "trimming fraction must be between 0 and 1") ;;
  _ <- raise_if (negb (py.mem (py.lower (arg_thresholder a)) valid_thresholders))
         (NotImplementedError
            "Please use a valid thresholder, l0, l1, l2, cad, weighted_l0, weighted_l1, weighted_l2.") ;;
  _ <- raise_if (weighted && is_none (arg_thresholds a))
         (ValueError "weighted thresholder requires the thresholds parameter to be used") ;;
  _ <- raise_if (negb weighted && negb (is_none (arg_thresholds a)))
         (ValueError "The thresholds argument cannot be used without a weighted thresholder, e.g. thresholder='weighted_l0'") ;;
  _ <- raise_if (has_negative (arg_thresholds a))
         (ValueError "thresholds cannot contain negative entries") ;;
  (* the same three tests a second time *)
  _ <- raise_if (weighted && is_none (arg_thresholds a))
         (ValueError "weighted thresholder requires the thresholds parameter to be used") ;;
  _ <- raise_if (negb weighted && negb (is_none (arg_thresholds a)))
         (ValueError "The thresholds argument cannot be used without a weighted thresholder, e.g. thresholder='weighted_l0'") ;;
  _ <- raise_if (has_negative (arg_thresholds a))
         (ValueError "thresholds cannot contain negative entries") ;;
  p <- get_prox (arg_thresholder a) ;;
  ret (mkSR3 b (arg_threshold a) (arg_thresholds a) (arg_nu a) (arg_tol a)
             (arg_thresholder a) p
             (if np.eqb (arg_trimming_fraction a) 0 then false else true)
             (Some (arg_trimming_fraction a))
             (arg_trimming_step_size a) None None None).

Definition enable_trimming (self : SR3) (trimming_fraction : R) : result SR3 :=
  ret (set_trimming true (Some trimming_fraction) self).

Definition disable_trimming (self : SR3) : result SR3 :=
  ret (set_trimming false None self).

Definition _update_full_coef
    (self : SR3) (cho : Cho) (x_transpose_y coef_sparse : matrix)
    : result (matrix * SR3) :=
  let b := np.add x_transpose_y (np.divs coef_sparse (nu self)) in
  coef_full <- cho_solve cho b ;;
  ret (coef_full, set_base (fun o => set_iters (iters o + 1) o) self).

Definition _update_sparse_coef (self : SR3) (coef_full : matrix) : matrix :=
  match thresholds self with
  | None => prox self coef_full (Scalar (threshold self))
  | Some th => prox self coef_full (PerEntry (np.T th))
  end.

Definition _update_trimming_array
    (self : SR3) (coef_full : matrix) (trimming_array trimming_grad : vector)
    : result (vector * SR3) :=
  let trimming_array :=
    np.vsub trimming_array (np.vscale (trimming_step_size self) trimming_grad) in
  f <- number (trimming_fraction self) ;;
  let trimming_array := capped_simplex_projection trimming_array f in
  h <- attribute "history_trimming_" (history_trimming_ self) ;;
  ret (trimming_array, set_history_trimming_ (h ++ [trimming_array]) self).

(** Lines 255-274.  The two quotients are quotients of real numbers:
    with nu or trimming_step_size equal to 0 the code computes inf or
    nan, never below a tolerance, and not the number given here. *)
Definition _convergence_criterion (self : SR3) : result R :=
  this_coef <- py.last (history_ (base self)) ;;
  last_coef <- (if (1 <? length (history_ (base self)))%nat
                then py.last2 (history_ (base self))
                else ret (np.zeros_like this_coef)) ;;
  let err_coef := np.dist this_coef last_coef / nu self in
  if use_trimming self then
    h <- attribute "history_trimming_" (history_trimming_ self) ;;
    this_trimming_array <- py.last h ;;
    last_trimming_array <- (if (1 <? length h)%nat
                            then py.last2 h
                            else ret (np.vzeros_like this_trimming_array)) ;;
    let err_trimming :=
      np.vdist this_trimming_array last_trimming_array
      / trimming_step_size self in
    ret (err_coef + err_trimming)
  else ret err_coef.

(** The state of a run of [_reduce]: the object, the locals, the trace. *)
Record Run : Type := mkRun {
  obj : SR3;
  loc : locals.t Cho;
  log : Trace
}.

(** [np.dot(a.T, x) + np.diag(np.full(x.shape[1], 1.0 / nu))] *)
Definition gram (a x : matrix) (nu : R) : matrix :=
  np.add (np.dot (np.T a) x)
         (np.diag (np.full (snd (np.shape x)) (1 / nu))).

(** [0.5 * np.sum((y - x.dot(coef_full)) ** 2, axis=1)] *)
Definition residual_grad (x y coef_full : matrix) : vector :=
  np.vscale (1 / 2)
    (np.sum_axis1 (np.square (np.sub y (np.dot x coef_full)))).

(** Lines 282-296: everything before the [for] statement. *)
Definition reduce_enter (self : SR3) (x y : matrix) (tr : Trace) : result Run :=
  let self :=
    match initial_guess (base self) with
    | Some g => set_base (set_coef_ g) self
    | None => self
    end in
  let coef_sparse := np.T (coef_ (base self)) in
  let n_samples := fst (np.shape x) in
  '(self, coef_full, trimming_array) <-
    (if use_trimming self then
       f <- number (trimming_fraction self) ;;
       let trimming_array := np.full n_samples (1 - f) in
       ret (set_history_trimming_ [trimming_array] self,
            Some coef_sparse, Some trimming_array)
     else ret (self, None, None)) ;;
  let a := gram x x (nu self) in
  cho <- cho_factor a ;;
  let x_transpose_y := np.dot (np.T x) y in
  ret (mkRun self
             (locals.mk coef_sparse coef_full trimming_array cho x_transpose_y None)
             (log_factor a tr)).

(** Lines 299-318: one pass through the body of the [for] statement; the
    boolean tells whether the pass ended in [break]. *)
Definition reduce_body (x y : matrix) (r : Run) : result (Run * bool) :=
  let self := obj r in
  let l := loc r in
  '(cho, x_transpose_y, trimming_grad, tr) <-
    (if use_trimming self then
       trimming_array <- local "trimming_array" (locals.trimming_array l) ;;
       let x_weighted := np.scale_rows x trimming_array in
       let a := gram x_weighted x (nu self) in
       cho <- cho_factor a ;;
       let x_transpose_y := np.dot (np.T x_weighted) y in
       coef_full <- local "coef_full" (locals.coef_full l) ;;
       let trimming_grad := residual_grad x y coef_full in
       ret (cho, x_transpose_y, Some trimming_grad, log_factor a (log r))
     else ret (locals.cho l, locals.x_transpose_y l,
               locals.trimming_grad l, log r)) ;;
  '(coef_full, self) <-
    _update_full_coef self cho x_transpose_y (locals.coef_sparse l) ;;
  let coef_sparse := _update_sparse_coef self coef_full in
  let self :=
    set_base (fun o => set_history_ (history_ o ++ [np.T coef_sparse]) o) self in
  '(trimming_array, self) <-
    (if use_trimming self then
       trimming_array <- local "trimming_array" (locals.trimming_array l) ;;
       g <- local "trimming_grad" trimming_grad ;;
       '(trimming_array, self) <-
         _update_trimming_array self coef_full trimming_array g ;;
       ret (Some trimming_array, self)
     else ret (locals.trimming_array l, self)) ;;
  err <- _convergence_criterion self ;;
  ret (mkRun self
             (locals.mk coef_sparse (Some coef_full) trimming_array cho
                        x_transpose_y trimming_grad)
             tr,
       np.ltb err (tol self)).

(** [for _ in range(n): body], stopped by [break]; the boolean tells
    whether the loop was left by [break], so that the [else] clause runs
    exactly when it is [false]. *)
Fixpoint reduce_loop (n : nat) (x y : matrix) (r : Run) : result (Run * bool) :=
  match n with
  | O => ret (r, false)
  | S n' =>
      '(r', broke) <- reduce_body x y r ;;
      if broke then ret (r', true) else reduce_loop n' x y r'
  end.

(** Lines 319-329: the [else] clause of the loop and the final stores. *)
Definition reduce_exit (r : Run) (broke : bool) : result (SR3 * Trace) :=
  let self := obj r in
  let tr :=
    if broke then log r
    else warn (ConvergenceWarning (max_iter (base self))) (log r) in
  let self := set_base (set_coef_ (np.T (locals.coef_sparse (loc r)))) self in
  coef_full <- local "coef_full" (locals.coef_full (loc r)) ;;
  let self := set_coef_full_ (np.T coef_full) self in
  if use_trimming self then
    trimming_array <- local "trimming_array" (locals.trimming_array (loc r)) ;;
    ret (set_trimming_array trimming_array self, tr)
  else ret (self, tr).

Definition _reduce (self : SR3) (x y : matrix) (tr : Trace) : result (SR3 * Trace) :=
  r <- reduce_enter self x y tr ;;
  '(r, broke) <- reduce_loop (Z.to_nat (max_iter (base (obj r)))) x y r ;;
  reduce_exit r broke.

End SR3.

Arguments _update_full_coef {Cho}.
Arguments mkRun {Cho}.
Arguments obj {Cho}.
Arguments loc {Cho}.
Arguments log {Cho}.
Arguments reduce_enter {Cho}.
Arguments reduce_body {Cho}.
Arguments reduce_loop {Cho}.
Arguments reduce_exit {Cho}.
Arguments _reduce {Cho}.

(** ** The configuration errors, as the specification lists them *)

Definition plain_variants : list string := ["L0"; "L1"; "L2"; "CAD"]%string.

Definition weighted_variants : list string :=
  ["weighted_L0"; "weighted_L1"; "weighted_L2"]%string.

(** Comparison of two names without regard to case. *)
Definition same_ignoring_case (s v : string) : Prop := py.lower s = py.lower v.

Definition is_variant (name : string) : Prop :=
  exists v, In v (plain_variants ++ weighted_variants) /\ same_ignoring_case name v.

Definition is_weighted (name : string) : Prop :=
  exists v, In v weighted_variants /\ same_ignoring_case name v.

Definition negative_entry (m : matrix) : Prop :=
  exists row v, In row m /\ In v row /\ v < 0.

Definition config_error (a : InitArgs) : Prop :=
  arg_threshold a < 0
  \/ arg_nu a <= 0
  \/ arg_tol a <= 0
  \/ (arg_trimming_fraction a < 0 \/ 1 < arg_trimming_fraction a)
  \/ ~ is_variant (arg_thresholder a)
  \/ (is_weighted (arg_thresholder a) /\ arg_thresholds a = None)
  \/ (~ is_weighted (arg_thresholder a) /\ arg_thresholds a <> None)
  \/ (exists m, arg_thresholds a = Some m /\ negative_entry m).

(** ** Stand-ins for the collaborators, used to run the model *)

Module standin.

(** Modelled from the spec: [BaseOptimizer.__init__] is not among the
    sources.  max_iter is a positive integer (section 6): the base
    constructor refuses another value with a ValueError; otherwise it
    stores its arguments and starts with no coefficients and an empty
    history. *)
Definition BaseOptimizer_init
    (max_iter : Z) (initial_guess : option matrix)
    (fit_intercept copy_X normalize_columns : bool) : result BaseOptimizer :=
  if (max_iter <=? 0)%Z then raise (ValueError "max_iter must be positive")
  else ret (mkBase max_iter initial_guess fit_intercept copy_X
                   normalize_columns 0%Z [] []).

Definition sign (x : R) : R :=
  if Rlt_dec x 0 then -1 else if Rlt_dec 0 x then 1 else 0.

(** Modelled from the spec: the proximal operators of pysindy.utils are
    not among the sources.  Hard threshold: x if |x| >= t, else 0. *)
Definition prox_l0 (t x : R) : R := if Rle_dec t (Rabs x) then x else 0.

(** Modelled from the spec: soft threshold, sign(x) * max(|x| - t, 0). *)
Definition prox_l1 (t x : R) : R := sign x * Rmax (Rabs x - t) 0.

(** Modelled from the spec: ridge shrink, x / (1 + 2t). *)
Definition prox_l2 (t x : R) : R := x / (1 + 2 * t).

(** Modelled from the spec: clipped absolute deviation, 0 if |x| < t, x if
    |x| >= 2t, and the sign-preserving line between the two regimes
    otherwise. *)
Definition prox_cad (t x : R) : R :=
  if Rlt_dec (Rabs x) t then 0
  else if Rle_dec (2 * t) (Rabs x) then x
  else sign x * (2 * (Rabs x - t)).

(** An elementwise operator applied with a scalar threshold or with the
    matching entry of a threshold array. *)
Definition elementwise (op : R -> R -> R) : Prox :=
  fun coef th =>
    match th with
    | Scalar t => map (map (op t)) coef
    | PerEntry m => np.map2 (np.map2 op) m coef
    end.

(** Modelled from the spec: [get_prox] resolves a thresholder name,
    without regard to case, to its operator. *)
Definition get_prox (regularization : string) : result Prox :=
  let name := py.lower regularization in
  if String.eqb name "l0" || String.eqb name "weighted_l0"
  then ret (elementwise prox_l0)
  else if String.eqb name "l1" || String.eqb name "weighted_l1"
  then ret (elementwise prox_l1)
  else if String.eqb name "l2" || String.eqb name "weighted_l2"
  then ret (elementwise prox_l2)
  else if String.eqb name "cad"
  then ret (elementwise prox_cad)
  else raise (NotImplementedError "not implemented").

(** Cholesky factorization and solve for systems with one unknown per
    column: the factor of [[a]], a > 0, is sqrt a. *)
Definition Cho : Type := R.

Definition cho_factor (a : matrix) : result Cho :=
  match a with
  | [[a00]] => if Rlt_dec 0 a00 then ret (sqrt a00) else raise LinAlgError
  | _ => raise (ValueError "expected a 1 x 1 matrix")
  end.

Definition cho_solve (c : Cho) (b : matrix) : result matrix :=
  match b with
  | [row] => ret [map (fun v => v / c / c) row]
  | _ => raise (ValueError "incompatible dimensions")
  end.

End standin.

(** ** Vocabulary for statements about a run *)

(** The object after the solve and the proximal step of an iteration: one
    more in [iters] and the new sparse coefficients, transposed, appended to
    the history. *)
Definition after_solve (self : SR3) (coef_sparse : matrix) : SR3 :=
  set_base (fun o => set_history_ (history_ o ++ [np.T coef_sparse]) o)
    (set_base (fun o => set_iters (iters o + 1) o) self).

(** [enters j r0 r]: started in [r0], the loop is about to run its
    iteration number [j] (counted from 0) in state [r]; none of the [j]
    iterations before it ended in [break]. *)
Inductive enters {Cho : Type}
    (cho_factor : matrix -> result Cho)
    (cho_solve : Cho -> matrix -> result matrix)
    (x y : matrix) (r0 : Run Cho) : nat -> Run Cho -> Prop :=
| enters_first : enters cho_factor cho_solve x y r0 O r0
| enters_next j r r' :
    enters cho_factor cho_solve x y r0 j r ->
    reduce_body cho_factor cho_solve x y r = inr (r', false) ->
    enters cho_factor cho_solve x y r0 (S j) r'.

(** The Frobenius norm of a matrix and the Euclidean norm of a vector, as
    the root of the sum of the squared entries. *)
Definition frobenius (m : matrix) : R :=
  sqrt (np.sum1 (map (fun row => np.sum1 (map (fun a => Rsqr a) row)) m)).

Definition euclidean (v : vector) : R :=
  sqrt (np.sum1 (map (fun a => Rsqr a) v)).

(** The entry a comparison looks back to: the last one of the list, or a
    default when there is none. *)
Definition previous {A} (h : list A) (default : A) : A := List.last h default.

(** The set the trimming weights are projected onto. *)
Definition capped_simplex (trimming_fraction : R) (n : nat) (w : vector) : Prop :=
  length w = n
  /\ Forall (fun a => 0 <= a <= 1) w
  /\ np.sum1 w = (1 - trimming_fraction) * INR n.

(** What holds of a run with trimming between two iterations: the trimming
    history ends with the current weights, and the full coefficients and
    the trimming fraction are there. *)
Definition trimming_ready {Cho : Type} (r : Run Cho) : Prop :=
  use_trimming (obj r) = true ->
  exists h t cf f,
    history_trimming_ (obj r) = Some (h ++ [t])
    /\ locals.trimming_array (loc r) = Some t
    /\ locals.coef_full (loc r) = Some cf
    /\ trimming_fraction (obj r) = Some f.

(** The attributes a run never assigns. *)
Definition settings (self : SR3) : SR3 :=
  mkSR3 (mkBase (max_iter (base self)) (initial_guess (base self))
                (fit_intercept (base self)) (copy_X (base self))
                (normalize_columns (base self)) 0%Z [] [])
        (threshold self) (thresholds self) (nu self) (tol self)
        (thresholder self) (prox self) (use_trimming self)
        (trimming_fraction self) (trimming_step_size self) None None None.

(** The identity matrix and the matrix of the regularized normal equations,
    X^T X + I / nu, for a design matrix [x] with [p] columns. *)
Definition identity (p : nat) : matrix :=
  map (fun i => map (fun j => if Nat.eqb i j then 1 else 0) (seq 0 p)) (seq 0 p).

Definition normal_matrix (x : matrix) (nu : R) : matrix :=
  np.add (np.dot (np.T x) x) (np.divs (identity (snd (np.shape x))) nu).

(** The design matrix with each row multiplied by the weight of its
    sample. *)
Definition reweighted (x : matrix) (w : vector) : matrix :=
  np.map2 (fun row c => map (Rmult c) row) x w.

(** What [scipy.linalg.cho_factor] and [scipy.linalg.cho_solve] promise in
    exact arithmetic: the solve of a factored matrix solves the system. *)
Definition cholesky_contract {Cho : Type}
    (cho_factor : matrix -> result Cho)
    (cho_solve : Cho -> matrix -> result matrix) : Prop :=
  forall a c b w,
    cho_factor a = inr c -> cho_solve c b = inr w -> np.dot a w = b.

(** For each sample, one half of the squared residual of the prediction
    [x . w], summed over the targets. *)
Definition half_squared_residual (x y w : matrix) : vector :=
  np.map2 (fun target predicted =>
             1 / 2 * np.sum1 (map Rsqr (np.vsub target predicted)))
          y (np.dot x w).

(** The weights an iteration would produce if the gradient were taken at
    full coefficients [w]: a step of size [step] against the gradient from
    the weights [t], then the projection. *)
Definition weights_after_step
    (step trimming_fraction : R) (x y w : matrix) (t : vector) : vector :=
  capped_simplex_projection
    (np.vsub t (np.vscale step (half_squared_residual x y w)))
    trimming_fraction.

(** ** Small problems to run the model on *)

Module example.

Definition l0 : Prox := standin.elementwise standin.prox_l0.

Definition tr0 : Trace := mkTrace [] [].

(** One sample, one feature, one target: y = x. *)
Definition x1 : matrix := [[1]].
Definition y1 : matrix := [[1]].

(** Two samples, the second one off the line y = x. *)
Definition x2 : matrix := [[1]; [1]].
Definition y2 : matrix := [[1]; [0]].

(** An optimizer seeded with the coefficient 0, an empty history and a
    budget of one iteration. *)
Definition fresh : SR3 :=
  mkSR3 (mkBase 1 None false true false 0 [[0]] [])
        (1 / 10) None 1 (1 / 100000) "L0" l0 false (Some 0) 1
        None None None.

(** An optimizer seeded with the coefficient 1, which the iteration
    leaves unchanged on x1, y1, and a history that holds it. *)
Definition settled : SR3 :=
  mkSR3 (mkBase 30 None false true false 0 [[1]] [[[1]]])
        (1 / 10) None 1 (1 / 100000) "L0" l0 false (Some 0) 1
        None None None.

(** An optimizer that trims half of the samples. *)
Definition trimmed : SR3 :=
  mkSR3 (mkBase 30 None false true false 0 [[0]] [])
        (1 / 10) None 1 (1 / 100000) "L0" l0 true (Some (1 / 2)) 1
        None None None.

End example.

(** C4 as the specification words it: the gradient is taken after the
    update of the full coefficients, so that the weights an iteration
    leaves are a projected step against the gradient at the full
    coefficients the same iteration has just computed. *)
Definition gradient_at_updated_coef {Cho : Type}
    (cho_factor : matrix -> result Cho)
    (cho_solve : Cho -> matrix -> result matrix)
    (self : SR3) (x y : matrix) : Prop :=
  forall tr r0 j r r' b t W f,
    reduce_enter cho_factor self x y tr = inr r0 ->
    enters cho_factor cho_solve x y r0 j r ->
    reduce_body cho_factor cho_solve x y r = inr (r', b) ->
    locals.trimming_array (loc r) = Some t ->
    locals.coef_full (loc r') = Some W ->
    trimming_fraction self = Some f ->
    locals.trimming_array (loc r')
    = Some (weights_after_step (trimming_step_size self) f x y W t).

(** C5 as the specification words it: construction raises exactly on
    one of the listed configuration errors, and succeeds otherwise. *)
Definition construction_as_specified
    (BaseOptimizer_init :
       Z -> option matrix -> bool -> bool -> bool -> result BaseOptimizer)
    (get_prox : string -> result Prox) (a : InitArgs) : Prop :=
  (raises (__init__ BaseOptimizer_init get_prox a) <-> config_error a)
  /\ (~ config_error a -> succeeds (__init__ BaseOptimizer_init get_prox a)).

(** C3 as the specification words it for a run with trimming: the rows
    of the design matrix are scaled by the weights before X^T X and X^T Y
    are computed, so that every iteration factors the normal matrix of
    the scaled design matrix, Xw^T Xw + I / nu, and solves with Xw^T Y. *)
Definition factors_scaled_design {Cho : Type}
    (cho_factor : matrix -> result Cho)
    (cho_solve : Cho -> matrix -> result matrix)
    (self : SR3) (x y : matrix) : Prop :=
  forall tr r0 j r r' b t,
    reduce_enter cho_factor self x y tr = inr r0 ->
    enters cho_factor cho_solve x y r0 j r ->
    reduce_body cho_factor cho_solve x y r = inr (r', b) ->
    locals.trimming_array (loc r) = Some t ->
    factorized (log r')
    = factorized (log r) ++ [normal_matrix (reweighted x t) (nu self)]
    /\ locals.x_transpose_y (loc r') = np.dot (np.T (reweighted x t)) y.

(** ** Vocabulary for further properties *)

(** With trimming, the shape of the trimming history after [j] iterations
    of a run that started with the weights [t0]: [t0], then [j] more
    entries, the last one being the current weights. *)
Definition trimming_history_from {Cho : Type}
    (t0 : vector) (j : nat) (r : Run Cho) : Prop :=
  exists ts,
    history_trimming_ (obj r) = Some (t0 :: ts)
    /\ length ts = j
    /\ locals.trimming_array (loc r) = Some (List.last (t0 :: ts) t0).

(** The arguments with another trimming step size. *)
Definition with_step (a : InitArgs) (step : R) : InitArgs :=
  mkArgs (arg_threshold a) (arg_thresholds a) (arg_nu a) (arg_tol a)
         (arg_thresholder a) (arg_trimming_fraction a) step
         (arg_max_iter a) (arg_fit_intercept a) (arg_copy_X a)
         (arg_initial_guess a) (arg_normalize_columns a).

(** The exceptions of the two kinds the constructor raises itself. *)
Definition is_value_error (e : exn) : Prop := exists msg, e = ValueError msg.

Definition is_not_implemented (e : exn) : Prop :=
  exists msg, e = NotImplementedError msg.

(** What [cho_factor] needs of its argument: symmetry, and a positive
    quadratic form v^T A v on every vector with a non-zero entry. *)
Definition symmetric (a : matrix) : Prop := np.T a = a.

Definition quadratic_form (a : matrix) (v : vector) : R :=
  np.inner v (map (fun row => np.inner row v) a).

Definition positive_definite (a : matrix) : Prop :=
  forall v, length v = length a -> (exists c, In c v /\ c <> 0) ->
            0 < quadratic_form a v.

(** The square matrix with entry [f i j] in row [i], column [j]. *)
Definition tabulate (p : nat) (f : nat -> nat -> R) : matrix :=
  map (fun i => map (fun j => f i j) (seq 0 p)) (seq 0 p).

(** The sum of [g i] over the indices [i] below [p]. *)
Definition sum_below (p : nat) (g : nat -> R) : R :=
  np.sum1 (map g (seq 0 p)).

(** The product of a row with a vector, over the first [p] entries. *)
Definition row_dot (p : nat) (row v : vector) : R :=
  sum_below p (fun i => nth i row 0 * nth i v 0).

(** Further objects to run the model on. *)
Module cases.

(** A budget of no iteration, without trimming. *)
Definition idle : SR3 :=
  mkSR3 (mkBase 0 None false true false 0 [[0]] [])
        (1 / 10) None 1 (1 / 100000) "L0" example.l0 false (Some 0) 1
        None None None.

(** An initial guess of 0 beside stored coefficients of 5. *)
Definition guessed : SR3 :=
  mkSR3 (mkBase 1 (Some [[0]]) false true false 0 [[5]] [])
        (1 / 10) None 1 (1 / 100000) "L0" example.l0 false (Some 0) 1
        None None None.

(** An object that holds no coefficients yet. *)
Definition unfitted : SR3 :=
  mkSR3 (mkBase 1 None false true false 0 [] [])
        (1 / 10) None 1 (1 / 100000) "L0" example.l0 false (Some 0) 1
        None None None.

(** Trimming half of the samples, with a budget of one iteration and
    the weights of an earlier run still stored. *)
Definition trimmed_once : SR3 :=
  mkSR3 (mkBase 1 None false true false 0 [[0]] [])
        (1 / 10) None 1 (1 / 100000) "L0" example.l0 true (Some (1 / 2)) 1
        None (Some [[1; 0]; [0; 1]]) (Some [0; 1]).

(** The defaults with a thresholder that does not exist. *)
Definition unknown_thresholder : InitArgs :=
  mkArgs (1 / 10) None 1 (1 / 100000) "L3" 0 1 30%Z false true None false.

(** The defaults with a budget of no iteration. *)
Definition zero_budget : InitArgs :=
  mkArgs (1 / 10) None 1 (1 / 100000) "L0" 0 1 0%Z false true None false.

End cases.

(** * Properties *)

(** ** Comparisons *)

Lemma ltb_true a b : np.ltb a b = true <-> a < b.
Proof. unfold np.ltb. destruct (Rlt_dec a b); split; intros; try easy. Qed.

Lemma ltb_false a b : np.ltb a b = false <-> b <= a.
Proof.
  unfold np.ltb. destruct (Rlt_dec a b); split; intros; try easy; lra.
Qed.

Lemma leb_true a b : np.leb a b = true <-> a <= b.
Proof. unfold np.leb. destruct (Rle_dec a b); split; intros; try easy. Qed.

Lemma gtb_true a b : np.gtb a b = true <-> b < a.
Proof. apply ltb_true. Qed.

Lemma eqb_true a b : np.eqb a b = true <-> a = b.
Proof. unfold np.eqb. destruct (Req_dec_T a b); split; intros; try easy. Qed.

(** ** Results *)

Lemma raises_inl {A} (e : exn) : raises (@inl exn A e).
Proof. now exists e. Qed.

Lemma not_raises_inr {A} (a : A) : ~ raises (@inr exn A a).
Proof. intros [e H]. discriminate. Qed.

Lemma succeeds_or_raises {A} (c : result A) : succeeds c <-> ~ raises c.
Proof.
  destruct c as [e | a]; split.
  - intros [a H]. discriminate.
  - intros H. destruct H. apply raises_inl.
  - intros _. apply not_raises_inr.
  - intros _. now exists a.
Qed.

Lemma raises_bind {A B} (c : result A) (k : A -> result B) :
  raises (bind c k) <-> raises c \/ exists a, c = inr a /\ raises (k a).
Proof.
  destruct c as [e | a]; simpl; split.
  - intros _. left. apply raises_inl.
  - intros _. apply raises_inl.
  - intros H. right. now exists a.
  - intros [H | [a' [E H]]].
    + now apply not_raises_inr in H.
    + now inversion E; subst.
Qed.

Lemma raises_raise_if (c : bool) (e : exn) : raises (raise_if c e) <-> c = true.
Proof.
  destruct c; simpl; split; intros H; try easy.
  - apply raises_inl.
  - now apply not_raises_inr in H.
Qed.

Lemma raise_if_inr (c : bool) (e : exn) (u : unit) :
  raise_if c e = inr u -> c = false.
Proof. destruct c; simpl; intros H; [discriminate | reflexivity]. Qed.

(** ** Thresholder names *)

Lemma lower_prefix (n : nat) (s : string) :
  py.lower (py.prefix n s) = py.prefix n (py.lower s).
Proof.
  revert s. induction n as [| n IH]; intros [| c s]; simpl; try reflexivity.
  now rewrite IH.
Qed.

Lemma mem_In (s : string) (l : list string) : py.mem s l = true <-> In s l.
Proof.
  unfold py.mem. rewrite existsb_exists. split.
  - intros [v [Hin Heq]]. apply String.eqb_eq in Heq. now subst.
  - intros Hin. exists s. split; [assumption | apply String.eqb_refl].
Qed.

Lemma is_variant_In (s : string) :
  is_variant s <-> In (py.lower s) valid_thresholders.
Proof.
  unfold is_variant, same_ignoring_case. split.
  - intros [v [Hin Heq]]. rewrite Heq.
    simpl in Hin.
    repeat (destruct Hin as [<- | Hin]; [vm_compute; tauto |]).
    contradiction.
  - intros Hin. simpl in Hin.
    repeat (destruct Hin as [Heq | Hin];
            [rewrite <- Heq;
             first [ now (exists "L0"%string; split; [simpl; tauto | reflexivity])
                   | now (exists "L1"%string; split; [simpl; tauto | reflexivity])
                   | now (exists "L2"%string; split; [simpl; tauto | reflexivity])
                   | now (exists "CAD"%string; split; [simpl; tauto | reflexivity])
                   | now (exists "weighted_L0"%string; split; [simpl; tauto | reflexivity])
                   | now (exists "weighted_L1"%string; split; [simpl; tauto | reflexivity])
                   | now (exists "weighted_L2"%string; split; [simpl; tauto | reflexivity]) ]
            |]).
    contradiction.
Qed.

Lemma is_weighted_In (s : string) :
  is_weighted s <->
  In (py.lower s) ["weighted_l0"; "weighted_l1"; "weighted_l2"]%string.
Proof.
  unfold is_weighted, same_ignoring_case. split.
  - intros [v [Hin Heq]]. rewrite Heq.
    simpl in Hin.
    repeat (destruct Hin as [<- | Hin]; [vm_compute; tauto |]).
    contradiction.
  - intros Hin. simpl in Hin.
    repeat (destruct Hin as [Heq | Hin];
            [rewrite <- Heq;
             first [ now (exists "weighted_L0"%string; split; [simpl; tauto | reflexivity])
                   | now (exists "weighted_L1"%string; split; [simpl; tauto | reflexivity])
                   | now (exists "weighted_L2"%string; split; [simpl; tauto | reflexivity]) ]
            |]).
    contradiction.
Qed.

(** On a recognized name, the test on the first eight characters selects
    exactly the weighted variants. *)
Lemma weighted_prefix (s : string) :
  is_variant s ->
  (String.eqb (py.lower (py.prefix 8 s)) "weighted" = true <-> is_weighted s).
Proof.
  rewrite is_variant_In, is_weighted_In, lower_prefix, String.eqb_eq.
  intros Hin. simpl in Hin.
  repeat (destruct Hin as [<- | Hin];
          [ split; [ intros H; vm_compute in H; first [discriminate | simpl; tauto]
                   | intros H; simpl in H;
                     repeat (destruct H as [H | H]; [first [discriminate | reflexivity] |]);
                     contradiction ]
          |]).
  contradiction.
Qed.

Lemma any_negative_iff (m : matrix) :
  np.any_negative m = true <-> negative_entry m.
Proof.
  unfold np.any_negative, negative_entry. rewrite existsb_exists. split.
  - intros [v [Hin Hlt]]. apply in_concat in Hin. destruct Hin as [row [Hrow Hv]].
    exists row, v. rewrite ltb_true in Hlt. tauto.
  - intros [row [v [Hrow [Hv Hlt]]]]. exists v. split.
    + apply in_concat. now exists row.
    + now apply ltb_true.
Qed.

Lemma thresholds_cases (name : string) (th : option matrix) :
  is_variant name ->
  let weighted := String.eqb (py.lower (py.prefix 8 name)) "weighted" in
  (weighted && is_none th = true <-> is_weighted name /\ th = None)
  /\ (negb weighted && negb (is_none th) = true
      <-> ~ is_weighted name /\ th <> None)
  /\ (has_negative th = true <-> exists m, th = Some m /\ negative_entry m).
Proof.
  intros Hv weighted. pose proof (weighted_prefix name Hv) as Hw.
  fold weighted in Hw.
  assert (Hn : is_none th = true <-> th = None).
  { destruct th; simpl; split; intros H; congruence. }
  split; [| split].
  - rewrite andb_true_iff, Hw, Hn. tauto.
  - rewrite andb_true_iff, !negb_true_iff, <- Hn, <- Hw.
    destruct weighted, (is_none th); intuition congruence.
  - destruct th as [m |]; simpl.
    + rewrite any_negative_iff. split.
      * intros H. now exists m.
      * intros [m' [E H]]. now inversion E; subst.
    + split; [discriminate | intros [m [E _]]; discriminate].
Qed.

(** ** Stepping through a method *)

Lemma bind_inr {A B} (a : A) (k : A -> result B) : bind (inr a) k = k a.
Proof. reflexivity. Qed.

Lemma bind_inl {A B} (e : exn) (k : A -> result B) : bind (inl e) k = inl e.
Proof. reflexivity. Qed.

Lemma bind_raise_if_true {B} (e : exn) (k : unit -> result B) :
  bind (raise_if true e) k = inl e.
Proof. reflexivity. Qed.

Lemma bind_raise_if_false {B} (e : exn) (k : unit -> result B) :
  bind (raise_if false e) k = k tt.
Proof. reflexivity. Qed.

Lemma bind_success {A B} (c : result A) (k : A -> result B) (b : B) :
  bind c k = inr b -> exists a, c = inr a /\ k a = inr b.
Proof.
  destruct c as [e | a]; simpl; intros H; [discriminate | now exists a].
Qed.

(** One test of the constructor: split on its condition. *)
Ltac check_step :=
  match goal with
  | |- context [raise_if ?c _] =>
      destruct c eqn:?; rewrite ?bind_raise_if_true, ?bind_raise_if_false
  end.

Section Constructor.

Variable BaseOptimizer_init :
  Z -> option matrix -> bool -> bool -> bool -> result BaseOptimizer.
Variable get_prox : string -> result Prox.

Local Abbreviation init := (__init__ BaseOptimizer_init get_prox).

(** Once the base-class constructor has returned, the tests of lines
    156-199 raise exactly on the listed conditions. *)
Lemma checks_raise_iff_config_error (a : InitArgs) :
  succeeds (BaseOptimizer_init (arg_max_iter a) (arg_initial_guess a)
              (arg_fit_intercept a) (arg_copy_X a) (arg_normalize_columns a)) ->
  (forall name, is_variant name -> succeeds (get_prox name)) ->
  (raises (init a) <-> config_error a)
  /\ (~ config_error a -> succeeds (init a)).
Proof.
  intros [b Hb] Hprox.
  assert (Hmain : raises (init a) <-> config_error a).
  2: { split; [exact Hmain |]. intros Hn. apply succeeds_or_raises.
       now rewrite Hmain. }
  unfold init, __init__, config_error. rewrite Hb, bind_inr. cbv zeta.
  check_step.
  { apply ltb_true in Heqb0. split; intros _; [tauto | apply raises_inl]. }
  apply ltb_false in Heqb0.
  check_step.
  { apply leb_true in Heqb1. split; intros _; [tauto | apply raises_inl]. }
  check_step.
  { apply leb_true in Heqb2. split; intros _; [tauto | apply raises_inl]. }
  check_step.
  { apply orb_true_iff in Heqb3. rewrite ltb_true, gtb_true in Heqb3.
    split; intros _; [tauto | apply raises_inl]. }
  check_step.
  { apply negb_true_iff in Heqb4.
    assert (~ is_variant (arg_thresholder a)).
    { rewrite is_variant_In, <- mem_In. congruence. }
    split; intros _; [tauto | apply raises_inl]. }
  apply negb_false_iff, mem_In, is_variant_In in Heqb4.
  destruct (thresholds_cases (arg_thresholder a) (arg_thresholds a) Heqb4)
    as [Hc1 [Hc2 Hc3]]. cbv zeta in Hc1, Hc2, Hc3.
  check_step.
  { pose proof (proj1 Hc1 eq_refl). split; intros _; [tauto | apply raises_inl]. }
  check_step.
  { pose proof (proj1 Hc2 eq_refl). split; intros _; [tauto | apply raises_inl]. }
  check_step.
  { pose proof (proj1 Hc3 eq_refl). split; intros _; [tauto | apply raises_inl]. }
  destruct (Hprox _ Heqb4) as [p ->].
  split; [intros H; now apply not_raises_inr in H |].
  assert (N1 : ~ arg_nu a <= 0) by (rewrite <- leb_true; congruence).
  assert (N2 : ~ arg_tol a <= 0) by (rewrite <- leb_true; congruence).
  assert (N3 : ~ (arg_trimming_fraction a < 0 \/ 1 < arg_trimming_fraction a)).
  { rewrite <- ltb_true, <- gtb_true, <- orb_true_iff. congruence. }
  rewrite <- Hc1, <- Hc2, <- Hc3.
  intros [H | [H | [H | [H | [H | [H | [H | H]]]]]]];
    try tauto; try lra; congruence.
Qed.

(** C5.  [get_prox] knowing every recognized name, the constructor
    raises exactly when the base-class constructor, called first, raises
    on max_iter, initial_guess, fit_intercept, copy_X and
    normalize_columns, or the threshold is negative, nu or the tolerance
    is not positive, the trimming fraction is outside [0,1], the
    thresholder name is not a recognized variant (compared without regard
    to case), a weighted thresholder comes without thresholds, thresholds
    come without a weighted thresholder, or the thresholds have a negative
    entry; otherwise it returns an object. *)
Theorem init_raises_iff_config_error (a : InitArgs) :
  (forall name, is_variant name -> succeeds (get_prox name)) ->
  (raises (init a)
   <-> raises (BaseOptimizer_init (arg_max_iter a) (arg_initial_guess a)
                 (arg_fit_intercept a) (arg_copy_X a) (arg_normalize_columns a))
       \/ config_error a)
  /\ (~ raises (BaseOptimizer_init (arg_max_iter a) (arg_initial_guess a)
                  (arg_fit_intercept a) (arg_copy_X a) (arg_normalize_columns a)) ->
      ~ config_error a -> succeeds (init a)).
Proof.
  intros Hprox.
  destruct (BaseOptimizer_init (arg_max_iter a) (arg_initial_guess a)
              (arg_fit_intercept a) (arg_copy_X a) (arg_normalize_columns a))
    as [e | b] eqn:Hb.
  - assert (Hinit : init a = inl e)
      by (unfold init, __init__; rewrite Hb; reflexivity).
    rewrite Hinit. split.
    + split; intros _; [left |]; apply raises_inl.
    + intros Hn. destruct Hn. apply raises_inl.
  - destruct (checks_raise_iff_config_error a) as [Hiff Hok];
      [rewrite Hb; now exists b | exact Hprox |].
    split.
    + rewrite Hiff. split; [now right |].
      intros [Hr | Hc]; [now apply not_raises_inr in Hr | exact Hc].
    + intros _. exact Hok.
Qed.

(** C9.  [enable_trimming] and [disable_trimming] return without raising:
    the first sets [use_trimming] and stores the fraction it is given,
    whatever its value, also one outside [0,1], with which the constructor
    raises; the second clears [use_trimming] and sets the fraction to
    [None]. *)
Theorem trimming_switches_never_raise (self : SR3) (f : R) :
  (exists self', enable_trimming self f = inr self'
                 /\ use_trimming self' = true
                 /\ trimming_fraction self' = Some f)
  /\ (exists self', disable_trimming self = inr self'
                    /\ use_trimming self' = false
                    /\ trimming_fraction self' = None)
  /\ (f < 0 \/ 1 < f ->
      forall a, arg_trimming_fraction a = f -> raises (init a)).
Proof.
  split; [| split].
  - eexists. split; [reflexivity | split; reflexivity].
  - eexists. split; [reflexivity | split; reflexivity].
  - intros Hf a Ha. unfold init, __init__.
    destruct (BaseOptimizer_init _ _ _ _ _) as [e | b];
      [apply raises_inl | rewrite bind_inr].
    cbv zeta.
    do 3 (check_step; [apply raises_inl |]).
    check_step; [apply raises_inl |].
    apply orb_false_iff in Heqb3. destruct Heqb3 as [H1 H2].
    apply ltb_false in H1. unfold np.gtb in H2. apply ltb_false in H2. lra.
Qed.

End Constructor.

(** ** Sums and norms *)

Lemma sum1_app (u v : vector) : np.sum1 (u ++ v) = np.sum1 u + np.sum1 v.
Proof.
  unfold np.sum1. induction u as [| a u IH]; simpl; [lra | rewrite IH; lra].
Qed.

Lemma sum_rows (m : matrix) : np.sum m = np.sum1 (map np.sum1 m).
Proof.
  unfold np.sum. induction m as [| row m IH]; simpl; [reflexivity |].
  rewrite sum1_app, IH. reflexivity.
Qed.

Lemma dist_frobenius (a b : matrix) : np.dist a b = frobenius (np.sub a b).
Proof.
  unfold np.dist, frobenius. f_equal. rewrite sum_rows.
  unfold np.square. rewrite map_map. reflexivity.
Qed.

Lemma vdist_euclidean (u v : vector) : np.vdist u v = euclidean (np.vsub u v).
Proof. reflexivity. Qed.

Lemma sub_self_zero (a : matrix) :
  np.sum (np.square (np.sub a a)) = 0.
Proof.
  rewrite sum_rows. unfold np.square, np.sub.
  induction a as [| row a IH]; simpl; [reflexivity |].
  rewrite IH. clear IH.
  induction row as [| v row IH]; simpl; [lra |].
  simpl in IH. lra.
Qed.

Lemma dist_self (a : matrix) : np.dist a a = 0.
Proof. unfold np.dist. rewrite sub_self_zero. apply sqrt_0. Qed.

(** ** Looking back in a history *)

Lemma previous_rev {A} (h : list A) (d : A) :
  previous h d = match rev h with p :: _ => p | [] => d end.
Proof.
  unfold previous. destruct h as [| a h] using rev_ind; [reflexivity |].
  rewrite rev_app_distr, last_last. reflexivity.
Qed.

Lemma last_two {A B} (h : list A) (v : A) (z : A -> A) (k : A -> A -> result B) :
  (this <- py.last (h ++ [v]) ;;
   before <- (if (1 <? length (h ++ [v]))%nat
              then py.last2 (h ++ [v]) else ret (z this)) ;;
   k this before)
  = k v (previous h (z v)).
Proof.
  rewrite previous_rev. unfold py.last, py.last2.
  rewrite rev_app_distr, length_app. simpl.
  destruct h as [| a h] using rev_ind; simpl; [reflexivity |].
  rewrite rev_app_distr, length_app. simpl.
  replace (1 <? length h + 1 + 1)%nat with true
    by (symmetry; apply Nat.ltb_lt; lia).
  reflexivity.
Qed.

(** ** One iteration *)

Section Iteration.

Variable Cho : Type.
Variable cho_factor : matrix -> result Cho.
Variable cho_solve : Cho -> matrix -> result matrix.

Local Abbreviation Run := (Run Cho).
Local Abbreviation body := (reduce_body cho_factor cho_solve).
Local Abbreviation enter := (reduce_enter cho_factor).
Local Abbreviation loop := (reduce_loop cho_factor cho_solve).
Local Abbreviation reaches := (enters cho_factor cho_solve).

(** What a pass through the loop body that does not raise has done. *)
Lemma reduce_body_inv x y (r r' : Run) b :
  body x y r = inr (r', b) ->
  exists cho xty tg tr W ta' self2 err,
    (if use_trimming (obj r) then
       exists ta cf,
         locals.trimming_array (loc r) = Some ta
         /\ locals.coef_full (loc r) = Some cf
         /\ cho_factor (gram (np.scale_rows x ta) x (nu (obj r))) = inr cho
         /\ xty = np.dot (np.T (np.scale_rows x ta)) y
         /\ tg = Some (residual_grad x y cf)
         /\ tr = log_factor (gram (np.scale_rows x ta) x (nu (obj r))) (log r)
     else cho = locals.cho (loc r) /\ xty = locals.x_transpose_y (loc r)
          /\ tg = locals.trimming_grad (loc r) /\ tr = log r)
    /\ cho_solve cho
         (np.add xty (np.divs (locals.coef_sparse (loc r)) (nu (obj r))))
       = inr W
    /\ (if use_trimming (obj r) then
          exists ta g f h,
            locals.trimming_array (loc r) = Some ta /\ tg = Some g
            /\ trimming_fraction (obj r) = Some f
            /\ history_trimming_ (obj r) = Some h
            /\ ta' = Some (capped_simplex_projection
                             (np.vsub ta (np.vscale (trimming_step_size (obj r)) g)) f)
            /\ self2 = set_history_trimming_
                         (h ++ [capped_simplex_projection
                                  (np.vsub ta (np.vscale (trimming_step_size (obj r)) g)) f])
                         (after_solve (obj r) (_update_sparse_coef (obj r) W))
        else ta' = locals.trimming_array (loc r)
             /\ self2 = after_solve (obj r) (_update_sparse_coef (obj r) W))
    /\ _convergence_criterion self2 = inr err
    /\ r' = mkRun self2
              (locals.mk (_update_sparse_coef (obj r) W) (Some W) ta' cho xty tg) tr
    /\ b = np.ltb err (tol (obj r)).
Proof.
  unfold reduce_body. intros H.
  destruct (use_trimming (obj r)) eqn:Eu.
  - destruct (locals.trimming_array (loc r)) as [ta |] eqn:Eta; [| discriminate].
    cbn [bind local ret] in H.
    destruct (cho_factor _) as [e | cho] eqn:Ec; [discriminate |].
    cbn [bind local ret] in H.
    destruct (locals.coef_full (loc r)) as [cf |] eqn:Ecf; [| discriminate].
    cbn [bind local ret] in H. unfold _update_full_coef in H.
    destruct (cho_solve _ _) as [e | W] eqn:Es; [discriminate |].
    cbn [bind local ret] in H.
    change (use_trimming (set_base _ (set_base _ (obj r))))
      with (use_trimming (obj r)) in H.
    rewrite Eu in H. cbn [bind local ret] in H.
    unfold _update_trimming_array in H.
    change (trimming_fraction (set_base _ (set_base _ (obj r))))
      with (trimming_fraction (obj r)) in H.
    destruct (trimming_fraction (obj r)) as [f |] eqn:Ef; [| discriminate].
    cbn [bind number ret] in H.
    change (history_trimming_ (set_base _ (set_base _ (obj r))))
      with (history_trimming_ (obj r)) in H.
    destruct (history_trimming_ (obj r)) as [h |] eqn:Eh; [| discriminate].
    cbn [bind attribute ret] in H.
    destruct (_convergence_criterion _) as [e | err] eqn:Ecrit; [discriminate |].
    cbn [bind ret] in H. inversion H; subst r' b; clear H.
    do 8 eexists.
    split; [exists ta, cf; repeat split; eassumption |].
    split; [exact Es |].
    split; [exists ta, (residual_grad x y cf), f, h; repeat split |].
    split; [exact Ecrit |].
    split; reflexivity.
  - cbn [bind ret] in H. unfold _update_full_coef in H.
    destruct (cho_solve _ _) as [e | W] eqn:Es; [discriminate |].
    cbn [bind local ret] in H.
    change (use_trimming (set_base _ (set_base _ (obj r))))
      with (use_trimming (obj r)) in H.
    rewrite Eu in H. cbn [bind local ret] in H.
    destruct (_convergence_criterion _) as [e | err] eqn:Ecrit; [discriminate |].
    cbn [bind ret] in H. inversion H; subst r' b; clear H.
    do 8 eexists.
    split; [repeat split |].
    split; [exact Es |].
    split; [split; reflexivity |].
    split; [exact Ecrit |].
    split; reflexivity.
Qed.

(** The convergence criterion once the history ends with [V] and, with
    trimming, the trimming history ends with [t]. *)
Lemma criterion_plain (self : SR3) (h : list matrix) (V : matrix) :
  use_trimming self = false ->
  history_ (base self) = h ++ [V] ->
  _convergence_criterion self
  = inr (np.dist V (previous h (np.zeros_like V)) / nu self).
Proof.
  intros Hu Hh. unfold _convergence_criterion. rewrite Hh, Hu.
  apply (last_two h V np.zeros_like
           (fun this before => ret (np.dist this before / nu self))).
Qed.

Lemma criterion_trimming (self : SR3) (h : list matrix) (V : matrix)
    (ht : list vector) (t : vector) :
  use_trimming self = true ->
  history_ (base self) = h ++ [V] ->
  history_trimming_ self = Some (ht ++ [t]) ->
  _convergence_criterion self
  = inr (np.dist V (previous h (np.zeros_like V)) / nu self
         + np.vdist t (previous ht (np.vzeros_like t)) / trimming_step_size self).
Proof.
  intros Hu Hh Ht. unfold _convergence_criterion. rewrite Hh, Hu, Ht.
  rewrite (last_two h V np.zeros_like). cbn [attribute bind ret].
  apply (last_two ht t np.vzeros_like
           (fun this before =>
              ret (np.dist V (previous h (np.zeros_like V)) / nu self
                   + np.vdist this before / trimming_step_size self))).
Qed.

(** An iteration leaves the settings alone and keeps a run with trimming
    ready for the next one. *)
Lemma body_settings x y (r r' : Run) b :
  body x y r = inr (r', b) -> settings (obj r') = settings (obj r).
Proof.
  intros H. apply reduce_body_inv in H.
  destruct H as (cho & xty & tg & tr & W & ta' & self2 & err
                 & _ & _ & H3 & _ & -> & _).
  destruct (use_trimming (obj r)).
  - destruct H3 as (ta & g & f & h & _ & _ & _ & _ & _ & ->). reflexivity.
  - destruct H3 as [_ ->]. reflexivity.
Qed.

Lemma body_ready x y (r r' : Run) b :
  body x y r = inr (r', b) -> trimming_ready r'.
Proof.
  intros H. pose proof (body_settings _ _ _ _ _ H) as Hs.
  apply reduce_body_inv in H.
  destruct H as (cho & xty & tg & tr & W & ta' & self2 & err
                 & _ & _ & H3 & _ & -> & _).
  intros Hu. cbn [obj loc] in *.
  assert (Hu' : use_trimming (obj r) = true).
  { apply (f_equal use_trimming) in Hs. cbn in Hs. congruence. }
  rewrite Hu' in H3.
  destruct H3 as (ta & g & f & h & _ & _ & Hf & _ & -> & ->).
  exists h, (capped_simplex_projection
               (np.vsub ta (np.vscale (trimming_step_size (obj r)) g)) f), W, f.
  repeat split. exact Hf.
Qed.

Lemma enter_ready (self : SR3) x y tr (r0 : Run) :
  enter self x y tr = inr r0 -> trimming_ready r0.
Proof.
  unfold reduce_enter. intros H Hu.
  set (self1 := match initial_guess (base self) with
                | Some g => set_base (set_coef_ g) self
                | None => self
                end) in *.
  destruct (use_trimming self1) eqn:Eu.
  - destruct (trimming_fraction self1) as [f |] eqn:Ef; [| discriminate].
    cbn [bind number ret] in H.
    destruct (cho_factor _) as [e | cho]; [discriminate |].
    cbn [bind ret] in H. inversion H; subst r0; clear H.
    exists [], (np.full (fst (np.shape x)) (1 - f)), (np.T (coef_ (base self1))), f.
    repeat split. exact Ef.
  - cbn [bind ret] in H.
    destruct (cho_factor _) as [e | cho]; [discriminate |].
    cbn [bind ret] in H. inversion H; subst r0; clear H.
    cbn [obj] in Hu. congruence.
Qed.

End Iteration.

(** ** The loop *)

Section Loop.

Variable Cho : Type.
Variable cho_factor : matrix -> result Cho.
Variable cho_solve : Cho -> matrix -> result matrix.

Local Abbreviation Run := (Run Cho).
Local Abbreviation body := (reduce_body cho_factor cho_solve).
Local Abbreviation enter := (reduce_enter cho_factor).
Local Abbreviation loop := (reduce_loop cho_factor cho_solve).
Local Abbreviation reaches := (enters cho_factor cho_solve).

Lemma enters_shift x y (r0 r1 r : Run) j :
  body x y r0 = inr (r1, false) ->
  reaches x y r1 j r -> reaches x y r0 (S j) r.
Proof.
  intros H0 H. induction H as [| j r r' H IH Hb].
  - eapply enters_next; [apply enters_first | exact H0].
  - eapply enters_next; [exact IH | exact Hb].
Qed.

(** A loop that returns has either used up its [n] iterations, none of
    them ending in [break], or has left by [break] in an iteration before
    the [n]-th. *)
Lemma reduce_loop_inv n x y (r0 rf : Run) broke :
  loop n x y r0 = inr (rf, broke) ->
  if broke
  then exists j r, (j < n)%nat /\ reaches x y r0 j r
                   /\ body x y r = inr (rf, true)
  else reaches x y r0 n rf.
Proof.
  revert r0. induction n as [| n IH]; intros r0 H; simpl in H.
  - inversion H; subst. apply enters_first.
  - destruct (body x y r0) as [e | [r1 b1]] eqn:Eb; [discriminate |].
    cbn [bind] in H. destruct b1.
    + inversion H; subst. exists O, r0.
      split; [lia | split; [apply enters_first | exact Eb]].
    + apply IH in H. destruct broke.
      * destruct H as (j & r & Hj & Hr & Hb). exists (S j), r.
        split; [lia | split; [| exact Hb]].
        eapply enters_shift; eassumption.
      * eapply enters_shift; eassumption.
Qed.

Lemma reduce_loop_prefix x y (r0 r : Run) j :
  reaches x y r0 j r ->
  forall m q, loop m x y r = inr q -> loop (j + m) x y r0 = inr q.
Proof.
  induction 1 as [| j r r1 Hr IH Hb1]; intros m q Hq.
  - exact Hq.
  - replace (S j + m)%nat with (j + S m)%nat by lia.
    apply IH. simpl. rewrite Hb1. exact Hq.
Qed.

Lemma reduce_loop_break n x y (r0 r rf : Run) j :
  reaches x y r0 j r -> body x y r = inr (rf, true) -> (j < n)%nat ->
  loop n x y r0 = inr (rf, true).
Proof.
  intros Hr Hf Hj.
  replace n with (j + S (n - S j))%nat by lia.
  eapply reduce_loop_prefix; [exact Hr |]. simpl. rewrite Hf. reflexivity.
Qed.

Lemma reduce_loop_exhaust n x y (r0 rf : Run) :
  reaches x y r0 n rf -> loop n x y r0 = inr (rf, false).
Proof.
  intros Hr. replace n with (n + 0)%nat by lia.
  eapply reduce_loop_prefix; [exact Hr | reflexivity].
Qed.

(** Entering the loop leaves the settings and the history alone. *)
Lemma enter_settings (self : SR3) x y tr (r0 : Run) :
  enter self x y tr = inr r0 ->
  settings (obj r0) = settings self
  /\ history_ (base (obj r0)) = history_ (base self)
  /\ iters (base (obj r0)) = iters (base self)
  /\ locals.coef_sparse (loc r0) = np.T (coef_ (base (obj r0)))
  /\ locals.x_transpose_y (loc r0) = np.dot (np.T x) y
  /\ cho_factor (gram x x (nu self)) = inr (locals.cho (loc r0))
  /\ log r0 = log_factor (gram x x (nu self)) tr.
Proof.
  unfold reduce_enter. intros H.
  assert (Hs : forall s, settings (match initial_guess (base self) with
                                   | Some g => set_base (set_coef_ g) s
                                   | None => s
                                   end) = settings s)
    by (intros s; destruct (initial_guess (base self)); reflexivity).
  set (self1 := match initial_guess (base self) with
                | Some g => set_base (set_coef_ g) self
                | None => self
                end) in *.
  assert (Hh : history_ (base self1) = history_ (base self)
               /\ iters (base self1) = iters (base self)
               /\ nu self1 = nu self)
    by (subst self1; destruct (initial_guess (base self)); repeat split).
  destruct Hh as (Hh & Hi & Hn). specialize (Hs self). fold self1 in Hs.
  destruct (use_trimming self1) eqn:Eu.
  - destruct (trimming_fraction self1) as [f |]; [| discriminate].
    cbn [bind number ret] in H.
    destruct (cho_factor _) as [e | cho] eqn:Ec; [discriminate |].
    cbn [bind ret] in H. inversion H; subst r0; clear H.
    cbn [obj loc log locals.coef_sparse locals.x_transpose_y locals.cho].
    cbn [nu set_history_trimming_] in Ec |- *. rewrite Hn in *.
    repeat split; assumption.
  - cbn [bind ret] in H.
    destruct (cho_factor _) as [e | cho] eqn:Ec; [discriminate |].
    cbn [bind ret] in H. inversion H; subst r0; clear H.
    cbn [obj loc log locals.coef_sparse locals.x_transpose_y locals.cho].
    rewrite Hn in *.
    repeat split; assumption.
Qed.

Lemma reaches_settings x y (r0 r : Run) j :
  reaches x y r0 j r -> settings (obj r) = settings (obj r0).
Proof.
  induction 1 as [| j r r' Hr IH Hb]; [reflexivity |].
  rewrite <- IH. eapply body_settings; eassumption.
Qed.

Lemma reaches_ready (self : SR3) x y tr (r0 r : Run) j :
  enter self x y tr = inr r0 -> reaches x y r0 j r -> trimming_ready r.
Proof.
  intros He Hr. destruct Hr as [| j r r' Hr Hb].
  - eapply enter_ready; eassumption.
  - eapply body_ready; eassumption.
Qed.

End Loop.

(** Reading a setting off two objects with the same settings. *)
Lemma settings_fields (s s' : SR3) :
  settings s = settings s' ->
  nu s = nu s' /\ tol s = tol s' /\ use_trimming s = use_trimming s'
  /\ trimming_fraction s = trimming_fraction s'
  /\ trimming_step_size s = trimming_step_size s'
  /\ threshold s = threshold s' /\ thresholds s = thresholds s'
  /\ prox s = prox s' /\ max_iter (base s) = max_iter (base s').
Proof.
  intros H. unfold settings in H. inversion H. repeat split; assumption.
Qed.

(** ** The convergence test *)

Section Convergence.

Variable Cho : Type.
Variable cho_factor : matrix -> result Cho.
Variable cho_solve : Cho -> matrix -> result matrix.

Local Abbreviation Run := (Run Cho).
Local Abbreviation body := (reduce_body cho_factor cho_solve).
Local Abbreviation enter := (reduce_enter cho_factor).
Local Abbreviation loop := (reduce_loop cho_factor cho_solve).
Local Abbreviation reaches := (enters cho_factor cho_solve).

(** The history just after an iteration: the old one and the new sparse
    coefficients, transposed. *)
Lemma body_history x y (r r' : Run) b :
  body x y r = inr (r', b) ->
  history_ (base (obj r'))
  = history_ (base (obj r)) ++ [np.T (locals.coef_sparse (loc r'))]
  /\ iters (base (obj r')) = (iters (base (obj r)) + 1)%Z.
Proof.
  intros H. apply reduce_body_inv in H.
  destruct H as (cho & xty & tg & tr & W & ta' & self2 & err
                 & _ & _ & H3 & _ & -> & _).
  destruct (use_trimming (obj r)).
  - destruct H3 as (ta & g & f & h & _ & _ & _ & _ & _ & ->). split; reflexivity.
  - destruct H3 as [_ ->]. split; reflexivity.
Qed.

(** The value of the criterion and the decision taken on it, for any
    iteration of a run. *)
Lemma body_criterion (self : SR3) x y tr (r0 r r' : Run) j b :
  enter self x y tr = inr r0 ->
  reaches x y r0 j r ->
  body x y r = inr (r', b) ->
  let Vk := np.T (locals.coef_sparse (loc r')) in
  let Vprev := previous (history_ (base (obj r))) (np.zeros_like Vk) in
  exists err,
    _convergence_criterion (obj r') = inr err
    /\ b = np.ltb err (tol self)
    /\ if use_trimming self
       then exists tk tprev,
              locals.trimming_array (loc r') = Some tk
              /\ locals.trimming_array (loc r) = Some tprev
              /\ err = np.dist Vk Vprev / nu self
                       + np.vdist tk tprev / trimming_step_size self
       else err = np.dist Vk Vprev / nu self.
Proof.
  intros He Hr Hb Vk Vprev.
  assert (Hready : trimming_ready r) by (eapply reaches_ready; eassumption).
  assert (Hs : settings (obj r) = settings (obj r0))
    by (eapply reaches_settings; eassumption).
  destruct (enter_settings _ _ _ _ _ _ _ He) as (Hs0 & _).
  rewrite Hs0 in Hs. apply settings_fields in Hs.
  destruct Hs as (Hnu & Htol & Hu & _ & Hstep & _).
  destruct (body_history _ _ _ _ _ Hb) as [Hh _].
  assert (Hs' : settings (obj r') = settings (obj r))
    by (eapply body_settings; eassumption).
  apply settings_fields in Hs'. destruct Hs' as (Hnu' & _ & Hu' & _ & Hstep' & _).
  apply reduce_body_inv in Hb.
  destruct Hb as (cho & xty & tg & tr1 & W & ta' & self2 & err
                  & _ & _ & H3 & Hc & Hr' & ->).
  exists err.
  assert (Eself2 : obj r' = self2) by (rewrite Hr'; reflexivity).
  rewrite Eself2. split; [exact Hc |]. split; [now rewrite Htol |].
  rewrite <- Hu. destruct (use_trimming (obj r)) eqn:Eu.
  - destruct (Hready Eu) as (h & t & cf & f & Hht & Ht & _ & _).
    destruct H3 as (ta & g & f' & h' & Hta & _ & _ & Hh' & Hta' & Hself2).
    rewrite Ht in Hta. inversion Hta; subst ta; clear Hta.
    rewrite Hht in Hh'. inversion Hh'; subst h'; clear Hh'.
    exists (capped_simplex_projection
              (np.vsub t (np.vscale (trimming_step_size (obj r)) g)) f'), t.
    split; [rewrite Hr'; cbn [loc locals.trimming_array]; exact Hta' |].
    split; [exact Ht |].
    rewrite Eself2 in Hh, Hnu', Hu', Hstep'.
    erewrite criterion_trimming in Hc;
      [| exact Hu' | exact Hh | rewrite Hself2; reflexivity].
    inversion Hc. unfold previous at 2. rewrite last_last.
    rewrite Hnu', Hstep', Hnu, Hstep. reflexivity.
  - rewrite Eself2 in Hh, Hnu', Hu'.
    rewrite (criterion_plain self2 _ _ Hu' Hh) in Hc.
    inversion Hc. rewrite Hnu', Hnu. reflexivity.
Qed.

(** The criterion computed at the end of an iteration and the flag the
    iteration hands to the loop. *)
Lemma iteration_criterion (self : SR3) x y tr (r0 r r' : Run) j b :
  enter self x y tr = inr r0 ->
  reaches x y r0 j r ->
  body x y r = inr (r', b) ->
  let Vk := np.T (locals.coef_sparse (loc r')) in
  exists Vprev err,
    history_ (base (obj r')) = history_ (base (obj r)) ++ [Vk]
    /\ match j with
       | O => Vprev = previous (history_ (base self)) (np.zeros_like Vk)
       | S _ => Vprev = np.T (locals.coef_sparse (loc r))
       end
    /\ _convergence_criterion (obj r') = inr err
    /\ (if use_trimming self
        then exists tk tprev,
               locals.trimming_array (loc r') = Some tk
               /\ locals.trimming_array (loc r) = Some tprev
               /\ err = frobenius (np.sub Vk Vprev) / nu self
                        + euclidean (np.vsub tk tprev) / trimming_step_size self
        else err = frobenius (np.sub Vk Vprev) / nu self)
    /\ (b = true <-> err < tol self).
Proof.
  intros He Hr Hb Vk.
  destruct (body_criterion _ _ _ _ _ _ _ _ _ He Hr Hb) as (err & Hc & Hbr & Herr).
  destruct (body_history _ _ _ _ _ Hb) as [Hh _].
  exists (previous (history_ (base (obj r))) (np.zeros_like Vk)), err.
  split; [exact Hh |]. split.
  - destruct Hr as [| j r r1 Hr Hb1].
    + destruct (enter_settings _ _ _ _ _ _ _ He) as (_ & Hh0 & _).
      now rewrite Hh0.
    + destruct (body_history _ _ _ _ _ Hb1) as [Hh1 _]. rewrite Hh1.
      unfold previous. apply last_last.
  - split; [exact Hc |]. split.
    + rewrite <- !dist_frobenius. exact Herr.
    + rewrite Hbr. apply ltb_true.
Qed.

(** C7.  Without trimming, when the entry an iteration appends to the
    history equals the entry before it, the criterion is 0; the tolerance
    being positive, the iteration ends in [break], and a loop with
    iterations to spare returns the state this iteration left. *)
Theorem identical_entries_stop (self : SR3) x y tr (r0 r r' : Run) j b h V :
  use_trimming self = false ->
  0 < tol self ->
  enter self x y tr = inr r0 ->
  reaches x y r0 j r ->
  body x y r = inr (r', b) ->
  history_ (base (obj r)) = h ++ [V] ->
  np.T (locals.coef_sparse (loc r')) = V ->
  _convergence_criterion (obj r') = inr 0
  /\ b = true
  /\ forall n, (j < n)%nat -> loop n x y r0 = inr (r', true).
Proof.
  intros Hu Htol He Hr Hb Hh HV.
  destruct (body_criterion _ _ _ _ _ _ _ _ _ He Hr Hb) as (err & Hc & Hbr & Herr).
  rewrite Hu in Herr. rewrite Hh, HV in Herr.
  unfold previous in Herr. rewrite last_last, dist_self in Herr.
  assert (E0 : err = 0) by (rewrite Herr; unfold Rdiv; ring).
  clear Herr. subst err.
  assert (Eb : b = true) by (rewrite Hbr; apply ltb_true; exact Htol).
  split; [exact Hc |]. split; [exact Eb |].
  intros n Hn. rewrite Eb in Hb. eapply reduce_loop_break; eassumption.
Qed.

End Convergence.

(** ** The linear solve *)

Lemma diag_full_identity (p : nat) (nu : R) :
  np.diag (np.full p (1 / nu)) = np.divs (identity p) nu.
Proof.
  unfold np.diag, np.full, np.divs, identity.
  rewrite repeat_length, map_map.
  apply map_ext_in. intros i Hi. rewrite map_map.
  apply map_ext. intros j. apply in_seq in Hi.
  destruct (Nat.eqb i j).
  - rewrite nth_repeat_lt by lia. reflexivity.
  - unfold Rdiv. ring.
Qed.

Lemma gram_normal_matrix (x : matrix) (nu : R) :
  gram x x nu = normal_matrix x nu.
Proof. unfold gram, normal_matrix. now rewrite diag_full_identity. Qed.

Lemma scale_rows_reweighted (x : matrix) (w : vector) :
  np.scale_rows x w = reweighted x w.
Proof.
  unfold np.scale_rows, reweighted. revert w.
  induction x as [| row x IH]; intros [| c w]; simpl; try reflexivity.
  rewrite IH. f_equal. apply map_ext. intros v. ring.
Qed.

Section Solver.

Variable Cho : Type.
Variable cho_factor : matrix -> result Cho.
Variable cho_solve : Cho -> matrix -> result matrix.

Local Abbreviation Run := (Run Cho).
Local Abbreviation body := (reduce_body cho_factor cho_solve).
Local Abbreviation enter := (reduce_enter cho_factor).
Local Abbreviation loop := (reduce_loop cho_factor cho_solve).
Local Abbreviation reaches := (enters cho_factor cho_solve).

(** What an iteration does to the factor, the right-hand side, the
    trace and the full coefficients. *)
Lemma body_solve x y (r r' : Run) b :
  body x y r = inr (r', b) ->
  exists W,
    locals.coef_full (loc r') = Some W
    /\ locals.coef_sparse (loc r') = _update_sparse_coef (obj r) W
    /\ cho_solve (locals.cho (loc r'))
         (np.add (locals.x_transpose_y (loc r'))
                 (np.divs (locals.coef_sparse (loc r)) (nu (obj r))))
       = inr W
    /\ if use_trimming (obj r)
       then exists t cf,
              locals.trimming_array (loc r) = Some t
              /\ locals.coef_full (loc r) = Some cf
              /\ cho_factor (gram (np.scale_rows x t) x (nu (obj r)))
                 = inr (locals.cho (loc r'))
              /\ locals.x_transpose_y (loc r')
                 = np.dot (np.T (np.scale_rows x t)) y
              /\ locals.trimming_grad (loc r') = Some (residual_grad x y cf)
              /\ log r' = log_factor (gram (np.scale_rows x t) x (nu (obj r))) (log r)
       else locals.cho (loc r') = locals.cho (loc r)
            /\ locals.x_transpose_y (loc r') = locals.x_transpose_y (loc r)
            /\ locals.trimming_grad (loc r') = locals.trimming_grad (loc r)
            /\ log r' = log r.
Proof.
  intros H. apply reduce_body_inv in H.
  destruct H as (cho & xty & tg & tr & W & ta' & self2 & err
                 & H1 & H2 & _ & _ & -> & _).
  exists W. cbn [loc log locals.coef_full locals.coef_sparse locals.cho
                 locals.x_transpose_y locals.trimming_grad].
  split; [reflexivity |]. split; [reflexivity |]. split; [exact H2 |].
  destruct (use_trimming (obj r)).
  - destruct H1 as (t & cf & Ht & Hcf & Hc & Hx & Hg & Hl).
    exists t, cf. repeat split; assumption.
  - destruct H1 as (-> & -> & -> & ->). repeat split.
Qed.

(** Without trimming the factor, the right-hand side and the trace stay
    what they were when the loop was entered. *)
Lemma plain_invariant (self : SR3) x y tr (r0 r : Run) j :
  use_trimming self = false ->
  enter self x y tr = inr r0 ->
  reaches x y r0 j r ->
  cho_factor (gram x x (nu self)) = inr (locals.cho (loc r))
  /\ locals.x_transpose_y (loc r) = np.dot (np.T x) y
  /\ log r = log_factor (gram x x (nu self)) tr.
Proof.
  intros Hu He Hr.
  destruct (enter_settings _ _ _ _ _ _ _ He) as (Hs0 & _ & _ & _ & Hx & Hc & Hl).
  induction Hr as [| j r r' Hr IH Hb]; [repeat split; assumption |].
  destruct IH as (IH1 & IH2 & IH3).
  assert (Hs : settings (obj r) = settings (obj r0))
    by (eapply reaches_settings; eassumption).
  rewrite Hs0 in Hs. apply settings_fields in Hs.
  destruct Hs as (_ & _ & Hu' & _).
  destruct (body_solve _ _ _ _ _ Hb) as (W & _ & _ & _ & H).
  rewrite Hu', Hu in H. destruct H as (-> & -> & _ & ->).
  repeat split; assumption.
Qed.

(** C2.  Granted that a solve with a factored matrix solves the system,
    in every iteration without trimming the new full coefficients W
    satisfy (X^T X + I / nu) W = X^T Y + V / nu, V being the sparse
    coefficients the iteration started with. *)
Theorem full_coef_solves_normal_equations
    (self : SR3) x y tr (r0 r r' : Run) j b :
  cholesky_contract cho_factor cho_solve ->
  use_trimming self = false ->
  enter self x y tr = inr r0 ->
  reaches x y r0 j r ->
  body x y r = inr (r', b) ->
  exists W,
    locals.coef_full (loc r') = Some W
    /\ np.dot (normal_matrix x (nu self)) W
       = np.add (np.dot (np.T x) y)
                (np.divs (locals.coef_sparse (loc r)) (nu self)).
Proof.
  intros Hcontract Hu He Hr Hb.
  destruct (plain_invariant _ _ _ _ _ _ _ Hu He Hr) as (Hc & Hx & _).
  assert (Hs : settings (obj r) = settings (obj r0))
    by (eapply reaches_settings; eassumption).
  destruct (enter_settings _ _ _ _ _ _ _ He) as (Hs0 & _).
  rewrite Hs0 in Hs. apply settings_fields in Hs.
  destruct Hs as (Hnu & _ & Hu' & _).
  destruct (body_solve _ _ _ _ _ Hb) as (W & HW & _ & Hsolve & H).
  rewrite Hu', Hu in H. destruct H as (Ec & Ex & _ & _).
  rewrite Ec, Ex, Hx, Hnu in Hsolve.
  exists W. split; [exact HW |].
  rewrite <- gram_normal_matrix.
  eapply Hcontract; eassumption.
Qed.

(** C3.  Without trimming, [cho_factor] is called once in the whole run,
    before the loop, on X^T X + I / nu, and every iteration solves with
    that factor and with X^T Y.  With trimming, every iteration calls
    [cho_factor] anew, on Xw^T X + I / nu, and recomputes the right-hand
    side as Xw^T Y, where Xw is X with each row multiplied by the current
    trimming weight of its sample. *)
Theorem factorization_reuse (self : SR3) x y tr (r0 r r' : Run) j b :
  enter self x y tr = inr r0 ->
  reaches x y r0 j r ->
  body x y r = inr (r', b) ->
  exists c W,
    locals.cho (loc r') = c
    /\ locals.coef_full (loc r') = Some W
    /\ cho_solve c (np.add (locals.x_transpose_y (loc r'))
                           (np.divs (locals.coef_sparse (loc r)) (nu self)))
       = inr W
    /\ if use_trimming self
       then exists t,
              locals.trimming_array (loc r) = Some t
              /\ cho_factor (np.add (np.dot (np.T (reweighted x t)) x)
                                    (np.divs (identity (snd (np.shape x))) (nu self)))
                 = inr c
              /\ locals.x_transpose_y (loc r') = np.dot (np.T (reweighted x t)) y
              /\ factorized (log r')
                 = factorized (log r)
                   ++ [np.add (np.dot (np.T (reweighted x t)) x)
                              (np.divs (identity (snd (np.shape x))) (nu self))]
              /\ length (factorized (log r'))
                 = (length (factorized tr) + 1 + (j + 1))%nat
       else cho_factor (normal_matrix x (nu self)) = inr c
            /\ c = locals.cho (loc r0)
            /\ locals.x_transpose_y (loc r') = np.dot (np.T x) y
            /\ factorized (log r') = factorized tr ++ [normal_matrix x (nu self)].
Proof.
  intros He Hr Hb.
  assert (Hs : settings (obj r) = settings (obj r0))
    by (eapply reaches_settings; eassumption).
  destruct (enter_settings _ _ _ _ _ _ _ He) as (Hs0 & _ & _ & _ & _ & _ & Hl0).
  rewrite Hs0 in Hs. apply settings_fields in Hs.
  destruct Hs as (Hnu & _ & Hu' & _).
  destruct (body_solve _ _ _ _ _ Hb) as (W & HW & _ & Hsolve & H).
  rewrite Hnu in Hsolve.
  exists (locals.cho (loc r')), W.
  split; [reflexivity |]. split; [exact HW |]. split; [exact Hsolve |].
  rewrite Hu' in H. destruct (use_trimming self) eqn:Hu.
  - destruct H as (t & cf & Ht & _ & Hc & Hx & _ & Hl).
    rewrite Hnu in Hc, Hl. unfold gram in Hc, Hl.
    rewrite diag_full_identity, scale_rows_reweighted in Hc, Hl.
    rewrite scale_rows_reweighted in Hx.
    exists t. split; [exact Ht |]. split; [exact Hc |]. split; [exact Hx |].
    split; [rewrite Hl; reflexivity |].
    rewrite Hl. cbn [log_factor factorized]. rewrite length_app. simpl.
    assert (Hlen : forall k (q : Run), reaches x y r0 k q ->
              length (factorized (log q)) = (length (factorized tr) + 1 + k)%nat).
    { clear - He Hu Hl0 Hs0. intros k q Hq.
      induction Hq as [| k q q' Hq IH Hb].
      - rewrite Hl0. cbn [log_factor factorized]. rewrite length_app. simpl. lia.
      - assert (Hs : settings (obj q) = settings (obj r0))
          by (eapply reaches_settings; eassumption).
        rewrite Hs0 in Hs. apply settings_fields in Hs.
        destruct Hs as (_ & _ & Hu' & _).
        destruct (body_solve _ _ _ _ _ Hb) as (W & _ & _ & _ & H).
        rewrite Hu', Hu in H. destruct H as (t & cf & _ & _ & _ & _ & _ & Hl).
        rewrite Hl. cbn [log_factor factorized]. rewrite length_app, IH.
        simpl. lia. }
    rewrite (Hlen _ _ Hr). lia.
  - destruct (plain_invariant _ _ _ _ _ _ _ Hu He Hr) as (Hc & Hx & Hl).
    destruct H as (Ec & Ex & _ & El).
    destruct (plain_invariant _ _ _ _ _ _ _ Hu He (enters_first _ _ _ _ _))
      as (Hc0 & _).
    rewrite gram_normal_matrix in Hc, Hl, Hc0.
    split; [rewrite Ec; exact Hc |].
    split; [| split; [rewrite Ex; exact Hx |]].
    + rewrite Ec. rewrite Hc in Hc0. now inversion Hc0.
    + rewrite El, Hl. reflexivity.
Qed.

End Solver.

(** ** The capped-simplex projector *)

Lemma clip01_range (a : R) : 0 <= clip01 a <= 1.
Proof.
  unfold clip01, Rmax, Rmin.
  destruct (Rle_dec a 1); destruct (Rle_dec _ 0); lra.
Qed.

Lemma clip01_low (a : R) : a <= 0 -> clip01 a = 0.
Proof.
  unfold clip01, Rmax, Rmin. intros H.
  destruct (Rle_dec a 1); destruct (Rle_dec _ 0); lra.
Qed.

Lemma clip01_high (a : R) : 1 <= a -> clip01 a = 1.
Proof.
  unfold clip01, Rmax, Rmin. intros H.
  destruct (Rle_dec a 1); destruct (Rle_dec _ 0); lra.
Qed.

Lemma clip01_inside (a : R) : 0 <= a <= 1 -> clip01 a = a.
Proof.
  unfold clip01, Rmax, Rmin. intros H.
  destruct (Rle_dec a 1); destruct (Rle_dec _ 0); lra.
Qed.

Lemma clip01_monotone (a b : R) : a <= b -> clip01 a <= clip01 b.
Proof.
  unfold clip01, Rmax, Rmin. intros H.
  destruct (Rle_dec a 1); destruct (Rle_dec b 1);
    repeat match goal with |- context [Rle_dec ?u ?v] => destruct (Rle_dec u v) end;
    lra.
Qed.

Lemma clip01_lipschitz (a b : R) : Rabs (clip01 a - clip01 b) <= Rabs (a - b).
Proof.
  unfold clip01, Rmax, Rmin, Rabs.
  destruct (Rle_dec a 1); destruct (Rle_dec b 1);
    repeat match goal with |- context [Rle_dec ?u ?v] => destruct (Rle_dec u v) end;
    repeat match goal with |- context [Rcase_abs ?u] => destruct (Rcase_abs u) end;
    lra.
Qed.

Lemma lipschitz_continuity (g : R -> R) :
  (forall a b, Rabs (g a - g b) <= Rabs (a - b)) -> continuity g.
Proof.
  intros Hg a. unfold continuity_pt, continue_in, limit1_in, limit_in.
  intros eps Heps. exists eps. split; [exact Heps |].
  intros b [_ Hb]. simpl in *. unfold Rdist in *.
  eapply Rle_lt_trans; [apply Hg | exact Hb].
Qed.

Lemma shift_clip_sum_continuity (v : vector) :
  continuity (fun tau => np.sum1 (shift_clip v tau)).
Proof.
  induction v as [| a v IH].
  - apply continuity_const. intros s t. reflexivity.
  - change (continuity ((fun tau => clip01 (a - tau))
                        + (fun tau => np.sum1 (shift_clip v tau)))%F).
    apply continuity_plus; [| exact IH].
    apply lipschitz_continuity. intros s t.
    eapply Rle_trans; [apply clip01_lipschitz |].
    replace (a - s - (a - t)) with (- (s - t)) by ring.
    rewrite Rabs_Ropp. lra.
Qed.

Lemma shift_clip_length (v : vector) (tau : R) :
  length (shift_clip v tau) = length v.
Proof. apply length_map. Qed.

Lemma shift_clip_range (v : vector) (tau : R) :
  Forall (fun a => 0 <= a <= 1) (shift_clip v tau).
Proof.
  unfold shift_clip. apply Forall_forall. intros a Ha.
  apply in_map_iff in Ha. destruct Ha as [c [<- _]]. apply clip01_range.
Qed.

(** A bound on the size of the entries. *)
Lemma abs_sum_bound (v : vector) (a : R) :
  In a v -> Rabs a <= np.sum1 (map Rabs v).
Proof.
  induction v as [| c v IH]; simpl; [contradiction |].
  assert (Hpos : 0 <= np.sum1 (map Rabs v)).
  { clear. induction v as [| c v IH]; simpl; [lra |].
    pose proof (Rabs_pos c). lra. }
  pose proof (Rabs_pos c).
  intros [-> | Hin]; [lra | specialize (IH Hin); lra].
Qed.

Lemma shift_clip_sum_far_left (v : vector) (tau : R) :
  (forall a, In a v -> 1 <= a - tau) ->
  np.sum1 (shift_clip v tau) = INR (length v).
Proof.
  induction v as [| c v IH]; intros H; [reflexivity |].
  change (clip01 (c - tau) + np.sum1 (shift_clip v tau) = INR (S (length v))).
  rewrite S_INR, IH by (intros a Ha; apply H; now right).
  rewrite clip01_high by (apply H; now left). ring.
Qed.

Lemma shift_clip_sum_far_right (v : vector) (tau : R) :
  (forall a, In a v -> a - tau <= 0) ->
  np.sum1 (shift_clip v tau) = 0.
Proof.
  induction v as [| c v IH]; intros H; [reflexivity |].
  change (clip01 (c - tau) + np.sum1 (shift_clip v tau) = 0).
  rewrite IH by (intros a Ha; apply H; now right).
  rewrite clip01_low by (apply H; now left). ring.
Qed.

(** For a fraction in [0,1] some offset gives the required total. *)
Lemma offset_exists (v : vector) (f : R) :
  0 <= f <= 1 ->
  exists tau, np.sum1 (shift_clip v tau) = capped_total f (length v).
Proof.
  intros Hf. set (B := np.sum1 (map Rabs v)).
  assert (HB : forall a, In a v -> - B <= a <= B).
  { intros a Ha. pose proof (abs_sum_bound v a Ha) as H. fold B in H.
    unfold Rabs in H. destruct (Rcase_abs a); lra. }
  assert (HB0 : 0 <= B).
  { destruct v as [| a v]; [unfold B; simpl; lra |].
    specialize (HB a (or_introl eq_refl)). lra. }
  set (g := fun tau => np.sum1 (shift_clip v tau) - capped_total f (length v)).
  assert (Hcont : continuity g).
  { unfold g.
    change (continuity ((fun tau => np.sum1 (shift_clip v tau))
                        - (fun _ => capped_total f (length v)))%F).
    apply continuity_minus; [apply shift_clip_sum_continuity |].
    apply continuity_const. intros s t. reflexivity. }
  pose proof (pos_INR (length v)) as Hn.
  assert (Hlo : 0 <= g (- B - 1)).
  { unfold g. rewrite shift_clip_sum_far_left.
    - unfold capped_total. nra.
    - intros a Ha. specialize (HB a Ha). lra. }
  assert (Hhi : g B <= 0).
  { unfold g. rewrite shift_clip_sum_far_right.
    - unfold capped_total. nra.
    - intros a Ha. specialize (HB a Ha). lra. }
  destruct (IVT_cor g (- B - 1) B Hcont) as [tau [_ Htau]]; [lra | nra |].
  exists tau. unfold g in Htau. lra.
Qed.

Lemma projection_offset (v : vector) (f : R) :
  (exists tau, np.sum1 (shift_clip v tau) = capped_total f (length v)) ->
  exists tau,
    capped_simplex_projection v f = shift_clip v tau
    /\ np.sum1 (shift_clip v tau) = capped_total f (length v).
Proof.
  intros Hex. unfold capped_simplex_projection.
  eexists. split; [reflexivity |].
  apply (epsilon_spec (inhabits 0)
           (fun tau => np.sum1 (shift_clip v tau) = capped_total f (length v))).
  exact Hex.
Qed.

(** The projection lands in the capped simplex. *)
Lemma projection_in_capped_simplex (v : vector) (f : R) :
  0 <= f <= 1 -> capped_simplex f (length v) (capped_simplex_projection v f).
Proof.
  intros Hf.
  destruct (projection_offset v f (offset_exists v f Hf)) as [tau [-> Hsum]].
  split; [apply shift_clip_length |].
  split; [apply shift_clip_range | exact Hsum].
Qed.

(** Two offsets with the same total give the same weights, so that the
    projection can be computed from any offset that gives the total. *)
Lemma shift_clip_same_total (v : vector) (s t : R) :
  s <= t ->
  np.sum1 (shift_clip v s) = np.sum1 (shift_clip v t) ->
  shift_clip v s = shift_clip v t.
Proof.
  intros Hst. induction v as [| a v IH]; [reflexivity |].
  change (clip01 (a - s) + np.sum1 (shift_clip v s)
          = clip01 (a - t) + np.sum1 (shift_clip v t)
          -> clip01 (a - s) :: shift_clip v s = clip01 (a - t) :: shift_clip v t).
  intros Hsum.
  assert (Hmono : forall w, np.sum1 (shift_clip w t) <= np.sum1 (shift_clip w s)).
  { clear - Hst. induction w as [| c w IH]; [simpl; lra |].
    change (clip01 (c - t) + np.sum1 (shift_clip w t)
            <= clip01 (c - s) + np.sum1 (shift_clip w s)).
    pose proof (clip01_monotone (c - t) (c - s)). lra. }
  pose proof (clip01_monotone (a - t) (a - s)) as Ha.
  pose proof (Hmono v) as Hv.
  assert (E1 : clip01 (a - s) = clip01 (a - t)) by lra.
  rewrite E1. f_equal. apply IH. lra.
Qed.

Lemma projection_from_offset (v : vector) (f tau : R) :
  np.sum1 (shift_clip v tau) = capped_total f (length v) ->
  capped_simplex_projection v f = shift_clip v tau.
Proof.
  intros Htau.
  destruct (projection_offset v f (ex_intro _ tau Htau)) as [tau0 [-> Hsum]].
  destruct (Rle_dec tau0 tau) as [Hle | Hgt].
  - apply shift_clip_same_total; [exact Hle | congruence].
  - symmetry. apply shift_clip_same_total; [lra | congruence].
Qed.

(** Among the points of the capped simplex the projection is a nearest one
    to the input: the model of the projector is the Euclidean projection of
    the specification. *)
Lemma shift_clip_nearest (v : vector) (tau : R) :
  forall u, length u = length v -> Forall (fun a => 0 <= a <= 1) u ->
    np.sum1 (np.vsquare (np.vsub (shift_clip v tau) v))
    - 2 * tau * (np.sum1 u - np.sum1 (shift_clip v tau))
    <= np.sum1 (np.vsquare (np.vsub u v)).
Proof.
  induction v as [| a v IH]; intros [| c u] Hlen Hu; simpl in Hlen;
    try discriminate.
  - simpl. lra.
  - inversion Hu as [| c' u' Hc Hu']; subst.
    specialize (IH u (eq_add_S _ _ Hlen) Hu').
    change (np.sum1 (np.vsquare (np.vsub (shift_clip (a :: v) tau) (a :: v))))
      with ((clip01 (a - tau) - a) * (clip01 (a - tau) - a)
            + np.sum1 (np.vsquare (np.vsub (shift_clip v tau) v))).
    change (np.sum1 (shift_clip (a :: v) tau))
      with (clip01 (a - tau) + np.sum1 (shift_clip v tau)).
    change (np.sum1 (np.vsquare (np.vsub (c :: u) (a :: v))))
      with ((c - a) * (c - a) + np.sum1 (np.vsquare (np.vsub u v))).
    change (np.sum1 (c :: u)) with (c + np.sum1 u).
    assert (Hpt : (clip01 (a - tau) - a) * (clip01 (a - tau) - a)
                  - 2 * tau * (c - clip01 (a - tau))
                  <= (c - a) * (c - a)).
    { destruct (Rle_dec (a - tau) 0) as [H0 | H0].
      - rewrite clip01_low by exact H0.
        assert (0 <= c * (tau - a)) by (apply Rmult_le_pos; lra). nra.
      - destruct (Rle_dec 1 (a - tau)) as [H1 | H1].
        + rewrite clip01_high by exact H1.
          assert (0 <= (1 - c) * (a - tau - 1)) by (apply Rmult_le_pos; lra).
          assert (0 <= (1 - c) * (1 - c)) by (apply Rmult_le_pos; lra).
          nra.
        + rewrite clip01_inside by lra.
          pose proof (Rle_0_sqr (c - a + tau)) as Hsq. unfold Rsqr in Hsq.
          nra. }
    lra.
Qed.

Lemma projection_nearest (v u : vector) (f : R) :
  0 <= f <= 1 ->
  capped_simplex f (length v) u ->
  np.vdist (capped_simplex_projection v f) v <= np.vdist u v.
Proof.
  intros Hf (Hlen & Hrange & Hsum).
  destruct (projection_offset v f (offset_exists v f Hf)) as [tau [-> Htau]].
  unfold np.vdist. apply sqrt_le_1_alt.
  pose proof (shift_clip_nearest v tau u Hlen Hrange) as H.
  rewrite Hsum, Htau in H. unfold capped_total in H. lra.
Qed.

Lemma projection_length (v : vector) (f : R) :
  length (capped_simplex_projection v f) = length v.
Proof. apply shift_clip_length. Qed.

(** ** Trimming *)

Lemma map2_length {A B C} (g : A -> B -> C) (l : list A) (l' : list B) :
  length (np.map2 g l l') = Nat.min (length l) (length l').
Proof.
  revert l'. induction l as [| a l IH]; intros [| b l']; simpl;
    try reflexivity.
  now rewrite IH.
Qed.

Lemma residual_grad_half_squared (x y w : matrix) :
  residual_grad x y w = half_squared_residual x y w.
Proof.
  unfold residual_grad, half_squared_residual, np.vscale, np.sum_axis1,
    np.square, np.sub.
  generalize (np.dot x w) as p. intros p. revert p.
  induction y as [| target y IH]; intros [| predicted p]; simpl;
    try reflexivity.
  rewrite IH. reflexivity.
Qed.

Lemma residual_grad_length (x y w : matrix) :
  length y = length x -> length (residual_grad x y w) = length x.
Proof.
  intros H. unfold residual_grad, np.vscale, np.sum_axis1, np.square, np.sub.
  rewrite !length_map, map2_length. unfold np.dot. rewrite length_map, H.
  apply Nat.min_id.
Qed.

Lemma update_sparse_settings (s s' : SR3) (w : matrix) :
  settings s = settings s' ->
  _update_sparse_coef s w = _update_sparse_coef s' w.
Proof.
  intros H. apply settings_fields in H.
  destruct H as (_ & _ & _ & _ & _ & Ht & Hts & Hp & _).
  unfold _update_sparse_coef. now rewrite Ht, Hts, Hp.
Qed.

Section Trimming.

Variable Cho : Type.
Variable cho_factor : matrix -> result Cho.
Variable cho_solve : Cho -> matrix -> result matrix.

Local Abbreviation Run := (Run Cho).
Local Abbreviation body := (reduce_body cho_factor cho_solve).
Local Abbreviation enter := (reduce_enter cho_factor).
Local Abbreviation loop := (reduce_loop cho_factor cho_solve).
Local Abbreviation reaches := (enters cho_factor cho_solve).

(** The weights an iteration with trimming leaves. *)
Lemma body_weights x y (r r' : Run) b :
  use_trimming (obj r) = true ->
  body x y r = inr (r', b) ->
  exists t cf f,
    locals.trimming_array (loc r) = Some t
    /\ locals.coef_full (loc r) = Some cf
    /\ trimming_fraction (obj r) = Some f
    /\ locals.trimming_array (loc r')
       = Some (capped_simplex_projection
                 (np.vsub t (np.vscale (trimming_step_size (obj r))
                                       (residual_grad x y cf))) f).
Proof.
  intros Hu H. apply reduce_body_inv in H.
  destruct H as (cho & xty & tg & tr & W & ta' & self2 & err
                 & H1 & _ & H3 & _ & -> & _).
  rewrite Hu in H1, H3.
  destruct H1 as (t & cf & Ht & Hcf & _ & _ & Hg & _).
  destruct H3 as (t' & g & f & h & Ht' & Hg' & Hf & _ & Hta & _).
  rewrite Ht in Ht'. inversion Ht'; subst t'.
  rewrite Hg in Hg'. inversion Hg'; subst g.
  exists t, cf, f. repeat split; assumption.
Qed.

Lemma enter_weights (self : SR3) x y tr (r0 : Run) f :
  use_trimming self = true ->
  trimming_fraction self = Some f ->
  enter self x y tr = inr r0 ->
  locals.trimming_array (loc r0) = Some (repeat (1 - f) (length x))
  /\ locals.coef_full (loc r0) = Some (locals.coef_sparse (loc r0)).
Proof.
  unfold reduce_enter. intros Hu Hf H.
  assert (Hs : use_trimming (match initial_guess (base self) with
                             | Some g => set_base (set_coef_ g) self
                             | None => self
                             end) = true
               /\ trimming_fraction (match initial_guess (base self) with
                                     | Some g => set_base (set_coef_ g) self
                                     | None => self
                                     end) = Some f)
    by (destruct (initial_guess (base self)); split; assumption).
  destruct Hs as [Hu1 Hf1]. rewrite Hu1, Hf1 in H.
  cbn [bind number ret] in H.
  destruct (cho_factor _) as [e | cho]; [discriminate |].
  cbn [bind ret] in H. inversion H; subst r0; clear H.
  split; reflexivity.
Qed.

(** C8.  With trimming and a fraction in [0,1], the weights start as
    1 - trimming_fraction in every one of the n_samples entries, and the
    weights every iteration leaves have their entries in [0,1] and the
    sum (1 - trimming_fraction) * n_samples. *)
Theorem trimming_weights_in_capped_simplex (self : SR3) x y tr (r0 : Run) f :
  use_trimming self = true ->
  trimming_fraction self = Some f ->
  0 <= f <= 1 ->
  length y = length x ->
  enter self x y tr = inr r0 ->
  locals.trimming_array (loc r0) = Some (repeat (1 - f) (length x))
  /\ forall j r r' b,
       reaches x y r0 j r ->
       body x y r = inr (r', b) ->
       exists t',
         locals.trimming_array (loc r') = Some t'
         /\ capped_simplex f (length x) t'.
Proof.
  intros Hu Hf Hrange Hlen He.
  destruct (enter_weights _ _ _ _ _ _ Hu Hf He) as [Ht0 _].
  split; [exact Ht0 |].
  destruct (enter_settings _ _ _ _ _ _ _ He) as (Hs0 & _).
  assert (Hinv : forall j r, reaches x y r0 j r ->
            exists t, locals.trimming_array (loc r) = Some t
                      /\ length t = length x).
  { intros j r Hr. induction Hr as [| j r r' Hr IH Hb].
    - eexists. split; [exact Ht0 | apply repeat_length].
    - destruct IH as (t & Ht & Hlt).
      assert (Hs : settings (obj r) = settings (obj r0))
        by (eapply reaches_settings; eassumption).
      rewrite Hs0 in Hs. apply settings_fields in Hs.
      destruct Hs as (_ & _ & Hu' & _).
      rewrite Hu in Hu'.
      destruct (body_weights _ _ _ _ _ Hu' Hb)
        as (t1 & cf & f1 & Ht1 & _ & _ & Hnew).
      rewrite Ht in Ht1. inversion Ht1; subst t1.
      eexists. split; [exact Hnew |].
      rewrite projection_length. unfold np.vsub, np.vscale.
      rewrite map2_length, length_map, residual_grad_length by exact Hlen.
      rewrite Hlt. apply Nat.min_id. }
  intros j r r' b Hr Hb.
  destruct (Hinv j r Hr) as (t & Ht & Hlt).
  assert (Hs : settings (obj r) = settings (obj r0))
    by (eapply reaches_settings; eassumption).
  rewrite Hs0 in Hs. apply settings_fields in Hs.
  destruct Hs as (_ & _ & Hu' & Hf' & _).
  rewrite Hu in Hu'. rewrite Hf in Hf'.
  destruct (body_weights _ _ _ _ _ Hu' Hb) as (t1 & cf & f1 & Ht1 & _ & Hf1 & Hnew).
  rewrite Ht in Ht1. inversion Ht1; subst t1.
  rewrite Hf' in Hf1. inversion Hf1; subst f1.
  eexists. split; [exact Hnew |].
  set (v := np.vsub t _).
  assert (Hv : length v = length x).
  { unfold v, np.vsub, np.vscale.
    rewrite map2_length, length_map, residual_grad_length by exact Hlen.
    rewrite Hlt. apply Nat.min_id. }
  rewrite <- Hv. apply projection_in_capped_simplex. exact Hrange.
Qed.

(** C4, as the code has it.  In every iteration with trimming the
    gradient is taken first, at the full coefficients the iteration
    starts with (in the first iteration the initial sparse coefficients):
    for each sample, half the squared residual summed over the targets.
    Then the full coefficients are solved for with the design matrix
    reweighted by the current weights, the sparse coefficients follow by
    the proximal operator, and the weights take a step of size
    trimming_step_size against that gradient and are projected on the
    capped simplex.  The next iteration reweights with the new weights. *)
Theorem trimming_iteration_order (self : SR3) x y tr (r0 r r' : Run) j b :
  use_trimming self = true ->
  enter self x y tr = inr r0 ->
  reaches x y r0 j r ->
  body x y r = inr (r', b) ->
  exists t Wprev f c W,
    locals.trimming_array (loc r) = Some t
    /\ locals.coef_full (loc r) = Some Wprev
    /\ (j = O -> Wprev = locals.coef_sparse (loc r))
    /\ trimming_fraction self = Some f
    /\ locals.trimming_grad (loc r') = Some (half_squared_residual x y Wprev)
    /\ cho_factor (gram (reweighted x t) x (nu self)) = inr c
    /\ cho_solve c (np.add (np.dot (np.T (reweighted x t)) y)
                           (np.divs (locals.coef_sparse (loc r)) (nu self)))
       = inr W
    /\ locals.coef_full (loc r') = Some W
    /\ locals.coef_sparse (loc r') = _update_sparse_coef self W
    /\ locals.trimming_array (loc r')
       = Some (weights_after_step (trimming_step_size self) f x y Wprev t)
    /\ forall r'' b',
         body x y r' = inr (r'', b') ->
         cho_factor
           (gram (reweighted x (weights_after_step (trimming_step_size self)
                                  f x y Wprev t)) x (nu self))
         = inr (locals.cho (loc r''))
         /\ locals.x_transpose_y (loc r'')
            = np.dot (np.T (reweighted x (weights_after_step
                                            (trimming_step_size self)
                                            f x y Wprev t))) y.
Proof.
  intros Hu He Hr Hb.
  destruct (enter_settings _ _ _ _ _ _ _ He) as (Hs0 & _).
  assert (Hs : settings (obj r) = settings self).
  { rewrite <- Hs0. eapply reaches_settings; eassumption. }
  assert (Hs' : settings (obj r') = settings self).
  { rewrite <- Hs. eapply body_settings; eassumption. }
  pose proof (settings_fields _ _ Hs) as (Hnu & _ & Hur & Hfr & Hstep & _).
  pose proof (settings_fields _ _ Hs') as (Hnu' & _ & Hur' & _).
  rewrite Hu in Hur, Hur'.
  destruct (body_weights _ _ _ _ _ Hur Hb) as (t & Wprev & f & Ht & HW & Hf & Hnew).
  destruct (body_solve _ _ _ _ _ _ _ _ Hb) as (W & HW' & HV & Hsolve & H).
  rewrite Hur in H.
  destruct H as (t1 & cf1 & Ht1 & Hcf1 & Hc & Hx & Hg & _).
  rewrite Ht in Ht1. inversion Ht1; subst t1.
  rewrite HW in Hcf1. inversion Hcf1; subst cf1.
  rewrite residual_grad_half_squared in Hg, Hnew.
  rewrite scale_rows_reweighted in Hc, Hx.
  rewrite Hx, Hnu in Hsolve. rewrite Hnu in Hc. rewrite Hstep in Hnew.
  exists t, Wprev, f, (locals.cho (loc r')), W.
  split; [exact Ht |]. split; [exact HW |].
  split.
  { intros ->. inversion Hr; subst.
    destruct (enter_weights _ _ _ _ _ _ Hu (eq_trans (eq_sym Hfr) Hf) He)
      as [_ Hcf0].
    rewrite Hcf0 in HW. now inversion HW. }
  split; [rewrite <- Hfr; exact Hf |].
  split; [exact Hg |]. split; [exact Hc |]. split; [exact Hsolve |].
  split; [exact HW' |].
  split; [rewrite HV; apply update_sparse_settings; exact Hs |].
  split; [exact Hnew |].
  intros r'' b' Hb'.
  destruct (body_solve _ _ _ _ _ _ _ _ Hb') as (W2 & _ & _ & _ & H).
  rewrite Hur' in H.
  destruct H as (t2 & cf2 & Ht2 & _ & Hc2 & Hx2 & _).
  rewrite Hnew in Ht2. inversion Ht2; subst t2.
  rewrite scale_rows_reweighted in Hc2, Hx2. rewrite Hnu' in Hc2.
  split; assumption.
Qed.

End Trimming.

(** ** Leaving the loop *)

Section Termination.

Variable Cho : Type.
Variable cho_factor : matrix -> result Cho.
Variable cho_solve : Cho -> matrix -> result matrix.

Local Abbreviation Run := (Run Cho).
Local Abbreviation body := (reduce_body cho_factor cho_solve).
Local Abbreviation enter := (reduce_enter cho_factor).
Local Abbreviation loop := (reduce_loop cho_factor cho_solve).
Local Abbreviation reaches := (enters cho_factor cho_solve).
Local Abbreviation reduce := (_reduce cho_factor cho_solve).

(** What the final stores do, read both ways. *)
Lemma reduce_exit_run (r : Run) (broke : bool) (W : matrix) :
  locals.coef_full (loc r) = Some W ->
  (use_trimming (obj r) = true -> locals.trimming_array (loc r) <> None) ->
  exists self',
    reduce_exit r broke
    = inr (self', if broke then log r
                  else warn (ConvergenceWarning (max_iter (base (obj r)))) (log r))
    /\ coef_ (base self') = np.T (locals.coef_sparse (loc r))
    /\ coef_full_ self' = Some (np.T W)
    /\ history_ (base self') = history_ (base (obj r))
    /\ iters (base self') = iters (base (obj r))
    /\ (use_trimming (obj r) = true ->
        trimming_array self' = locals.trimming_array (loc r)).
Proof.
  intros HW Ht. unfold reduce_exit. rewrite HW. cbn [bind local ret].
  change (use_trimming (set_coef_full_ _ (set_base _ (obj r))))
    with (use_trimming (obj r)).
  destruct (use_trimming (obj r)) eqn:Eu.
  - destruct (locals.trimming_array (loc r)) as [t |] eqn:Et;
      [| now destruct (Ht eq_refl)].
    cbn [bind local ret]. eexists. split; [reflexivity |].
    repeat split.
  - eexists. split; [reflexivity |]. repeat split. discriminate.
Qed.

Lemma reduce_exit_inv (r : Run) (broke : bool) self' tr' :
  reduce_exit r broke = inr (self', tr') ->
  exists W, locals.coef_full (loc r) = Some W
            /\ (use_trimming (obj r) = true ->
                locals.trimming_array (loc r) <> None).
Proof.
  unfold reduce_exit. intros H.
  destruct (locals.coef_full (loc r)) as [W |]; [| discriminate].
  exists W. split; [reflexivity |]. intros Hu.
  cbn [bind local ret] in H.
  change (use_trimming (set_coef_full_ _ (set_base _ (obj r))))
    with (use_trimming (obj r)) in H.
  rewrite Hu in H.
  destruct (locals.trimming_array (loc r)); [discriminate | discriminate].
Qed.

(** Iterations leave the warnings alone. *)
Lemma reaches_warnings (self : SR3) x y tr (r0 r : Run) j :
  enter self x y tr = inr r0 -> reaches x y r0 j r ->
  warnings (log r) = warnings tr.
Proof.
  intros He Hr. induction Hr as [| j r r' Hr IH Hb].
  - destruct (enter_settings _ _ _ _ _ _ _ He) as (_ & _ & _ & _ & _ & _ & ->).
    reflexivity.
  - rewrite <- IH.
    destruct (body_solve _ _ _ _ _ _ _ _ Hb) as (W & _ & _ & _ & H).
    destruct (use_trimming (obj r)).
    + destruct H as (t & cf & _ & _ & _ & _ & _ & ->). reflexivity.
    + destruct H as (_ & _ & _ & ->). reflexivity.
Qed.

(** After [j] iterations the history has [j] more entries, [iters] has
    grown by [j], and the last entry is the current sparse iterate. *)
Lemma reaches_history x y (r0 r : Run) j :
  reaches x y r0 j r ->
  exists vs,
    history_ (base (obj r)) = history_ (base (obj r0)) ++ vs
    /\ length vs = j
    /\ iters (base (obj r)) = (iters (base (obj r0)) + Z.of_nat j)%Z
    /\ (j = O \/ exists vs0, vs = vs0 ++ [np.T (locals.coef_sparse (loc r))]).
Proof.
  induction 1 as [| j r r' Hr IH Hb].
  - exists []. rewrite app_nil_r. repeat split; [simpl; lia | now left].
  - destruct IH as (vs & Hh & Hl & Hi & _).
    destruct (body_history _ _ _ _ _ _ _ _ Hb) as [Hh' Hi'].
    exists (vs ++ [np.T (locals.coef_sparse (loc r'))]).
    split; [rewrite Hh', Hh, app_assoc; reflexivity |].
    split; [rewrite length_app; simpl; lia |].
    split; [rewrite Hi', Hi; lia |].
    right. now exists vs.
Qed.

Lemma body_coef_full x y (r r' : Run) b :
  body x y r = inr (r', b) ->
  (exists W, locals.coef_full (loc r') = Some W)
  /\ (use_trimming (obj r') = true -> locals.trimming_array (loc r') <> None).
Proof.
  intros Hb. split.
  - destruct (body_solve _ _ _ _ _ _ _ _ Hb) as (W & HW & _). now exists W.
  - intros Hu. destruct (body_ready _ _ _ _ _ _ _ _ Hb Hu)
      as (h & t & cf & f & _ & -> & _). discriminate.
Qed.

(** C6.  When the loop has run its max_iter iterations and none of them
    found the criterion below the tolerance, [_reduce] returns: it issues
    one ConvergenceWarning and stores the sparse and the full coefficients
    of the last iteration and, with trimming, its weights.  (The budget
    is positive, as the specification asks, or trimming is on.) *)
Theorem budget_exhausted_warns (self : SR3) x y tr (r0 rf : Run) :
  (0 < max_iter (base self))%Z \/ use_trimming self = true ->
  enter self x y tr = inr r0 ->
  reaches x y r0 (Z.to_nat (max_iter (base self))) rf ->
  exists self' tr' W,
    reduce self x y tr = inr (self', tr')
    /\ warnings tr' = warnings tr ++ [ConvergenceWarning (max_iter (base self))]
    /\ coef_ (base self') = np.T (locals.coef_sparse (loc rf))
    /\ locals.coef_full (loc rf) = Some W
    /\ coef_full_ self' = Some (np.T W)
    /\ (use_trimming self = true ->
        exists t, locals.trimming_array (loc rf) = Some t
                  /\ trimming_array self' = Some t).
Proof.
  intros Hbudget He Hr.
  destruct (enter_settings _ _ _ _ _ _ _ He) as (Hs0 & _).
  pose proof (settings_fields _ _ Hs0) as (_ & _ & Hu0 & _ & _ & _ & _ & _ & Hm0).
  assert (Hsf : settings (obj rf) = settings self).
  { rewrite <- Hs0. eapply reaches_settings; eassumption. }
  pose proof (settings_fields _ _ Hsf) as (_ & _ & Huf & _ & _ & _ & _ & _ & Hmf).
  assert (Hbound : (exists W, locals.coef_full (loc rf) = Some W)
                   /\ (use_trimming (obj rf) = true ->
                       locals.trimming_array (loc rf) <> None)).
  { inversion Hr as [E0 E1 | j r r' Hr' Hb Ej E1].
    - subst rf. destruct Hbudget as [Hpos | Hu]; [lia |].
      rewrite <- Hu0 in Hu.
      destruct (enter_ready _ _ _ _ _ _ _ He Hu) as (h & t & cf & f & _ & Ht & Hcf & _).
      split; [now exists cf |]. intros _. rewrite Ht. discriminate.
    - subst. eapply body_coef_full; eassumption. }
  destruct Hbound as [[W HW] Ht].
  destruct (reduce_exit_run rf false W HW Ht)
    as (self' & Hexit & Hcoef & Hfull & _ & _ & Htrim).
  exists self', (warn (ConvergenceWarning (max_iter (base (obj rf)))) (log rf)), W.
  split.
  { unfold _reduce. rewrite He. cbn [bind]. rewrite Hm0.
    erewrite reduce_loop_exhaust by exact Hr. cbn [bind]. exact Hexit. }
  split.
  { cbn [warn warnings]. rewrite Hmf.
    erewrite reaches_warnings by eassumption. reflexivity. }
  split; [exact Hcoef |]. split; [exact HW |]. split; [exact Hfull |].
  intros Hu. rewrite <- Huf in Hu. specialize (Htrim Hu). specialize (Ht Hu).
  destruct (locals.trimming_array (loc rf)) as [t |]; [| contradiction].
  now exists t.
Qed.

(** C10.  When [_reduce] returns, it has completed some number k of
    iterations, at most the budget and at least one when the budget is
    positive: the history has k entries more than before and [iters] has
    grown by k; and when k is at least one, the last entry of the history
    is the stored [coef_]. *)
Theorem coef_is_last_history_entry (self : SR3) x y tr self' tr' :
  reduce self x y tr = inr (self', tr') ->
  exists (k : nat) (vs : list matrix) (r0 rf : Run),
    enter self x y tr = inr r0
    /\ (reaches x y r0 k rf
        \/ exists i r, k = S i /\ reaches x y r0 i r
                       /\ body x y r = inr (rf, true))
    /\ (k <= Z.to_nat (max_iter (base self)))%nat
    /\ ((0 < max_iter (base self))%Z -> (1 <= k)%nat)
    /\ history_ (base self') = history_ (base self) ++ vs
    /\ length vs = k
    /\ iters (base self') = (iters (base self) + Z.of_nat k)%Z
    /\ ((1 <= k)%nat -> exists vs0, vs = vs0 ++ [coef_ (base self')]).
Proof.
  unfold _reduce. intros H.
  destruct (enter self x y tr) as [e | r0] eqn:He; [discriminate |].
  cbn [bind] in H.
  destruct (enter_settings _ _ _ _ _ _ _ He)
    as (Hs0 & Hh0 & Hi0 & _).
  pose proof (settings_fields _ _ Hs0) as (_ & _ & _ & _ & _ & _ & _ & _ & Hm0).
  rewrite Hm0 in H.
  destruct (loop _ x y r0) as [e | [rf broke]] eqn:Hl; [discriminate |].
  cbn [bind] in H.
  destruct (reduce_exit_inv _ _ _ _ H) as (W & HW & Ht).
  destruct (reduce_exit_run rf broke W HW Ht)
    as (s & Hexit & Hcoef & _ & Hhist & Hiters & _).
  rewrite Hexit in H. inversion H; subst s tr'; clear H.
  apply reduce_loop_inv in Hl. destruct broke.
  - destruct Hl as (i & r & Hi & Hr & Hb).
    destruct (reaches_history _ _ _ _ _ Hr) as (vs & Hh & Hlen & Hit & _).
    destruct (body_history _ _ _ _ _ _ _ _ Hb) as [Hh' Hi'].
    exists (S i), (vs ++ [np.T (locals.coef_sparse (loc rf))]), r0, rf.
    split; [reflexivity |].
    split; [right; exists i, r; repeat split; assumption |].
    split; [lia |]. split; [lia |].
    split; [rewrite Hhist, Hh', Hh, Hh0, app_assoc; reflexivity |].
    split; [rewrite length_app; simpl; lia |].
    split; [rewrite Hiters, Hi', Hit, Hi0; lia |].
    intros _. exists vs. now rewrite Hcoef.
  - destruct (reaches_history _ _ _ _ _ Hl) as (vs & Hh & Hlen & Hit & Hlast).
    exists (Z.to_nat (max_iter (base self))), vs, r0, rf.
    split; [reflexivity |]. split; [now left |].
    split; [lia |]. split; [lia |].
    split; [rewrite Hhist, Hh, Hh0; reflexivity |].
    split; [exact Hlen |].
    split; [rewrite Hiters, Hit, Hi0; reflexivity |].
    intros Hk. destruct Hlast as [E | [vs0 ->]]; [lia |].
    exists vs0. now rewrite Hcoef.
Qed.

(** X1.  With trimming off and a budget that allows no iteration, a
    run that gets as far as the loop raises UnboundLocalError: the final
    stores read [coef_full], which only an iteration or the trimming
    set-up assigns. *)
Remark reduce_zero_budget_unbound (self : SR3) x y tr (r0 : Run) :
  use_trimming self = false ->
  (max_iter (base self) <= 0)%Z ->
  enter self x y tr = inr r0 ->
  reduce self x y tr = inl (UnboundLocalError "coef_full").
Proof.
  intros Hu Hm He. unfold _reduce. rewrite He. cbn [bind].
  destruct (enter_settings _ _ _ _ _ _ _ He) as (Hs0 & _).
  pose proof (settings_fields _ _ Hs0) as (_ & _ & _ & _ & _ & _ & _ & _ & Hm0).
  rewrite Hm0. replace (Z.to_nat (max_iter (base self))) with O by lia.
  cbn [reduce_loop bind ret]. unfold reduce_exit.
  revert He. unfold reduce_enter.
  assert (Hu1 : use_trimming (match initial_guess (base self) with
                              | Some g => set_base (set_coef_ g) self
                              | None => self
                              end) = false)
    by (destruct (initial_guess (base self)); exact Hu).
  rewrite Hu1. cbn [bind ret].
  destruct (cho_factor _) as [e | c]; [discriminate |].
  cbn [bind ret]. intros He. inversion He; subst r0. reflexivity.
Qed.

End Termination.

(** ** Running the model forward *)

Section Forward.

Variable Cho : Type.
Variable cho_factor : matrix -> result Cho.
Variable cho_solve : Cho -> matrix -> result matrix.

Local Abbreviation Run := (Run Cho).
Local Abbreviation body := (reduce_body cho_factor cho_solve).
Local Abbreviation enter := (reduce_enter cho_factor).
Local Abbreviation loop := (reduce_loop cho_factor cho_solve).
Local Abbreviation reduce := (_reduce cho_factor cho_solve).

Lemma enter_run_plain (self : SR3) x y tr c :
  initial_guess (base self) = None ->
  use_trimming self = false ->
  cho_factor (gram x x (nu self)) = inr c ->
  enter self x y tr
  = inr (mkRun self
           (locals.mk (np.T (coef_ (base self))) None None c
                      (np.dot (np.T x) y) None)
           (log_factor (gram x x (nu self)) tr)).
Proof.
  intros Hg Hu Hc. unfold reduce_enter. rewrite Hg, Hu. cbn [bind ret].
  rewrite Hc. reflexivity.
Qed.

Lemma enter_run_trimming (self : SR3) x y tr c f :
  initial_guess (base self) = None ->
  use_trimming self = true ->
  trimming_fraction self = Some f ->
  cho_factor (gram x x (nu self)) = inr c ->
  enter self x y tr
  = inr (mkRun (set_history_trimming_ [np.full (length x) (1 - f)] self)
           (locals.mk (np.T (coef_ (base self)))
                      (Some (np.T (coef_ (base self))))
                      (Some (np.full (length x) (1 - f))) c
                      (np.dot (np.T x) y) None)
           (log_factor (gram x x (nu self)) tr)).
Proof.
  intros Hg Hu Hf Hc. unfold reduce_enter. rewrite Hg, Hu, Hf.
  cbn [bind number ret]. cbn [nu set_history_trimming_]. rewrite Hc.
  reflexivity.
Qed.

Lemma body_run_plain x y (r : Run) (W : matrix) :
  use_trimming (obj r) = false ->
  cho_solve (locals.cho (loc r))
    (np.add (locals.x_transpose_y (loc r))
            (np.divs (locals.coef_sparse (loc r)) (nu (obj r))))
  = inr W ->
  body x y r
  = inr (mkRun (after_solve (obj r) (_update_sparse_coef (obj r) W))
           (locals.mk (_update_sparse_coef (obj r) W) (Some W)
                      (locals.trimming_array (loc r)) (locals.cho (loc r))
                      (locals.x_transpose_y (loc r))
                      (locals.trimming_grad (loc r)))
           (log r),
         np.ltb (np.dist (np.T (_update_sparse_coef (obj r) W))
                   (previous (history_ (base (obj r)))
                      (np.zeros_like (np.T (_update_sparse_coef (obj r) W))))
                 / nu (obj r))
                (tol (obj r))).
Proof.
  intros Hu Hs. unfold reduce_body. rewrite Hu. cbn [bind ret].
  unfold _update_full_coef. rewrite Hs. cbn [bind ret].
  change (use_trimming (set_base _ (set_base _ (obj r))))
    with (use_trimming (obj r)).
  rewrite Hu. cbn [bind ret].
  erewrite criterion_plain; [| exact Hu | reflexivity].
  reflexivity.
Qed.

Lemma body_run_trimming x y (r : Run) (t : vector) (cf W : matrix)
    (f : R) (h : list vector) (c : Cho) :
  use_trimming (obj r) = true ->
  locals.trimming_array (loc r) = Some t ->
  locals.coef_full (loc r) = Some cf ->
  trimming_fraction (obj r) = Some f ->
  history_trimming_ (obj r) = Some h ->
  cho_factor (gram (np.scale_rows x t) x (nu (obj r))) = inr c ->
  cho_solve c
    (np.add (np.dot (np.T (np.scale_rows x t)) y)
            (np.divs (locals.coef_sparse (loc r)) (nu (obj r))))
  = inr W ->
  let V := _update_sparse_coef (obj r) W in
  let t' := capped_simplex_projection
              (np.vsub t (np.vscale (trimming_step_size (obj r))
                                    (residual_grad x y cf))) f in
  body x y r
  = inr (mkRun (set_history_trimming_ (h ++ [t']) (after_solve (obj r) V))
           (locals.mk V (Some W) (Some t') c
                      (np.dot (np.T (np.scale_rows x t)) y)
                      (Some (residual_grad x y cf)))
           (log_factor (gram (np.scale_rows x t) x (nu (obj r))) (log r)),
         np.ltb (np.dist (np.T V)
                   (previous (history_ (base (obj r)))
                      (np.zeros_like (np.T V)))
                 / nu (obj r)
                 + np.vdist t' (previous h (np.vzeros_like t'))
                   / trimming_step_size (obj r))
                (tol (obj r))).
Proof.
  intros Hu Ht Hcf Hf Hh Hc Hs V t'. unfold reduce_body.
  rewrite Hu, Ht. cbn [bind local ret]. rewrite Hc. cbn [bind local ret].
  rewrite Hcf. cbn [bind local ret].
  unfold _update_full_coef. rewrite Hs. cbn [bind ret].
  change (use_trimming (set_base _ (set_base _ (obj r))))
    with (use_trimming (obj r)).
  rewrite Hu. cbn [bind local ret]. unfold _update_trimming_array.
  change (trimming_fraction (set_base _ (set_base _ (obj r))))
    with (trimming_fraction (obj r)).
  rewrite Hf. cbn [bind number ret].
  change (history_trimming_ (set_base _ (set_base _ (obj r))))
    with (history_trimming_ (obj r)).
  rewrite Hh. cbn [bind attribute ret].
  erewrite criterion_trimming; [| exact Hu | reflexivity | reflexivity].
  reflexivity.
Qed.

Lemma reduce_run (self : SR3) x y tr (r0 rf : Run) broke res :
  enter self x y tr = inr r0 ->
  loop (Z.to_nat (max_iter (base (obj r0)))) x y r0 = inr (rf, broke) ->
  reduce_exit rf broke = inr res ->
  reduce self x y tr = inr res.
Proof.
  intros He Hl Hx. unfold _reduce. rewrite He. cbn [bind].
  rewrite Hl. cbn [bind]. exact Hx.
Qed.

End Forward.

(** ** The stand-in solver *)

Lemma div_sqrt_sqrt (a v : R) : 0 < a -> v / sqrt a / sqrt a = v / a.
Proof.
  intros Ha. pose proof (sqrt_lt_R0 a Ha) as Hs.
  pose proof (sqrt_sqrt a (Rlt_le _ _ Ha)) as Hq.
  unfold Rdiv. rewrite Rmult_assoc, <- Rinv_mult, Hq. reflexivity.
Qed.

Lemma standin_factor (a : R) :
  0 < a -> standin.cho_factor [[a]] = inr (sqrt a).
Proof.
  intros Ha. unfold standin.cho_factor.
  destruct (Rlt_dec 0 a); [reflexivity | contradiction].
Qed.

Lemma standin_solve (a : R) (row : vector) :
  0 < a ->
  standin.cho_solve (sqrt a) [row] = inr [map (fun v => v / a) row].
Proof.
  intros Ha. unfold standin.cho_solve, ret. do 2 f_equal.
  apply map_ext. intros v. now apply div_sqrt_sqrt.
Qed.

Lemma map_nth_seq_from (g : R -> R) (row : vector) (s : nat) :
  map (fun j => g (nth (j - s) row 0)) (seq s (length row)) = map g row.
Proof.
  revert s. induction row as [| a row IH]; intros s; [reflexivity |].
  cbn [length seq map]. rewrite Nat.sub_diag. cbn [nth]. f_equal.
  rewrite <- (IH (S s)). apply map_ext_in. intros j Hj.
  apply in_seq in Hj. replace (j - s)%nat with (S (j - S s)) by lia.
  reflexivity.
Qed.

Lemma map_nth_seq (g : R -> R) (row : vector) :
  map (fun j => g (nth j row 0)) (seq 0 (length row)) = map g row.
Proof.
  rewrite <- (map_nth_seq_from g row 0). apply map_ext. intros j.
  now rewrite Nat.sub_0_r.
Qed.

Lemma standin_contract : cholesky_contract standin.cho_factor standin.cho_solve.
Proof.
  intros a c b w Hf Hs. unfold standin.cho_factor in Hf.
  destruct a as [| [| a00 [|]] [|]]; try discriminate.
  destruct (Rlt_dec 0 a00) as [Ha |]; [| discriminate].
  inversion Hf; subst c; clear Hf.
  unfold standin.cho_solve in Hs.
  destruct b as [| row [|]]; try discriminate.
  inversion Hs; subst w; clear Hs.
  unfold np.dot, np.T, np.shape, np.column, np.inner. cbn [map hd snd].
  f_equal. rewrite map_map, length_map.
  transitivity (map (fun v => v) row); [| apply map_id].
  rewrite <- (map_nth_seq (fun v => v) row).
  apply map_ext_in. intros j Hj. apply in_seq in Hj.
  rewrite (nth_indep _ 0 ((fun v => v / sqrt a00 / sqrt a00) 0))
    by (rewrite length_map; lia).
  pose proof (map_nth (fun v => v / sqrt a00 / sqrt a00) row 0 j) as E.
  cbv beta in E. rewrite E. clear E. cbn [np.map2 np.sum1 fold_right].
  rewrite div_sqrt_sqrt by exact Ha. field. lra.
Qed.

(** ** Runs of the small problems *)

Ltac arrays :=
  cbv [gram np.add np.dot np.T np.shape np.column np.inner np.sum1 np.map2
       np.diag np.full np.divs np.sub np.square np.sum np.dist np.vdist
       np.vsub np.vscale np.vsquare np.zeros_like np.vzeros_like
       np.scale_rows np.sum_axis1 residual_grad half_squared_residual
       map seq fold_right nth hd length snd fst repeat Nat.eqb concat app
       rev previous last
       example.x1 example.y1 example.x2 example.y2].

Lemma prox_l0_keeps (t w : R) : 0 <= t <= w -> standin.prox_l0 t w = w.
Proof.
  intros H. unfold standin.prox_l0.
  destruct (Rle_dec t (Rabs w)) as [| Hn]; [reflexivity |].
  exfalso. apply Hn. rewrite Rabs_pos_eq; lra.
Qed.

Lemma x1_factor : standin.cho_factor (gram example.x1 example.x1 1) = inr (sqrt 2).
Proof.
  arrays. replace (1 * 1 + 0 + 1 / 1) with 2 by lra.
  apply standin_factor. lra.
Qed.

Lemma fresh_solve :
  standin.cho_solve (sqrt 2)
    (np.add (np.dot (np.T example.x1) example.y1) (np.divs (np.T [[0]]) 1))
  = inr [[1 / 2]].
Proof.
  arrays. rewrite standin_solve by lra. cbn [map]. do 3 f_equal. lra.
Qed.

Lemma fresh_prox : _update_sparse_coef example.fresh [[1 / 2]] = [[1 / 2]].
Proof.
  unfold _update_sparse_coef. cbn. rewrite prox_l0_keeps by lra. reflexivity.
Qed.

Lemma fresh_not_converged :
  np.ltb (np.dist (np.T [[1 / 2]])
            (previous [] (np.zeros_like (np.T [[1 / 2]]))) / 1)
         (1 / 100000)
  = false.
Proof.
  apply ltb_false. arrays.
  replace ((1 / 2 - 0) * (1 / 2 - 0) + 0) with (1 / 2 * (1 / 2)) by lra.
  rewrite sqrt_square by lra. lra.
Qed.

(** The first iteration on the fresh optimizer: the criterion is 1/2 and
    the iteration does not break. *)
Lemma fresh_run :
  exists r0 r1,
    reduce_enter standin.cho_factor example.fresh example.x1 example.y1
      example.tr0 = inr r0
    /\ reduce_body standin.cho_factor standin.cho_solve example.x1 example.y1 r0
       = inr (r1, false)
    /\ locals.coef_sparse (loc r1) = [[1 / 2]].
Proof.
  eexists. eexists. split; [| split].
  - apply enter_run_plain; [reflexivity | reflexivity | apply x1_factor].
  - erewrite body_run_plain; [| reflexivity | apply fresh_solve].
    cbn [obj loc log locals.coef_sparse locals.coef_full
         locals.trimming_array locals.cho locals.x_transpose_y
         locals.trimming_grad].
    rewrite fresh_prox.
    change (history_ (base example.fresh)) with (@nil matrix).
    change (nu example.fresh) with 1. change (tol example.fresh) with (1 / 100000).
    rewrite fresh_not_converged. reflexivity.
  - reflexivity.
Qed.

Lemma settled_solve :
  standin.cho_solve (sqrt 2)
    (np.add (np.dot (np.T example.x1) example.y1) (np.divs (np.T [[1]]) 1))
  = inr [[1]].
Proof.
  arrays. rewrite standin_solve by lra. cbn [map]. do 3 f_equal. lra.
Qed.

Lemma settled_prox : _update_sparse_coef example.settled [[1]] = [[1]].
Proof.
  unfold _update_sparse_coef. cbn. rewrite prox_l0_keeps by lra. reflexivity.
Qed.

(** The first iteration on the settled optimizer appends the entry the
    history already ends with. *)
Lemma settled_run :
  exists r0 r1 b,
    reduce_enter standin.cho_factor example.settled example.x1 example.y1
      example.tr0 = inr r0
    /\ reduce_body standin.cho_factor standin.cho_solve example.x1 example.y1 r0
       = inr (r1, b)
    /\ history_ (base (obj r0)) = [] ++ [[[1]]]
    /\ np.T (locals.coef_sparse (loc r1)) = [[1]].
Proof.
  eexists. eexists. eexists. split; [| split; [| split]].
  - apply enter_run_plain; [reflexivity | reflexivity | apply x1_factor].
  - erewrite body_run_plain; [| reflexivity | apply settled_solve].
    cbn [obj loc log locals.coef_sparse locals.coef_full
         locals.trimming_array locals.cho locals.x_transpose_y
         locals.trimming_grad].
    rewrite settled_prox. reflexivity.
  - reflexivity.
  - reflexivity.
Qed.

Ltac vec_eq := repeat (apply (f_equal2 (@cons R)); [lra |]); reflexivity.

Lemma x2_factor : standin.cho_factor (gram example.x2 example.x2 1) = inr (sqrt 3).
Proof.
  arrays. replace (1 * 1 + (1 * 1 + 0) + 1 / 1) with 3 by lra.
  apply standin_factor. lra.
Qed.

Lemma trimmed_factor :
  standin.cho_factor
    (gram (np.scale_rows example.x2 (np.full 2 (1 - 1 / 2))) example.x2 1)
  = inr (sqrt 2).
Proof.
  arrays.
  replace (1 * (1 - 1 / 2) * 1 + (1 * (1 - 1 / 2) * 1 + 0) + 1 / 1)
    with 2 by lra.
  apply standin_factor. lra.
Qed.

Lemma trimmed_solve :
  standin.cho_solve (sqrt 2)
    (np.add (np.dot (np.T (np.scale_rows example.x2 (np.full 2 (1 - 1 / 2))))
                    example.y2)
            (np.divs (np.T [[0]]) 1))
  = inr [[1 / 4]].
Proof.
  arrays. rewrite standin_solve by lra. cbn [map]. do 3 f_equal. lra.
Qed.

Lemma trimmed_prox : _update_sparse_coef example.trimmed [[1 / 4]] = [[1 / 4]].
Proof.
  unfold _update_sparse_coef. cbn. rewrite prox_l0_keeps by lra. reflexivity.
Qed.

(** Two projections on the capped simplex of two weights with sum 1. *)
Lemma projection_example_code :
  capped_simplex_projection [0; 1 / 2] (1 / 2) = [1 / 4; 3 / 4].
Proof.
  rewrite (projection_from_offset _ _ (- (1 / 4))).
  - unfold shift_clip. cbn [map]. rewrite !clip01_inside by lra.
    vec_eq.
  - unfold shift_clip, capped_total. cbn [map np.sum1 fold_right length INR].
    rewrite !clip01_inside by lra. lra.
Qed.

Lemma projection_example_claim :
  capped_simplex_projection [7 / 32; 15 / 32] (1 / 2) = [3 / 8; 5 / 8].
Proof.
  rewrite (projection_from_offset _ _ (- (5 / 32))).
  - unfold shift_clip. cbn [map]. rewrite !clip01_inside by lra.
    vec_eq.
  - unfold shift_clip, capped_total. cbn [map np.sum1 fold_right length INR].
    rewrite !clip01_inside by lra. lra.
Qed.

Lemma trimmed_step_code :
  np.vsub (np.full 2 (1 - 1 / 2))
          (np.vscale 1 (residual_grad example.x2 example.y2 (np.T [[0]])))
  = [0; 1 / 2].
Proof. arrays. vec_eq. Qed.

Lemma trimmed_step_claim :
  np.vsub (np.full 2 (1 - 1 / 2))
          (np.vscale 1 (half_squared_residual example.x2 example.y2 [[1 / 4]]))
  = [7 / 32; 15 / 32].
Proof. arrays. unfold Rsqr. vec_eq. Qed.

(** The first iteration on the trimmed optimizer: the weights it leaves
    come from the gradient at the initial coefficients. *)
Lemma trimmed_run :
  exists r0 r1 b,
    reduce_enter standin.cho_factor example.trimmed example.x2 example.y2
      example.tr0 = inr r0
    /\ reduce_body standin.cho_factor standin.cho_solve example.x2 example.y2 r0
       = inr (r1, b)
    /\ locals.trimming_array (loc r0) = Some (np.full 2 (1 - 1 / 2))
    /\ locals.coef_full (loc r1) = Some [[1 / 4]]
    /\ locals.trimming_array (loc r1) = Some [1 / 4; 3 / 4].
Proof.
  eexists. eexists. eexists. split; [| split; [| split; [| split]]].
  - apply enter_run_trimming;
      [reflexivity | reflexivity | reflexivity | apply x2_factor].
  - erewrite body_run_trimming;
      [| reflexivity | reflexivity | reflexivity | reflexivity | reflexivity
       | apply trimmed_factor | apply trimmed_solve].
    cbn [obj loc log locals.coef_sparse locals.coef_full
         locals.trimming_array locals.cho locals.x_transpose_y
         locals.trimming_grad].
    reflexivity.
  - reflexivity.
  - reflexivity.
  - cbn [loc locals.trimming_array]. f_equal.
    change (trimming_step_size _) with 1.
    change (length example.x2) with 2%nat.
    change (coef_ (base example.trimmed)) with [[0]].
    rewrite trimmed_step_code. apply projection_example_code.
Qed.

Lemma fresh_reduce :
  exists self' tr',
    _reduce standin.cho_factor standin.cho_solve example.fresh
      example.x1 example.y1 example.tr0 = inr (self', tr').
Proof.
  destruct fresh_run as (r0 & r1 & He & Hb & _).
  destruct (body_coef_full _ _ _ _ _ _ _ _ Hb) as [[W HW] Ht].
  destruct (reduce_exit_run _ r1 false W HW Ht) as (self' & Hexit & _).
  eexists. eexists. eapply reduce_run; [exact He | | exact Hexit].
  destruct (enter_settings _ _ _ _ _ _ _ He) as (Hs & _).
  apply settings_fields in Hs.
  destruct Hs as (_ & _ & _ & _ & _ & _ & _ & _ & ->).
  apply reduce_loop_exhaust.
  eapply enters_next; [apply enters_first | exact Hb].
Qed.

Lemma standin_get_prox_total (name : string) :
  is_variant name -> succeeds (standin.get_prox name).
Proof.
  rewrite is_variant_In. intros Hin. unfold standin.get_prox.
  simpl in Hin.
  repeat (destruct Hin as [<- | Hin]; [eexists; reflexivity |]).
  contradiction.
Qed.

(** ** The numbered properties on the small problems *)

Lemma full_coef_solves_witness :
  exists r0 r1 W,
    reduce_enter standin.cho_factor example.fresh example.x1 example.y1
      example.tr0 = inr r0
    /\ reduce_body standin.cho_factor standin.cho_solve example.x1 example.y1 r0
       = inr (r1, false)
    /\ locals.coef_full (loc r1) = Some W
    /\ np.dot (normal_matrix example.x1 1) W
       = np.add (np.dot (np.T example.x1) example.y1)
                (np.divs (locals.coef_sparse (loc r0)) 1).
Proof.
  destruct fresh_run as (r0 & r1 & He & Hb & _).
  destruct (full_coef_solves_normal_equations _ _ _ example.fresh _ _ _ _ _ _ _ _
              standin_contract eq_refl He (enters_first _ _ _ _ _) Hb)
    as (W & HW & Heq).
  exists r0, r1, W. repeat split; assumption.
Defined.

Lemma factorization_reuse_witness :
  (exists r0 r1 c,
     reduce_enter standin.cho_factor example.fresh example.x1 example.y1
       example.tr0 = inr r0
     /\ reduce_body standin.cho_factor standin.cho_solve example.x1 example.y1 r0
        = inr (r1, false)
     /\ standin.cho_factor (normal_matrix example.x1 1) = inr c
     /\ c = locals.cho (loc r0)
     /\ factorized (log r1) = [normal_matrix example.x1 1])
  /\ (exists r0 r1 b t,
        reduce_enter standin.cho_factor example.trimmed example.x2 example.y2
          example.tr0 = inr r0
        /\ reduce_body standin.cho_factor standin.cho_solve
             example.x2 example.y2 r0 = inr (r1, b)
        /\ locals.trimming_array (loc r0) = Some t
        /\ factorized (log r1)
           = factorized (log r0)
             ++ [np.add (np.dot (np.T (reweighted example.x2 t)) example.x2)
                        (np.divs (identity 1) 1)]
        /\ length (factorized (log r1)) = 2%nat).
Proof.
  split.
  - destruct fresh_run as (r0 & r1 & He & Hb & _).
    destruct (factorization_reuse _ _ _ _ _ _ _ _ _ _ _ _
                He (enters_first _ _ _ _ _) Hb)
      as (c & W & _ & _ & _ & Hc & Hc0 & _ & Hlog).
    exists r0, r1, c. repeat split; assumption.
  - destruct trimmed_run as (r0 & r1 & b & He & Hb & _).
    destruct (factorization_reuse _ _ _ _ _ _ _ _ _ _ _ _
                He (enters_first _ _ _ _ _) Hb)
      as (c & W & _ & _ & _ & t & Ht & _ & _ & Hlog & Hlen).
    exists r0, r1, b, t.
    split; [exact He |]. split; [exact Hb |]. split; [exact Ht |].
    split; [exact Hlog | exact Hlen].
Defined.

Lemma trimming_iteration_witness :
  exists r0 r1 b t Wprev,
    reduce_enter standin.cho_factor example.trimmed example.x2 example.y2
      example.tr0 = inr r0
    /\ reduce_body standin.cho_factor standin.cho_solve example.x2 example.y2 r0
       = inr (r1, b)
    /\ locals.trimming_array (loc r0) = Some t
    /\ locals.coef_full (loc r0) = Some Wprev
    /\ locals.trimming_grad (loc r1)
       = Some (half_squared_residual example.x2 example.y2 Wprev)
    /\ locals.trimming_array (loc r1)
       = Some (weights_after_step 1 (1 / 2) example.x2 example.y2 Wprev t).
Proof.
  destruct trimmed_run as (r0 & r1 & b & He & Hb & _).
  destruct (trimming_iteration_order _ _ _ example.trimmed _ _ _ _ _ _ _ _
              eq_refl He (enters_first _ _ _ _ _) Hb)
    as (t & Wprev & f & c & W & Ht & HW & _ & Hf & Hg & _ & _ & _ & _ & Hnew & _).
  exists r0, r1, b, t, Wprev.
  inversion Hf; subst f.
  repeat split; assumption.
Defined.

(** On the two-sample problem the first iteration leaves the weights
    [1/4; 3/4], from the gradient at the initial coefficients; the gradient
    at the coefficients the iteration has just computed would give
    [3/8; 5/8]. *)
Lemma gradient_at_updated_coef_fails :
  ~ gradient_at_updated_coef standin.cho_factor standin.cho_solve
      example.trimmed example.x2 example.y2.
Proof.
  intros H.
  destruct trimmed_run as (r0 & r1 & b & He & Hb & Ht0 & HW & Ht1).
  specialize (H example.tr0 r0 O r0 r1 b _ _ (1 / 2)
                He (enters_first _ _ _ _ _) Hb Ht0 HW eq_refl).
  rewrite Ht1 in H. unfold weights_after_step in H.
  change (trimming_step_size example.trimmed) with 1 in H.
  rewrite trimmed_step_claim, projection_example_claim in H.
  injection H as H1 H2. lra.
Qed.

Lemma budget_exhausted_witness :
  exists (r1 : Run standin.Cho) self' tr',
    _reduce standin.cho_factor standin.cho_solve example.fresh
      example.x1 example.y1 example.tr0 = inr (self', tr')
    /\ warnings tr' = [ConvergenceWarning 1]
    /\ coef_ (base self') = np.T (locals.coef_sparse (loc r1))
    /\ locals.coef_sparse (loc r1) = [[1 / 2]].
Proof.
  destruct fresh_run as (r0 & r1 & He & Hb & HV).
  destruct (budget_exhausted_warns _ _ _ example.fresh _ _ _ r0 r1
              (or_introl eq_refl) He
              (enters_next _ _ _ _ _ _ _ _ (enters_first _ _ _ _ _) Hb))
    as (self' & tr' & W & Hrun & Hwarn & Hcoef & _).
  exists r1, self', tr'. repeat split; assumption.
Defined.

Lemma identical_entries_witness :
  exists r0 r1 b,
    reduce_enter standin.cho_factor example.settled example.x1 example.y1
      example.tr0 = inr r0
    /\ reduce_body standin.cho_factor standin.cho_solve example.x1 example.y1 r0
       = inr (r1, b)
    /\ _convergence_criterion (obj r1) = inr 0
    /\ b = true
    /\ reduce_loop standin.cho_factor standin.cho_solve 30
         example.x1 example.y1 r0 = inr (r1, true).
Proof.
  destruct settled_run as (r0 & r1 & b & He & Hb & Hh & HV).
  assert (Htol : 0 < tol example.settled) by (cbn; lra).
  destruct (identical_entries_stop _ _ _ example.settled _ _ _ _ _ _ _ _ _ _
              eq_refl Htol He (enters_first _ _ _ _ _) Hb Hh HV)
    as (Hc & Hbt & Hloop).
  exists r0, r1, b. repeat split; try assumption.
  apply Hloop. apply Nat.lt_0_succ.
Defined.

Lemma trimming_weights_witness :
  exists r0 r1 b t',
    reduce_enter standin.cho_factor example.trimmed example.x2 example.y2
      example.tr0 = inr r0
    /\ locals.trimming_array (loc r0) = Some (repeat (1 - 1 / 2) 2)
    /\ reduce_body standin.cho_factor standin.cho_solve
         example.x2 example.y2 r0 = inr (r1, b)
    /\ locals.trimming_array (loc r1) = Some t'
    /\ capped_simplex (1 / 2) 2 t'.
Proof.
  destruct trimmed_run as (r0 & r1 & b & He & Hb & _).
  assert (Hf : 0 <= 1 / 2 <= 1) by lra.
  destruct (trimming_weights_in_capped_simplex _ _ standin.cho_solve example.trimmed
              example.x2 example.y2 _ _ (1 / 2)
              eq_refl eq_refl Hf eq_refl He)
    as (Hinit & Hall).
  destruct (Hall O r0 r1 b (enters_first _ _ _ _ _) Hb) as (t' & Ht' & Hin).
  exists r0, r1, b, t'. repeat split; try assumption; apply Hin.
Defined.

Lemma trimming_switches_witness :
  (2 < 0 \/ 1 < 2)
  /\ raises (__init__ standin.BaseOptimizer_init standin.get_prox
               (mkArgs (1 / 10) None 1 (1 / 100000) "L0" 2 1 30%Z
                       false true None false))
  /\ exists self', enable_trimming example.fresh 2 = inr self'
                   /\ use_trimming self' = true
                   /\ trimming_fraction self' = Some 2.
Proof.
  assert (H2 : 2 < 0 \/ 1 < 2) by (right; lra).
  destruct (trimming_switches_never_raise
              standin.BaseOptimizer_init standin.get_prox example.fresh 2)
    as (Hen & _ & Hinit).
  split; [exact H2 |]. split; [| exact Hen].
  apply (Hinit H2). reflexivity.
Defined.

Lemma coef_is_last_history_entry_witness :
  exists self' tr' vs0,
    _reduce standin.cho_factor standin.cho_solve example.fresh
      example.x1 example.y1 example.tr0 = inr (self', tr')
    /\ history_ (base self') = history_ (base example.fresh) ++ vs0 ++ [coef_ (base self')]
    /\ iters (base self') = 1%Z.
Proof.
  destruct fresh_reduce as (self' & tr' & Hrun).
  destruct (coef_is_last_history_entry _ _ _ _ _ _ _ _ _ Hrun)
    as (k & vs & r0 & rf & _ & _ & Hk & Hpos & Hh & Hlen & Hit & Hlast).
  assert (Hk1 : (1 <= k)%nat) by (apply Hpos; reflexivity).
  destruct (Hlast Hk1) as [vs0 ->].
  exists self', tr', vs0. split; [exact Hrun |]. split; [exact Hh |].
  rewrite Hit. cbn in Hk. cbn [iters base example.fresh].
  replace k with 1%nat by lia. reflexivity.
Defined.

(** * More properties of a run *)

Section WholeRun.

Variable Cho : Type.
Variable cho_factor : matrix -> result Cho.
Variable cho_solve : Cho -> matrix -> result matrix.

Local Abbreviation Run := (Run Cho).
Local Abbreviation body := (reduce_body cho_factor cho_solve).
Local Abbreviation enter := (reduce_enter cho_factor).
Local Abbreviation loop := (reduce_loop cho_factor cho_solve).
Local Abbreviation reaches := (enters cho_factor cho_solve).
Local Abbreviation reduce := (_reduce cho_factor cho_solve).

(** A run that returns has entered the loop, left it and done the final
    stores. *)
Lemma reduce_inv (self : SR3) x y tr res :
  reduce self x y tr = inr res ->
  exists r0 rf broke,
    enter self x y tr = inr r0
    /\ loop (Z.to_nat (max_iter (base self))) x y r0 = inr (rf, broke)
    /\ reduce_exit rf broke = inr res.
Proof.
  unfold _reduce. intros H.
  destruct (enter self x y tr) as [e | r0] eqn:He; [discriminate |].
  cbn [bind] in H.
  destruct (enter_settings _ _ _ _ _ _ _ He) as (Hs0 & _).
  pose proof (settings_fields _ _ Hs0) as (_ & _ & _ & _ & _ & _ & _ & _ & Hm0).
  rewrite Hm0 in H.
  destruct (loop _ x y r0) as [e | [rf broke]] eqn:Hl; [discriminate |].
  cbn [bind] in H. exists r0, rf, broke.
  split; [reflexivity |]. split; [exact Hl | exact H].
Qed.

(** The state a loop that returns has left is the state after some
    iteration, or the state the loop was entered in. *)
Lemma reduce_loop_final n x y (r0 rf : Run) broke :
  loop n x y r0 = inr (rf, broke) ->
  rf = r0 \/ exists r b, (exists j, reaches x y r0 j r) /\ body x y r = inr (rf, b).
Proof.
  intros H. apply reduce_loop_inv in H. destruct broke.
  - destruct H as (j & r & _ & Hr & Hb). right. exists r, true.
    split; [now exists j | exact Hb].
  - inversion H as [| j r r' Hr Hb]; subst.
    + now left.
    + right. exists r, false. split; [now exists j | exact Hb].
Qed.

(** What an iteration never assigns. *)
Lemma body_frame x y (r r' : Run) b :
  body x y r = inr (r', b) ->
  coef_ (base (obj r')) = coef_ (base (obj r))
  /\ coef_full_ (obj r') = coef_full_ (obj r)
  /\ trimming_array (obj r') = trimming_array (obj r)
  /\ (use_trimming (obj r) = false ->
      history_trimming_ (obj r') = history_trimming_ (obj r)
      /\ locals.trimming_array (loc r') = locals.trimming_array (loc r)).
Proof.
  intros H. apply reduce_body_inv in H.
  destruct H as (cho & xty & tg & tr & W & ta' & self2 & err
                 & _ & _ & H3 & _ & -> & _).
  destruct (use_trimming (obj r)).
  - destruct H3 as (ta & g & f & h & _ & _ & _ & _ & _ & ->).
    split; [reflexivity |]. split; [reflexivity |]. split; [reflexivity |].
    intros Hu. discriminate.
  - destruct H3 as [-> ->].
    split; [reflexivity |]. split; [reflexivity |]. split; [reflexivity |].
    intros _. split; reflexivity.
Qed.

Lemma reaches_frame x y (r0 r : Run) j :
  reaches x y r0 j r ->
  coef_full_ (obj r) = coef_full_ (obj r0)
  /\ trimming_array (obj r) = trimming_array (obj r0)
  /\ (use_trimming (obj r0) = false ->
      history_trimming_ (obj r) = history_trimming_ (obj r0)
      /\ locals.trimming_array (loc r) = locals.trimming_array (loc r0)).
Proof.
  induction 1 as [| j r r' Hr IH Hb]; [repeat split |].
  destruct IH as (IH1 & IH2 & IH3).
  destruct (body_frame _ _ _ _ _ Hb) as (_ & H1 & H2 & H3).
  assert (Hu : use_trimming (obj r) = use_trimming (obj r0)).
  { apply settings_fields. eapply reaches_settings; eassumption. }
  split; [congruence |]. split; [congruence |].
  intros Hu0. rewrite Hu0 in Hu.
  destruct (IH3 Hu0) as [E1 E2]. destruct (H3 Hu) as [E3 E4].
  split; congruence.
Qed.

Lemma enter_frame (self : SR3) x y tr (r0 : Run) :
  enter self x y tr = inr r0 ->
  coef_full_ (obj r0) = coef_full_ self
  /\ trimming_array (obj r0) = trimming_array self
  /\ (use_trimming self = false ->
      history_trimming_ (obj r0) = history_trimming_ self
      /\ locals.trimming_array (loc r0) = None
      /\ locals.coef_full (loc r0) = None).
Proof.
  unfold reduce_enter. intros H.
  set (self1 := match initial_guess (base self) with
                | Some g => set_base (set_coef_ g) self
                | None => self
                end) in *.
  assert (E : coef_full_ self1 = coef_full_ self
              /\ trimming_array self1 = trimming_array self
              /\ history_trimming_ self1 = history_trimming_ self
              /\ use_trimming self1 = use_trimming self)
    by (subst self1; destruct (initial_guess (base self)); repeat split).
  destruct E as (E1 & E2 & E3 & E4).
  destruct (use_trimming self1) eqn:Eu.
  - destruct (trimming_fraction self1) as [f |]; [| discriminate].
    cbn [bind number ret] in H.
    destruct (cho_factor _) as [e | cho]; [discriminate |].
    cbn [bind ret] in H. inversion H; subst r0; clear H.
    cbn [obj loc]. repeat split; try assumption; congruence.
  - cbn [bind ret] in H.
    destruct (cho_factor _) as [e | cho]; [discriminate |].
    cbn [bind ret] in H. inversion H; subst r0; clear H.
    cbn [obj loc]. repeat split; assumption.
Qed.

Lemma reduce_exit_settings (r : Run) broke self' tr' :
  reduce_exit r broke = inr (self', tr') ->
  settings self' = settings (obj r)
  /\ history_trimming_ self' = history_trimming_ (obj r)
  /\ (use_trimming (obj r) = false -> trimming_array self' = trimming_array (obj r)).
Proof.
  unfold reduce_exit. intros H.
  destruct (locals.coef_full (loc r)) as [W |]; [| discriminate].
  cbn [bind local ret] in H.
  change (use_trimming (set_coef_full_ _ (set_base _ (obj r))))
    with (use_trimming (obj r)) in H.
  destruct (use_trimming (obj r)).
  - destruct (locals.trimming_array (loc r)) as [t |]; [| discriminate].
    cbn [bind local ret] in H. inversion H; subst. repeat split. discriminate.
  - inversion H; subst. repeat split.
Qed.

(** X2.  When an initial guess is set, the coefficients the object holds
    before the run play no part in it: [_reduce] starts from the guess. *)
Theorem initial_guess_overrides_coef (self : SR3) x y tr (g c : matrix) :
  initial_guess (base self) = Some g ->
  reduce (set_base (set_coef_ c) self) x y tr = reduce self x y tr.
Proof.
  intros Hg. unfold _reduce, reduce_enter.
  change (initial_guess (base (set_base (set_coef_ c) self)))
    with (initial_guess (base self)).
  rewrite Hg. reflexivity.
Qed.

(** X3.  A run without trimming leaves the trimming history and the
    stored trimming weights of the object as they were. *)
Theorem plain_run_leaves_trimming_alone (self : SR3) x y tr self' tr' :
  use_trimming self = false ->
  reduce self x y tr = inr (self', tr') ->
  history_trimming_ self' = history_trimming_ self
  /\ trimming_array self' = trimming_array self.
Proof.
  intros Hu H. apply reduce_inv in H.
  destruct H as (r0 & rf & broke & He & Hl & Hx).
  destruct (enter_frame _ _ _ _ _ He) as (_ & E2 & E3).
  destruct (E3 Hu) as (E4 & _).
  destruct (enter_settings _ _ _ _ _ _ _ He) as (Hs0 & _).
  pose proof (settings_fields _ _ Hs0) as (_ & _ & Hu0 & _).
  rewrite Hu in Hu0.
  assert (Hf : history_trimming_ (obj rf) = history_trimming_ (obj r0)
               /\ trimming_array (obj rf) = trimming_array (obj r0)
               /\ use_trimming (obj rf) = false).
  { destruct (reduce_loop_final _ _ _ _ _ _ Hl) as [-> | (r & b & [j Hr] & Hb)].
    - repeat split. exact Hu0.
    - destruct (reaches_frame _ _ _ _ _ Hr) as (_ & F2 & F3).
      destruct (F3 Hu0) as [F4 _].
      assert (Hur : use_trimming (obj r) = false).
      { rewrite <- Hu0. apply settings_fields.
        eapply reaches_settings; eassumption. }
      destruct (body_frame _ _ _ _ _ Hb) as (_ & _ & G2 & G3).
      destruct (G3 Hur) as [G4 _].
      split; [congruence |]. split; [congruence |].
      rewrite <- Hur. apply settings_fields.
      eapply body_settings; eassumption. }
  destruct Hf as (F1 & F2 & F3).
  destruct (reduce_exit_settings _ _ _ _ Hx) as (_ & X1 & X2).
  split; [congruence |]. rewrite (X2 F3). congruence.
Qed.

(** X4.  A run never changes the settings of the object: thresholds,
    nu, tolerance, proximal operator, trimming switch, fraction and step
    size, budget and initial guess are after the run what they were. *)
Theorem run_keeps_settings (self : SR3) x y tr self' tr' :
  reduce self x y tr = inr (self', tr') ->
  settings self' = settings self.
Proof.
  intros H. apply reduce_inv in H.
  destruct H as (r0 & rf & broke & He & Hl & Hx).
  destruct (enter_settings _ _ _ _ _ _ _ He) as (Hs0 & _).
  destruct (reduce_exit_settings _ _ _ _ Hx) as (Hs & _).
  rewrite Hs, <- Hs0.
  destruct (reduce_loop_final _ _ _ _ _ _ Hl) as [-> | (r & b & [j Hr] & Hb)];
    [reflexivity |].
  transitivity (settings (obj r)).
  - eapply body_settings; eassumption.
  - eapply reaches_settings; eassumption.
Qed.

End WholeRun.

Section RunOutcomes.

Variable Cho : Type.
Variable cho_factor : matrix -> result Cho.
Variable cho_solve : Cho -> matrix -> result matrix.

Local Abbreviation Run := (Run Cho).
Local Abbreviation body := (reduce_body cho_factor cho_solve).
Local Abbreviation enter := (reduce_enter cho_factor).
Local Abbreviation loop := (reduce_loop cho_factor cho_solve).
Local Abbreviation reaches := (enters cho_factor cho_solve).
Local Abbreviation reduce := (_reduce cho_factor cho_solve).

(** A loop picks up where a run of iterations without [break] has led. *)
Lemma reduce_loop_resume x y (r0 r : Run) j m :
  reaches x y r0 j r -> loop (j + m) x y r0 = loop m x y r.
Proof.
  induction 1 as [| j r r1 Hr IH Hb1] in m |- *; [reflexivity |].
  replace (S j + m)%nat with (j + S m)%nat by lia.
  rewrite IH. simpl. rewrite Hb1. reflexivity.
Qed.

Lemma enter_trimming_history (self : SR3) x y tr (r0 : Run) f :
  use_trimming self = true ->
  trimming_fraction self = Some f ->
  enter self x y tr = inr r0 ->
  trimming_history_from (np.full (length x) (1 - f)) O r0.
Proof.
  intros Hu Hf. unfold reduce_enter.
  assert (E : use_trimming (match initial_guess (base self) with
                            | Some g => set_base (set_coef_ g) self
                            | None => self
                            end) = true
              /\ trimming_fraction (match initial_guess (base self) with
                                    | Some g => set_base (set_coef_ g) self
                                    | None => self
                                    end) = Some f)
    by (destruct (initial_guess (base self)); split; assumption).
  destruct E as [E1 E2]. rewrite E1, E2. cbn [bind number ret].
  destruct (cho_factor _) as [e | c]; [discriminate |].
  cbn [bind ret]. intros He. inversion He; subst r0; clear He.
  exists []. repeat split.
Qed.

Lemma body_trimming_history x y (r r' : Run) b t0 j :
  use_trimming (obj r) = true ->
  trimming_history_from t0 j r ->
  body x y r = inr (r', b) ->
  trimming_history_from t0 (S j) r'.
Proof.
  intros Hur (ts & Hh & Hlen & Ht) Hb.
  apply reduce_body_inv in Hb.
  destruct Hb as (cho & xty & tg & tr1 & W & ta' & self2 & err
                  & _ & _ & H3 & _ & -> & _).
  rewrite Hur in H3.
  destruct H3 as (ta & g & f' & h & _ & _ & _ & Hh' & -> & ->).
  rewrite Hh in Hh'. inversion Hh'; subst h; clear Hh'.
  eexists (ts ++ [_]). cbn [obj loc locals.trimming_array].
  split; [reflexivity |].
  split; [rewrite length_app; simpl; lia |].
  f_equal. symmetry. apply (last_last (t0 :: ts)).
Qed.

Lemma reaches_use_trimming (self : SR3) x y tr (r0 r : Run) j :
  enter self x y tr = inr r0 -> reaches x y r0 j r ->
  use_trimming (obj r) = use_trimming self
  /\ max_iter (base (obj r)) = max_iter (base self).
Proof.
  intros He Hr.
  destruct (enter_settings _ _ _ _ _ _ _ He) as (Hs0 & _).
  assert (Hs : settings (obj r) = settings self).
  { rewrite <- Hs0. eapply reaches_settings; eassumption. }
  apply settings_fields in Hs. tauto.
Qed.

Lemma reaches_trimming_history (self : SR3) x y tr (r0 r : Run) j f :
  use_trimming self = true ->
  trimming_fraction self = Some f ->
  enter self x y tr = inr r0 ->
  reaches x y r0 j r ->
  trimming_history_from (np.full (length x) (1 - f)) j r.
Proof.
  intros Hu Hf He Hr. induction Hr as [| j r r' Hr IH Hb].
  - eapply enter_trimming_history; eassumption.
  - eapply body_trimming_history; [| exact IH | exact Hb].
    destruct (reaches_use_trimming _ _ _ _ _ _ _ He Hr) as [-> _]. exact Hu.
Qed.

(** The state a loop that returns has left, with the number of iterations
    it has completed. *)
Lemma reduce_loop_count n x y (r0 rf : Run) broke :
  loop n x y r0 = inr (rf, broke) ->
  exists k, (k <= n)%nat
            /\ (broke = false -> k = n)
            /\ (reaches x y r0 k rf /\ broke = false
                \/ exists i r, k = S i /\ reaches x y r0 i r
                               /\ body x y r = inr (rf, broke)).
Proof.
  intros H. pose proof (reduce_loop_inv _ _ _ _ _ _ _ _ _ H) as Hi.
  destruct broke.
  - destruct Hi as (i & r & Hlt & Hr & Hb). exists (S i).
    split; [lia |]. split; [discriminate |]. right. now exists i, r.
  - exists n. split; [lia |]. split; [reflexivity |]. now left.
Qed.

(** X5.  A run with trimming starts a new trimming history, whatever the
    object held: the uniform weights 1 - trimming_fraction first, then one
    entry for each completed iteration; the stored trimming weights are
    its last entry. *)
Theorem trimming_history_restarts (self : SR3) x y tr self' tr' f :
  use_trimming self = true ->
  trimming_fraction self = Some f ->
  reduce self x y tr = inr (self', tr') ->
  exists ts,
    history_trimming_ self' = Some (np.full (length x) (1 - f) :: ts)
    /\ trimming_array self'
       = Some (List.last (np.full (length x) (1 - f) :: ts)
                         (np.full (length x) (1 - f)))
    /\ (length ts <= Z.to_nat (max_iter (base self)))%nat
    /\ Z.of_nat (length ts) = (iters (base self') - iters (base self))%Z.
Proof.
  intros Hu Hf H. apply reduce_inv in H.
  destruct H as (r0 & rf & broke & He & Hl & Hx).
  destruct (enter_settings _ _ _ _ _ _ _ He) as (Hs0 & _ & Hi0 & _).
  destruct (reduce_loop_count _ _ _ _ _ _ Hl) as (k & Hk & _ & Hcase).
  assert (Hstate : trimming_history_from (np.full (length x) (1 - f)) k rf
                   /\ iters (base (obj rf))
                      = (iters (base (obj r0)) + Z.of_nat k)%Z
                   /\ use_trimming (obj rf) = true).
  { destruct Hcase as [[Hr _] | (i & r & -> & Hr & Hb)].
    - split; [exact (reaches_trimming_history _ _ _ _ _ _ _ _ Hu Hf He Hr) |].
      destruct (reaches_history _ _ _ _ _ _ _ _ Hr) as (vs & _ & _ & Hit & _).
      split; [exact Hit |].
      destruct (reaches_use_trimming _ _ _ _ _ _ _ He Hr) as [-> _]. exact Hu.
    - destruct (reaches_use_trimming _ _ _ _ _ _ _ He Hr) as [Hur _].
      rewrite Hu in Hur.
      pose proof (reaches_trimming_history _ _ _ _ _ _ _ _ Hu Hf He Hr) as Hth.
      split; [exact (body_trimming_history _ _ _ _ _ _ _ Hur Hth Hb) |].
      destruct (reaches_history _ _ _ _ _ _ _ _ Hr) as (vs & _ & _ & Hit & _).
      destruct (body_history _ _ _ _ _ _ _ _ Hb) as [_ Hit'].
      split; [rewrite Hit', Hit; lia |].
      rewrite <- Hur. apply settings_fields.
      eapply body_settings; eassumption. }
  destruct Hstate as ((ts & Hh & Hlen & Ht) & Hit & Huf).
  destruct (reduce_exit_inv _ _ _ _ _ Hx) as (W & HW & Hta).
  destruct (reduce_exit_run _ rf broke W HW Hta)
    as (s & Hexit & _ & _ & _ & Hiters & Htrim).
  rewrite Hexit in Hx. inversion Hx; subst s tr'; clear Hx.
  destruct (reduce_exit_settings _ _ _ _ _ Hexit) as (_ & Hht & _).
  exists ts. split; [rewrite Hht; exact Hh |].
  split; [rewrite (Htrim Huf); exact Ht |].
  split; [lia |]. rewrite Hiters, Hit, Hi0. lia.
Qed.

(** X6.  When an iteration within the budget finds the criterion below
    the tolerance, [_reduce] returns without a warning and stores the
    coefficients of that iteration. *)
Theorem converged_run_is_silent (self : SR3) x y tr (r0 r rf : Run) j :
  enter self x y tr = inr r0 ->
  reaches x y r0 j r ->
  (j < Z.to_nat (max_iter (base self)))%nat ->
  body x y r = inr (rf, true) ->
  exists self' tr' W,
    reduce self x y tr = inr (self', tr')
    /\ warnings tr' = warnings tr
    /\ coef_ (base self') = np.T (locals.coef_sparse (loc rf))
    /\ locals.coef_full (loc rf) = Some W
    /\ coef_full_ self' = Some (np.T W)
    /\ iters (base self') = (iters (base self) + Z.of_nat (S j))%Z.
Proof.
  intros He Hr Hj Hb.
  destruct (enter_settings _ _ _ _ _ _ _ He) as (Hs0 & _ & Hi0 & _).
  pose proof (settings_fields _ _ Hs0) as (_ & _ & _ & _ & _ & _ & _ & _ & Hm0).
  destruct (body_coef_full _ _ _ _ _ _ _ _ Hb) as [[W HW] Ht].
  destruct (reduce_exit_run _ rf true W HW Ht)
    as (self' & Hexit & Hcoef & Hfull & _ & Hiters & _).
  exists self', (log rf), W.
  split.
  { eapply reduce_run; [exact He | | exact Hexit]. rewrite Hm0.
    eapply reduce_loop_break; eassumption. }
  split.
  { destruct (body_solve _ _ _ _ _ _ _ _ Hb) as (W' & _ & _ & _ & H).
    erewrite <- (reaches_warnings _ _ _ _ _ _ _ _ _ _ He Hr).
    destruct (use_trimming (obj r)).
    - destruct H as (t & cf & _ & _ & _ & _ & _ & ->). reflexivity.
    - destruct H as (_ & _ & _ & ->). reflexivity. }
  split; [exact Hcoef |]. split; [exact HW |]. split; [exact Hfull |].
  destruct (reaches_history _ _ _ _ _ _ _ _ Hr) as (vs & _ & _ & Hit & _).
  destruct (body_history _ _ _ _ _ _ _ _ Hb) as [_ Hit'].
  rewrite Hiters, Hit', Hit, Hi0. lia.
Qed.

(** X8.  An exception raised in an iteration within the budget is the
    exception [_reduce] raises: nothing is caught on the way. *)
Theorem iteration_error_propagates (self : SR3) x y tr (r0 r : Run) j e :
  enter self x y tr = inr r0 ->
  reaches x y r0 j r ->
  (j < Z.to_nat (max_iter (base self)))%nat ->
  body x y r = inl e ->
  reduce self x y tr = inl e.
Proof.
  intros He Hr Hj Hb. unfold _reduce. rewrite He. cbn [bind].
  destruct (enter_settings _ _ _ _ _ _ _ He) as (Hs0 & _).
  pose proof (settings_fields _ _ Hs0) as (_ & _ & _ & _ & _ & _ & _ & _ & Hm0).
  rewrite Hm0.
  replace (Z.to_nat (max_iter (base self)))
    with (j + S (Z.to_nat (max_iter (base self)) - S j))%nat by lia.
  rewrite (reduce_loop_resume _ _ _ _ _ _ Hr). simpl. rewrite Hb. reflexivity.
Qed.

End RunOutcomes.


(** * More properties of the convergence test *)

Lemma sub_zeros_like (a : matrix) : np.sub a (np.zeros_like a) = a.
Proof.
  unfold np.sub, np.zeros_like.
  induction a as [| row a IH]; simpl; [reflexivity |].
  rewrite IH. f_equal.
  induction row as [| v row IHr]; simpl; [reflexivity |].
  rewrite IHr. f_equal. ring.
Qed.

Lemma dist_nonneg (a b : matrix) : 0 <= np.dist a b.
Proof. apply sqrt_pos. Qed.

Lemma vdist_nonneg (u v : vector) : 0 <= np.vdist u v.
Proof. apply sqrt_pos. Qed.

(** X9.  On an empty history the convergence test raises IndexError; on
    a history of one entry, without trimming, it is the Frobenius norm of
    that entry over nu: the entry is compared with zeros. *)
Theorem criterion_short_history (self : SR3) (V : matrix) :
  (history_ (base self) = [] -> _convergence_criterion self = inl IndexError)
  /\ (history_ (base self) = [V] -> use_trimming self = false ->
      _convergence_criterion self = inr (frobenius V / nu self)).
Proof.
  split.
  - intros Hh. unfold _convergence_criterion. rewrite Hh. reflexivity.
  - intros Hh Hu.
    rewrite (criterion_plain self [] V Hu Hh).
    unfold previous. cbn [last].
    now rewrite dist_frobenius, sub_zeros_like.
Qed.

(** X10.  With nu positive and, under trimming, a positive step size,
    the criterion is never negative; so a tolerance that is not positive,
    which the constructor refuses, could never be met. *)
Theorem criterion_nonnegative (self : SR3) (err : R) :
  0 < nu self ->
  (use_trimming self = true -> 0 < trimming_step_size self) ->
  _convergence_criterion self = inr err ->
  0 <= err /\ (tol self <= 0 -> np.ltb err (tol self) = false).
Proof.
  intros Hnu Hstep H.
  assert (Hpos : 0 <= err).
  { unfold _convergence_criterion in H.
    destruct (py.last (history_ (base self))) as [e | this]; [discriminate |].
    cbn [bind] in H.
    destruct (if (1 <? length (history_ (base self)))%nat
              then py.last2 (history_ (base self))
              else ret (np.zeros_like this)) as [e | before];
      [discriminate |].
    cbn [bind] in H.
    assert (H1 : 0 <= np.dist this before / nu self).
    { apply Rmult_le_pos; [apply dist_nonneg |].
      left. now apply Rinv_0_lt_compat. }
    destruct (use_trimming self).
    - destruct (history_trimming_ self) as [h |]; [| discriminate].
      cbn [bind attribute ret] in H.
      destruct (py.last h) as [e | t]; [discriminate |]. cbn [bind] in H.
      destruct (if (1 <? length h)%nat then py.last2 h
                else ret (np.vzeros_like t)) as [e | t']; [discriminate |].
      cbn [bind ret] in H. inversion H; subst err.
      assert (H2 : 0 <= np.vdist t t' / trimming_step_size self).
      { apply Rmult_le_pos; [apply vdist_nonneg |].
        left. apply Rinv_0_lt_compat. now apply Hstep. }
      lra.
    - inversion H; subst err. exact H1. }
  split; [exact Hpos |]. intros Htol. apply ltb_false. lra.
Qed.

(** * More properties of the constructor and the switches *)

Section ConstructorMore.

Variable BaseOptimizer_init :
  Z -> option matrix -> bool -> bool -> bool -> result BaseOptimizer.
Variable get_prox : string -> result Prox.

Local Abbreviation init := (__init__ BaseOptimizer_init get_prox).

(** X11.  What holds of every object the constructor returns: the
    threshold is not negative, nu and the tolerance are positive, the
    trimming fraction is in [0,1] and trimming is on exactly when it is
    not 0, the thresholder is a recognized variant, and thresholds are
    there exactly for a weighted variant and then have no negative
    entry. *)
Theorem constructed_object_is_valid (a : InitArgs) (self : SR3) :
  init a = inr self ->
  0 <= threshold self
  /\ 0 < nu self
  /\ 0 < tol self
  /\ (exists f, trimming_fraction self = Some f /\ 0 <= f <= 1
                /\ (use_trimming self = true <-> f <> 0))
  /\ is_variant (thresholder self)
  /\ (is_weighted (thresholder self) <-> thresholds self <> None)
  /\ (forall m, thresholds self = Some m -> ~ negative_entry m)
  /\ get_prox (thresholder self) = inr (prox self)
  /\ coef_full_ self = None /\ history_trimming_ self = None
  /\ trimming_array self = None.
Proof.
  unfold __init__.
  destruct (BaseOptimizer_init _ _ _ _ _) as [e | b]; [discriminate |].
  rewrite bind_inr. cbv zeta.
  check_step; [discriminate |]. apply ltb_false in Heqb0.
  check_step; [discriminate |].
  check_step; [discriminate |].
  check_step; [discriminate |].
  check_step; [discriminate |].
  apply negb_false_iff, mem_In, is_variant_In in Heqb4.
  destruct (thresholds_cases (arg_thresholder a) (arg_thresholds a) Heqb4)
    as [Hc1 [Hc2 Hc3]]. cbv zeta in Hc1, Hc2, Hc3.
  check_step; [discriminate |].
  check_step; [discriminate |].
  check_step; [discriminate |].
  destruct (get_prox (arg_thresholder a)) as [e | p] eqn:Ep; [discriminate |].
  rewrite bind_inr. intros H. inversion H; subst self; clear H.
  cbn [threshold nu tol trimming_fraction use_trimming thresholder thresholds
       prox coef_full_ history_trimming_ trimming_array].
  assert (N1 : ~ arg_nu a <= 0) by (rewrite <- leb_true; congruence).
  assert (N2 : ~ arg_tol a <= 0) by (rewrite <- leb_true; congruence).
  apply orb_false_iff in Heqb3. destruct Heqb3 as [F1 F2].
  apply ltb_false in F1. unfold np.gtb in F2. apply ltb_false in F2.
  split; [lra |]. split; [lra |]. split; [lra |].
  split.
  { exists (arg_trimming_fraction a). split; [reflexivity |]. split; [lra |].
    unfold np.eqb. destruct (Req_dec_T (arg_trimming_fraction a) 0);
      split; intros; congruence. }
  split; [exact Heqb4 |].
  split.
  { split.
    - intros Hw Hn. assert (false = true); [| discriminate].
      apply Hc1. now split.
    - intros Hn. destruct (Classical_Prop.classic (is_weighted (arg_thresholder a)))
        as [Hw | Hw]; [exact Hw |].
      assert (false = true); [| discriminate]. apply Hc2. now split. }
  split.
  { intros m Hm Hneg. assert (false = true); [| discriminate].
    apply Hc3. now exists m. }
  split; [exact Ep |]. repeat split.
Qed.

(** X12.  Of the configuration errors only the unrecognized thresholder
    is a NotImplementedError, and it is reported only once the threshold,
    nu, the tolerance and the trimming fraction have passed; every other
    error the constructor raises itself is a ValueError. *)
Theorem constructor_error_kinds (a : InitArgs) (e : exn) :
  succeeds (BaseOptimizer_init (arg_max_iter a) (arg_initial_guess a)
              (arg_fit_intercept a) (arg_copy_X a) (arg_normalize_columns a)) ->
  (forall name, is_variant name -> succeeds (get_prox name)) ->
  init a = inl e ->
  (is_not_implemented e
   <-> 0 <= arg_threshold a /\ 0 < arg_nu a /\ 0 < arg_tol a
       /\ 0 <= arg_trimming_fraction a <= 1
       /\ ~ is_variant (arg_thresholder a))
  /\ (is_value_error e \/ is_not_implemented e).
Proof.
  intros [b Hb] Hprox. unfold __init__. rewrite Hb, bind_inr. cbv zeta.
  assert (Hne : forall m m', ValueError m <> NotImplementedError m')
    by (intros; discriminate).
  assert (Hv : forall m, is_value_error (ValueError m)) by (intros m; now exists m).
  assert (Hnv : forall m, ~ is_not_implemented (ValueError m))
    by (intros m [m' E]; discriminate).
  check_step.
  { intros H. inversion H; subst e. apply ltb_true in Heqb0.
    split; [| left; apply Hv].
    split; [intros Hn; now apply Hnv in Hn | intros (? & _); lra]. }
  apply ltb_false in Heqb0.
  check_step.
  { intros H. inversion H; subst e. apply leb_true in Heqb1.
    split; [| left; apply Hv].
    split; [intros Hn; now apply Hnv in Hn | intros (_ & ? & _); lra]. }
  check_step.
  { intros H. inversion H; subst e. apply leb_true in Heqb2.
    split; [| left; apply Hv].
    split; [intros Hn; now apply Hnv in Hn | intros (_ & _ & ? & _); lra]. }
  check_step.
  { intros H. inversion H; subst e.
    apply orb_true_iff in Heqb3. rewrite ltb_true, gtb_true in Heqb3.
    split; [| left; apply Hv].
    split; [intros Hn; now apply Hnv in Hn | intros (_ & _ & _ & ? & _); lra]. }
  assert (N1 : ~ arg_nu a <= 0) by (rewrite <- leb_true; congruence).
  assert (N2 : ~ arg_tol a <= 0) by (rewrite <- leb_true; congruence).
  apply orb_false_iff in Heqb3. destruct Heqb3 as [F1 F2].
  apply ltb_false in F1. unfold np.gtb in F2. apply ltb_false in F2.
  check_step.
  { intros H. inversion H; subst e. apply negb_true_iff in Heqb3.
    assert (~ is_variant (arg_thresholder a)).
    { rewrite is_variant_In, <- mem_In. congruence. }
    split; [| right; eexists; reflexivity].
    split; [intros _; repeat split; try lra; assumption
           | intros _; eexists; reflexivity]. }
  apply negb_false_iff, mem_In, is_variant_In in Heqb3.
  check_step.
  { intros H. inversion H; subst e. split; [| left; apply Hv].
    split; [intros Hn; now apply Hnv in Hn | intros (_ & _ & _ & _ & ?); tauto]. }
  check_step.
  { intros H. inversion H; subst e. split; [| left; apply Hv].
    split; [intros Hn; now apply Hnv in Hn | intros (_ & _ & _ & _ & ?); tauto]. }
  check_step.
  { intros H. inversion H; subst e. split; [| left; apply Hv].
    split; [intros Hn; now apply Hnv in Hn | intros (_ & _ & _ & _ & ?); tauto]. }
  destruct (Hprox _ Heqb3) as [p ->]. rewrite bind_inr. discriminate.
Qed.

(** X13.  The trimming step size is stored as given and never tested:
    with another step size the constructor raises the same exception, or
    returns the same object but for the step size. *)
Theorem step_size_is_not_validated (a : InitArgs) (step : R) :
  match init a with
  | inl e => init (with_step a step) = inl e
  | inr self =>
      init (with_step a step)
      = inr (mkSR3 (base self) (threshold self) (thresholds self) (nu self)
                   (tol self) (thresholder self) (prox self)
                   (use_trimming self) (trimming_fraction self) step
                   (coef_full_ self) (history_trimming_ self)
                   (trimming_array self))
  end.
Proof.
  unfold __init__. cbn [with_step arg_max_iter arg_initial_guess
    arg_fit_intercept arg_copy_X arg_normalize_columns arg_threshold arg_nu
    arg_tol arg_trimming_fraction arg_thresholder arg_thresholds
    arg_trimming_step_size].
  destruct (BaseOptimizer_init _ _ _ _ _) as [e | b]; [reflexivity |].
  rewrite !bind_inr. cbv zeta.
  repeat (check_step; [reflexivity |]).
  destruct (get_prox (arg_thresholder a)) as [e | p]; reflexivity.
Qed.

End ConstructorMore.

(** X14.  How the two switches compose: the last call decides.  After
    [disable_trimming] the fraction is None whatever it was, so that
    enabling and disabling again does not give the fraction back; and
    [enable_trimming] turns trimming on for fraction 0 too, which the
    constructor treats as trimming off. *)
Theorem trimming_switches_compose (self : SR3) (f g : R) :
  (s <- enable_trimming self f ;; disable_trimming s) = disable_trimming self
  /\ (s <- disable_trimming self ;; enable_trimming s f) = enable_trimming self f
  /\ (s <- enable_trimming self g ;; enable_trimming s f) = enable_trimming self f
  /\ (s <- disable_trimming self ;; disable_trimming s) = disable_trimming self
  /\ (forall s, enable_trimming self 0 = inr s -> use_trimming s = true)
  /\ (forall b gp a s, arg_trimming_fraction a = 0 ->
        __init__ b gp a = inr s -> use_trimming s = false).
Proof.
  repeat split; try reflexivity.
  - intros s H. inversion H. reflexivity.
  - intros b gp a s Ha. unfold __init__.
    destruct (b _ _ _ _ _) as [e | bs]; [discriminate |].
    rewrite bind_inr. cbv zeta.
    repeat (check_step; [discriminate |]).
    destruct (gp (arg_thresholder a)) as [e | p]; [discriminate |].
    rewrite bind_inr. intros H. inversion H. cbn [use_trimming].
    rewrite Ha. unfold np.eqb. destruct (Req_dec_T 0 0); congruence.
Qed.

(** * The matrix handed to the factorization *)

Lemma sum_map_ext {A} (g h : A -> R) (l : list A) :
  (forall a, In a l -> g a = h a) ->
  np.sum1 (map g l) = np.sum1 (map h l).
Proof. intros H. f_equal. now apply map_ext_in. Qed.

Lemma sum_map_plus {A} (g h : A -> R) (l : list A) :
  np.sum1 (map (fun a => g a + h a) l) = np.sum1 (map g l) + np.sum1 (map h l).
Proof.
  unfold np.sum1. induction l as [| a l IH]; simpl; [lra | rewrite IH; lra].
Qed.

Lemma sum_map_scal {A} (c : R) (g : A -> R) (l : list A) :
  np.sum1 (map (fun a => c * g a) l) = c * np.sum1 (map g l).
Proof.
  unfold np.sum1. induction l as [| a l IH]; simpl; [lra | rewrite IH; lra].
Qed.

Lemma sum_map_zero {A} (l : list A) : np.sum1 (map (fun _ => 0) l) = 0.
Proof.
  unfold np.sum1. induction l as [| a l IH]; simpl; [lra | rewrite IH; lra].
Qed.

Lemma sum_map_nonneg {A} (g : A -> R) (l : list A) :
  (forall a, In a l -> 0 <= g a) -> 0 <= np.sum1 (map g l).
Proof.
  unfold np.sum1. induction l as [| a l IH]; intros H; simpl; [lra |].
  assert (0 <= g a) by (apply H; now left).
  assert (0 <= fold_right Rplus 0 (map g l)) by (apply IH; intros; apply H; now right).
  lra.
Qed.

Lemma map2_map_same {A B C D} (h : B -> C -> D) (f : A -> B) (g : A -> C)
    (l : list A) :
  np.map2 h (map f l) (map g l) = map (fun a => h (f a) (g a)) l.
Proof. induction l as [| a l IH]; simpl; [reflexivity | now rewrite IH]. Qed.

Lemma nth_map_seq (g : nat -> R) (p j : nat) (d : R) :
  (j < p)%nat -> nth j (map g (seq 0 p)) d = g j.
Proof.
  intros Hj. rewrite (nth_indep _ d (g 0%nat)) by (now rewrite length_map, length_seq).
  rewrite map_nth, seq_nth by exact Hj. reflexivity.
Qed.

Lemma inner_comm (u v : vector) : np.inner u v = np.inner v u.
Proof.
  unfold np.inner. f_equal. revert v.
  induction u as [| a u IH]; intros [| b v]; simpl; try reflexivity.
  rewrite IH. f_equal. ring.
Qed.

(** Transposing, adding and evaluating tabulated matrices. *)
Lemma tabulate_shape (p : nat) f : snd (np.shape (tabulate p f)) = p.
Proof.
  unfold np.shape, tabulate. cbn [snd].
  destruct p as [| p]; [reflexivity |].
  simpl. now rewrite length_map, length_seq.
Qed.

Lemma tabulate_T (p : nat) f :
  np.T (tabulate p f) = tabulate p (fun i j => f j i).
Proof.
  unfold np.T. rewrite tabulate_shape. unfold tabulate at 2.
  apply map_ext_in. intros j Hj. apply in_seq in Hj.
  unfold np.column, tabulate. rewrite map_map.
  apply map_ext. intros i. apply nth_map_seq. lia.
Qed.

Lemma tabulate_ext (p : nat) f g :
  (forall i j, (i < p)%nat -> (j < p)%nat -> f i j = g i j) ->
  tabulate p f = tabulate p g.
Proof.
  intros H. unfold tabulate. apply map_ext_in. intros i Hi.
  apply map_ext_in. intros j Hj. apply in_seq in Hi, Hj. apply H; lia.
Qed.

Lemma tabulate_add (p : nat) f g :
  np.add (tabulate p f) (tabulate p g) = tabulate p (fun i j => f i j + g i j).
Proof.
  unfold np.add, tabulate. rewrite map2_map_same.
  apply map_ext. intros i. apply map2_map_same.
Qed.

Lemma diag_full_tabulate (p : nat) (c : R) :
  np.diag (np.full p c) = tabulate p (fun i j => if Nat.eqb i j then c else 0).
Proof.
  unfold np.diag, np.full. rewrite repeat_length. apply tabulate_ext.
  intros i j Hi _. destruct (Nat.eqb i j); [| reflexivity].
  now apply nth_repeat_lt.
Qed.

Lemma dot_T_tabulate (a x : matrix) :
  snd (np.shape a) = snd (np.shape x) ->
  np.dot (np.T a) x
  = tabulate (snd (np.shape x))
      (fun i j => np.inner (np.column i a) (np.column j x)).
Proof.
  intros Hp. unfold np.dot, np.T at 2. rewrite Hp. unfold tabulate.
  rewrite map_map. apply map_ext. intros i.
  unfold np.T. now rewrite map_map.
Qed.

Lemma gram_tabulate (a x : matrix) (nu : R) :
  snd (np.shape a) = snd (np.shape x) ->
  gram a x nu
  = tabulate (snd (np.shape x))
      (fun i j => np.inner (np.column i a) (np.column j x)
                  + (if Nat.eqb i j then 1 / nu else 0)).
Proof.
  intros Hp. unfold gram.
  now rewrite (dot_T_tabulate a x Hp), diag_full_tabulate, tabulate_add.
Qed.

(** The weighted rows have the width of the rows they come from. *)
Lemma scale_rows_shape (x : matrix) (t : vector) :
  length t = length x ->
  snd (np.shape (np.scale_rows x t)) = snd (np.shape x).
Proof.
  destruct x as [| row x], t as [| c t]; simpl; try discriminate;
    try reflexivity.
  intros _. now rewrite length_map.
Qed.

Lemma nth_scaled (row : vector) (c : R) (i : nat) :
  nth i (map (fun v => v * c) row) 0 = nth i row 0 * c.
Proof.
  destruct (Nat.lt_ge_cases i (length row)) as [Hi | Hi].
  - rewrite (nth_indep _ 0 ((fun v => v * c) 0)) by (now rewrite length_map).
    now rewrite (map_nth (fun v => v * c)).
  - rewrite !nth_overflow by (try rewrite length_map; lia). ring.
Qed.

Lemma weighted_inner_comm (x : matrix) (t : vector) (i j : nat) :
  np.inner (np.column i (np.scale_rows x t)) (np.column j x)
  = np.inner (np.column j (np.scale_rows x t)) (np.column i x).
Proof.
  unfold np.inner, np.column, np.scale_rows. revert t.
  induction x as [| row x IH]; intros [| c t]; simpl; try reflexivity.
  rewrite IH, !nth_scaled. ring.
Qed.

(** X15.  The matrix [_reduce] hands to [cho_factor] is symmetric,
    before the loop and, with weights for every sample, in every
    iteration with trimming. *)
Theorem gram_symmetric (x : matrix) (nu : R) :
  symmetric (gram x x nu)
  /\ forall t, length t = length x ->
               symmetric (gram (np.scale_rows x t) x nu).
Proof.
  unfold symmetric. split.
  - rewrite gram_tabulate by reflexivity. rewrite tabulate_T.
    apply tabulate_ext. intros i j _ _.
    rewrite inner_comm, Nat.eqb_sym. reflexivity.
  - intros t Ht.
    rewrite gram_tabulate by (now apply scale_rows_shape).
    rewrite tabulate_T. apply tabulate_ext. intros i j _ _.
    rewrite weighted_inner_comm, Nat.eqb_sym. reflexivity.
Qed.

Lemma vector_tabulate (v : vector) :
  v = map (fun i => nth i v 0) (seq 0 (length v)).
Proof.
  rewrite (map_nth_seq (fun a => a) v). symmetry. apply map_id.
Qed.

Lemma quadratic_tabulate (p : nat) f (v : vector) :
  length v = p ->
  quadratic_form (tabulate p f) v
  = sum_below p (fun i => nth i v 0
                          * sum_below p (fun j => f i j * nth j v 0)).
Proof.
  intros Hv. unfold quadratic_form, tabulate, sum_below, np.inner.
  rewrite map_map.
  rewrite (vector_tabulate v) at 1. rewrite Hv, map2_map_same.
  apply sum_map_ext. intros i _. f_equal. f_equal.
  rewrite (vector_tabulate v) at 1. rewrite Hv. apply map2_map_same.
Qed.

Lemma quadratic_plus (p : nat) f g (v : vector) :
  sum_below p (fun i => nth i v 0
                        * sum_below p (fun j => (f i j + g i j) * nth j v 0))
  = sum_below p (fun i => nth i v 0 * sum_below p (fun j => f i j * nth j v 0))
    + sum_below p (fun i => nth i v 0 * sum_below p (fun j => g i j * nth j v 0)).
Proof.
  unfold sum_below. rewrite <- sum_map_plus. apply sum_map_ext. intros i _.
  rewrite <- Rmult_plus_distr_l. f_equal. rewrite <- sum_map_plus.
  apply sum_map_ext. intros j _. ring.
Qed.

Lemma sum_map_scal_r {A} (c : R) (g : A -> R) (l : list A) :
  np.sum1 (map (fun a => g a * c) l) = np.sum1 (map g l) * c.
Proof.
  unfold np.sum1. induction l as [| a l IH]; simpl; [lra | rewrite IH; lra].
Qed.

Lemma quadratic_rank_one (p : nat) (ra rx v : vector) :
  sum_below p (fun i => nth i v 0
                        * sum_below p (fun j => nth i ra 0 * nth j rx 0 * nth j v 0))
  = row_dot p ra v * row_dot p rx v.
Proof.
  unfold row_dot, sum_below.
  rewrite <- sum_map_scal_r. apply sum_map_ext. intros i _.
  rewrite (sum_map_ext
             (fun j => nth i ra 0 * nth j rx 0 * nth j v 0)
             (fun j => nth i ra 0 * (nth j rx 0 * nth j v 0)))
    by (intros j _; ring).
  rewrite sum_map_scal. ring.
Qed.

Lemma quadratic_zero (p : nat) (v : vector) :
  sum_below p (fun i => nth i v 0 * sum_below p (fun j => 0 * nth j v 0)) = 0.
Proof.
  unfold sum_below.
  rewrite (sum_map_ext _ (fun _ => 0)); [apply sum_map_zero |].
  intros i _.
  rewrite (sum_map_ext _ (fun _ => 0)); [rewrite sum_map_zero; ring |].
  intros j _. ring.
Qed.

(** The quadratic form of a matrix of inner products of columns is a sum
    over the rows. *)
Lemma quadratic_columns (p : nat) (a x : matrix) (v : vector) :
  sum_below p (fun i => nth i v 0
                 * sum_below p (fun j => np.inner (np.column i a) (np.column j x)
                                         * nth j v 0))
  = np.sum1 (np.map2 (fun ra rx => row_dot p ra v * row_dot p rx v) a x).
Proof.
  revert x. induction a as [| ra a IH]; intros [| rx x];
    try (cbn [np.map2 np.sum1 fold_right np.column map np.inner];
         apply quadratic_zero).
  cbn [np.map2 np.sum1 fold_right]. fold (np.sum1).
  change (fold_right Rplus 0
            (np.map2 (fun ra0 rx0 => row_dot p ra0 v * row_dot p rx0 v) a x))
    with (np.sum1 (np.map2 (fun ra0 rx0 => row_dot p ra0 v * row_dot p rx0 v) a x)).
  rewrite <- IH, <- quadratic_rank_one, <- quadratic_plus.
  unfold sum_below. apply sum_map_ext. intros i _. reflexivity.
Qed.

Lemma kronecker_sum (c : R) (h : nat -> R) (i s n : nat) :
  np.sum1 (map (fun j => (if Nat.eqb i j then c else 0) * h j) (seq s n))
  = if (s <=? i)%nat && (i <? s + n)%nat then c * h i else 0.
Proof.
  revert s. induction n as [| n IH]; intros s.
  - simpl. replace (i <? s + 0)%nat with (i <? s)%nat by (f_equal; lia).
    destruct (s <=? i)%nat eqn:E1, (i <? s)%nat eqn:E2; try reflexivity.
    apply Nat.leb_le in E1. apply Nat.ltb_lt in E2. lia.
  - cbn [seq map np.sum1 fold_right]. fold np.sum1.
    change (fold_right Rplus 0 ?l) with (np.sum1 l).
    rewrite IH.
    destruct (Nat.eqb i s) eqn:Eis.
    + apply Nat.eqb_eq in Eis. subst s.
      replace (S i <=? i)%nat with false by (symmetry; apply Nat.leb_gt; lia).
      replace (i <=? i)%nat with true by (symmetry; apply Nat.leb_le; lia).
      replace (i <? i + S n)%nat with true by (symmetry; apply Nat.ltb_lt; lia).
      simpl. ring.
    + apply Nat.eqb_neq in Eis.
      destruct (s <=? i)%nat eqn:E1, (S s <=? i)%nat eqn:E2,
               (i <? s + S n)%nat eqn:E3, (i <? S s + n)%nat eqn:E4;
        simpl; try ring;
        repeat match goal with
               | H : (_ <=? _)%nat = true |- _ => apply Nat.leb_le in H
               | H : (_ <=? _)%nat = false |- _ => apply Nat.leb_gt in H
               | H : (_ <? _)%nat = true |- _ => apply Nat.ltb_lt in H
               | H : (_ <? _)%nat = false |- _ => apply Nat.ltb_ge in H
               end; lia.
Qed.

Lemma quadratic_diagonal (p : nat) (c : R) (v : vector) :
  sum_below p (fun i => nth i v 0
                 * sum_below p (fun j => (if Nat.eqb i j then c else 0) * nth j v 0))
  = c * sum_below p (fun i => nth i v 0 * nth i v 0).
Proof.
  unfold sum_below. rewrite <- sum_map_scal. apply sum_map_ext.
  intros i Hi. apply in_seq in Hi.
  rewrite (kronecker_sum c (fun j => nth j v 0) i 0 p).
  replace (0 <=? i)%nat with true by (symmetry; apply Nat.leb_le; lia).
  replace (i <? 0 + p)%nat with true by (symmetry; apply Nat.ltb_lt; lia).
  simpl. ring.
Qed.

Lemma squares_positive (v : vector) :
  (exists c, In c v /\ c <> 0) ->
  0 < sum_below (length v) (fun i => nth i v 0 * nth i v 0).
Proof.
  intros (c & Hin & Hc). unfold sum_below.
  rewrite (map_nth_seq (fun a => a * a) v).
  clear - Hin Hc. induction v as [| a v IH]; [contradiction |].
  cbn [map np.sum1 fold_right]. fold np.sum1.
  change (fold_right Rplus 0 ?l) with (np.sum1 l).
  assert (Hrest : 0 <= np.sum1 (map (fun a => a * a) v)).
  { apply sum_map_nonneg. intros b _. nra. }
  destruct Hin as [-> | Hin].
  - assert (0 < c * c) by nra. lra.
  - specialize (IH Hin). nra.
Qed.

Lemma row_dot_scaled (p : nat) (row v : vector) (c : R) :
  row_dot p (map (fun a => a * c) row) v = c * row_dot p row v.
Proof.
  unfold row_dot, sum_below. rewrite <- sum_map_scal.
  apply sum_map_ext. intros i _. rewrite nth_scaled. ring.
Qed.

Lemma gram_length (a x : matrix) (nu : R) :
  snd (np.shape a) = snd (np.shape x) ->
  length (gram a x nu) = snd (np.shape x).
Proof.
  intros Hp. rewrite gram_tabulate by exact Hp.
  unfold tabulate. now rewrite length_map, length_seq.
Qed.

Lemma weighted_rows_nonneg (p : nat) (x : matrix) (t v : vector) :
  Forall (fun c => 0 <= c) t ->
  0 <= np.sum1 (np.map2 (fun ra rx => row_dot p ra v * row_dot p rx v)
                  (np.scale_rows x t) x).
Proof.
  intros Ht. revert x. induction Ht as [| c t Hc Ht IH]; intros [| row x];
    try (cbn; lra).
  unfold np.scale_rows. cbn [np.map2 np.sum1 fold_right].
  change (fold_right Rplus 0 ?l) with (np.sum1 l).
  fold (np.scale_rows x t). specialize (IH x).
  rewrite row_dot_scaled.
  assert (0 <= c * (row_dot p row v * row_dot p row v)).
  { apply Rmult_le_pos; [exact Hc | nra]. }
  lra.
Qed.

Lemma plain_rows_nonneg (p : nat) (x : matrix) (v : vector) :
  0 <= np.sum1 (np.map2 (fun ra rx => row_dot p ra v * row_dot p rx v) x x).
Proof.
  induction x as [| row x IH]; [cbn; lra |].
  cbn [np.map2 np.sum1 fold_right].
  change (fold_right Rplus 0 ?l) with (np.sum1 l).
  nra.
Qed.

Lemma gram_positive (a x : matrix) (nu : R) :
  0 < nu ->
  snd (np.shape a) = snd (np.shape x) ->
  (forall v, 0 <= np.sum1 (np.map2 (fun ra rx =>
                row_dot (snd (np.shape x)) ra v
                * row_dot (snd (np.shape x)) rx v) a x)) ->
  positive_definite (gram a x nu).
Proof.
  intros Hnu Hp Hpos v Hv Hnz.
  assert (Hinv : 0 < 1 / nu) by (apply Rdiv_lt_0_compat; lra).
  rewrite gram_length in Hv by exact Hp.
  rewrite gram_tabulate by exact Hp.
  rewrite quadratic_tabulate by exact Hv.
  rewrite quadratic_plus, quadratic_columns, quadratic_diagonal.
  pose proof (squares_positive v Hnz) as Hsq. rewrite Hv in Hsq.
  specialize (Hpos v). nra.
Qed.

(** X16.  With nu positive, the matrix [_reduce] hands to [cho_factor]
    is positive definite, before the loop and, with one non-negative
    weight for every sample, in every iteration with trimming: in exact
    arithmetic the factorization has what it needs. *)
Theorem gram_positive_definite (x : matrix) (nu : R) :
  0 < nu ->
  positive_definite (gram x x nu)
  /\ forall t, length t = length x -> Forall (fun c => 0 <= c) t ->
               positive_definite (gram (np.scale_rows x t) x nu).
Proof.
  intros Hnu. split.
  - apply gram_positive; [exact Hnu | reflexivity |].
    intros v. apply plain_rows_nonneg.
  - intros t Hlen Ht. apply gram_positive; [exact Hnu | |].
    + apply scale_rows_shape. exact Hlen.
    + intros v. apply weighted_rows_nonneg. exact Ht.
Qed.

Lemma residual_grad_nonneg (x y coef_full : matrix) :
  Forall (fun g => 0 <= g) (residual_grad x y coef_full).
Proof.
  unfold residual_grad, np.vscale, np.sum_axis1, np.square.
  apply Forall_forall. intros g Hg.
  apply in_map_iff in Hg. destruct Hg as (s & <- & Hs).
  apply in_map_iff in Hs. destruct Hs as (row & <- & Hrow).
  apply in_map_iff in Hrow. destruct Hrow as (d & <- & _).
  assert (0 <= np.sum1 (map (fun v => v * v) d))
    by (apply sum_map_nonneg; intros a _; nra).
  lra.
Qed.

Lemma vsub_nonneg_le (t g : vector) :
  Forall (fun c => 0 <= c) g ->
  forall i, (i < length (np.vsub t g))%nat ->
            nth i (np.vsub t g) 0 <= nth i t 0.
Proof.
  intros Hg. revert t. induction Hg as [| c g Hc Hg IH]; intros [| a t] i Hi;
    try (simpl in Hi; lia).
  destruct i as [| i]; cbn [np.vsub np.map2 nth]; [lra |].
  apply IH. simpl in Hi. unfold np.vsub. lia.
Qed.

(** X18.  The trimming gradient has no negative entry: it is half the
    squared residual of each sample.  So a step of non-negative size
    leaves no weight larger than it was, before the projection. *)
Theorem trimming_gradient_nonnegative (x y coef_full : matrix)
    (t : vector) (step : R) :
  Forall (fun g => 0 <= g) (residual_grad x y coef_full)
  /\ (0 <= step ->
      forall i,
        (i < length (np.vsub t (np.vscale step (residual_grad x y coef_full))))%nat ->
        nth i (np.vsub t (np.vscale step (residual_grad x y coef_full))) 0
        <= nth i t 0).
Proof.
  split; [apply residual_grad_nonneg |].
  intros Hstep. apply vsub_nonneg_le.
  unfold np.vscale. apply Forall_forall. intros c Hc.
  apply in_map_iff in Hc. destruct Hc as (g & <- & Hg).
  pose proof (residual_grad_nonneg x y coef_full) as Hall.
  rewrite Forall_forall in Hall. apply Rmult_le_pos; [exact Hstep | now apply Hall].
Qed.

(** ** Runs of the further objects *)

Ltac compare_reals :=
  unfold np.gtb, np.ltb, np.leb, np.eqb;
  repeat match goal with
         | |- context [Rlt_dec ?a ?b] => destruct (Rlt_dec a b); try lra
         | |- context [Rle_dec ?a ?b] => destruct (Rle_dec a b); try lra
         | |- context [Req_dec_T ?a ?b] => destruct (Req_dec_T a b); try lra
         end;
  reflexivity.

Ltac passes :=
  match goal with
  | |- context [raise_if ?c _] =>
      replace c with false by (symmetry; first [reflexivity | compare_reals]);
      rewrite bind_raise_if_false
  end.

Lemma default_init :
  __init__ standin.BaseOptimizer_init standin.get_prox default_args
  = inr (mkSR3 (mkBase 30 None false true false 0 [] [])
               (1 / 10) None 1 (1 / 100000) "L0" example.l0 false (Some 0) 1
               None None None).
Proof.
  unfold __init__, default_args, standin.BaseOptimizer_init.
  cbn [arg_threshold arg_thresholds arg_nu arg_tol arg_thresholder
       arg_trimming_fraction arg_trimming_step_size arg_max_iter
       arg_fit_intercept arg_copy_X arg_initial_guess arg_normalize_columns].
  change (30 <=? 0)%Z with false. cbv iota.
  rewrite bind_inr. cbv zeta.
  repeat passes.
  replace (np.eqb 0 0) with true by (symmetry; compare_reals).
  reflexivity.
Qed.

Lemma unknown_thresholder_init :
  __init__ standin.BaseOptimizer_init standin.get_prox cases.unknown_thresholder
  = inl (NotImplementedError
           "Please use a valid thresholder, l0, l1, l2, cad, weighted_l0, weighted_l1, weighted_l2.").
Proof.
  unfold __init__, cases.unknown_thresholder, standin.BaseOptimizer_init.
  cbn [arg_threshold arg_thresholds arg_nu arg_tol arg_thresholder
       arg_trimming_fraction arg_trimming_step_size arg_max_iter
       arg_fit_intercept arg_copy_X arg_initial_guess arg_normalize_columns].
  change (30 <=? 0)%Z with false. cbv iota.
  rewrite bind_inr. cbv zeta.
  repeat passes.
  reflexivity.
Qed.

Lemma settled_breaks :
  exists r0 rf,
    reduce_enter standin.cho_factor example.settled example.x1 example.y1
      example.tr0 = inr r0
    /\ reduce_body standin.cho_factor standin.cho_solve example.x1 example.y1 r0
       = inr (rf, true).
Proof.
  eexists. eexists. split.
  - apply enter_run_plain; [reflexivity | reflexivity | apply x1_factor].
  - erewrite body_run_plain; [| reflexivity | apply settled_solve].
    cbn [obj loc log locals.coef_sparse locals.coef_full
         locals.trimming_array locals.cho locals.x_transpose_y
         locals.trimming_grad].
    rewrite settled_prox.
    change (np.T [[1]]) with [[1]].
    change (history_ (base example.settled)) with [[[1]]].
    change (nu example.settled) with 1.
    change (tol example.settled) with (1 / 100000).
    match goal with
    | |- context [np.ltb ?a ?b] => replace (np.ltb a b) with true
    end; [reflexivity |].
    symmetry. apply ltb_true.
    replace (np.dist _ _) with 0; [lra |].
    symmetry. apply (dist_self [[1]]).
Qed.

Lemma unfitted_raises :
  exists r0,
    reduce_enter standin.cho_factor cases.unfitted example.x1 example.y1
      example.tr0 = inr r0
    /\ reduce_body standin.cho_factor standin.cho_solve example.x1 example.y1 r0
       = inl (ValueError "incompatible dimensions").
Proof.
  eexists. split.
  - apply enter_run_plain; [reflexivity | reflexivity | apply x1_factor].
  - reflexivity.
Qed.

Lemma trimmed_once_run :
  exists r0 r1 b,
    reduce_enter standin.cho_factor cases.trimmed_once example.x2 example.y2
      example.tr0 = inr r0
    /\ reduce_body standin.cho_factor standin.cho_solve example.x2 example.y2 r0
       = inr (r1, b).
Proof.
  eexists. eexists. eexists. split.
  - apply enter_run_trimming;
      [reflexivity | reflexivity | reflexivity | apply x2_factor].
  - erewrite body_run_trimming;
      [| reflexivity | reflexivity | reflexivity | reflexivity | reflexivity
       | apply trimmed_factor | apply trimmed_solve].
    reflexivity.
Qed.

Lemma trimmed_once_reduce :
  exists self' tr',
    _reduce standin.cho_factor standin.cho_solve cases.trimmed_once
      example.x2 example.y2 example.tr0 = inr (self', tr').
Proof.
  destruct trimmed_once_run as (r0 & r1 & b & He & Hb).
  destruct (body_coef_full _ _ _ _ _ _ _ _ Hb) as [[W HW] Ht].
  destruct (reduce_exit_run _ r1 b W HW Ht) as (self' & Hexit & _).
  eexists. eexists. eapply reduce_run; [exact He | | exact Hexit].
  destruct (enter_settings _ _ _ _ _ _ _ He) as (Hs & _).
  apply settings_fields in Hs.
  destruct Hs as (_ & _ & _ & _ & _ & _ & _ & _ & ->).
  change (Z.to_nat (max_iter (base cases.trimmed_once))) with 1%nat.
  cbn [reduce_loop]. rewrite Hb. cbn [bind]. destruct b; reflexivity.
Qed.

(** ** The properties on the examples *)

Lemma reduce_zero_budget_witness :
  _reduce standin.cho_factor standin.cho_solve cases.idle
    example.x1 example.y1 example.tr0
  = inl (UnboundLocalError "coef_full").
Proof.
  eapply (reduce_zero_budget_unbound
            standin.Cho standin.cho_factor standin.cho_solve cases.idle).
  - reflexivity.
  - cbn. lia.
  - apply enter_run_plain; [reflexivity | reflexivity | apply x1_factor].
Defined.

Lemma initial_guess_witness :
  _reduce standin.cho_factor standin.cho_solve
    (set_base (set_coef_ [[7]]) cases.guessed)
    example.x1 example.y1 example.tr0
  = _reduce standin.cho_factor standin.cho_solve cases.guessed
      example.x1 example.y1 example.tr0.
Proof.
  apply (initial_guess_overrides_coef
           standin.Cho standin.cho_factor standin.cho_solve cases.guessed
           example.x1 example.y1 example.tr0 [[0]] [[7]]).
  reflexivity.
Defined.

Lemma plain_run_witness :
  exists self' tr',
    _reduce standin.cho_factor standin.cho_solve example.fresh
      example.x1 example.y1 example.tr0 = inr (self', tr')
    /\ history_trimming_ self' = None
    /\ trimming_array self' = None.
Proof.
  destruct fresh_reduce as (self' & tr' & Hrun).
  exists self', tr'. split; [exact Hrun |].
  apply (plain_run_leaves_trimming_alone
           standin.Cho standin.cho_factor standin.cho_solve example.fresh
           example.x1 example.y1 example.tr0 self' tr' eq_refl Hrun).
Defined.

Lemma run_keeps_settings_witness :
  exists self' tr',
    _reduce standin.cho_factor standin.cho_solve example.fresh
      example.x1 example.y1 example.tr0 = inr (self', tr')
    /\ settings self' = settings example.fresh.
Proof.
  destruct fresh_reduce as (self' & tr' & Hrun).
  exists self', tr'. split; [exact Hrun |].
  apply (run_keeps_settings
           standin.Cho standin.cho_factor standin.cho_solve example.fresh
           example.x1 example.y1 example.tr0 self' tr' Hrun).
Defined.

Lemma trimming_history_witness :
  exists self' tr' ts,
    _reduce standin.cho_factor standin.cho_solve cases.trimmed_once
      example.x2 example.y2 example.tr0 = inr (self', tr')
    /\ history_trimming_ self' = Some (np.full 2 (1 - 1 / 2) :: ts)
    /\ (length ts <= 1)%nat.
Proof.
  destruct trimmed_once_reduce as (self' & tr' & Hrun).
  destruct (trimming_history_restarts
              standin.Cho standin.cho_factor standin.cho_solve
              cases.trimmed_once example.x2 example.y2 example.tr0
              self' tr' (1 / 2) eq_refl eq_refl Hrun)
    as (ts & Hh & _ & Hlen & _).
  exists self', tr', ts. split; [exact Hrun |]. split; [exact Hh | exact Hlen].
Defined.

Lemma converged_run_witness :
  exists self' tr',
    _reduce standin.cho_factor standin.cho_solve example.settled
      example.x1 example.y1 example.tr0 = inr (self', tr')
    /\ warnings tr' = []
    /\ iters (base self') = 1%Z.
Proof.
  destruct settled_breaks as (r0 & rf & He & Hb).
  destruct (converged_run_is_silent
              standin.Cho standin.cho_factor standin.cho_solve
              example.settled example.x1 example.y1 example.tr0
              r0 r0 rf O He (enters_first _ _ _ _ _)
              (Nat.lt_0_succ 29) Hb)
    as (self' & tr' & W & Hrun & Hw & _ & _ & _ & Hi).
  exists self', tr'. split; [exact Hrun |]. split; [exact Hw | exact Hi].
Defined.

Lemma iteration_error_witness :
  _reduce standin.cho_factor standin.cho_solve cases.unfitted
    example.x1 example.y1 example.tr0
  = inl (ValueError "incompatible dimensions").
Proof.
  destruct unfitted_raises as (r0 & He & Hb).
  exact (iteration_error_propagates
           standin.Cho standin.cho_factor standin.cho_solve cases.unfitted
           example.x1 example.y1 example.tr0 r0 r0 O _ He
           (enters_first _ _ _ _ _) (Nat.lt_0_succ 0) Hb).
Defined.

Lemma criterion_short_history_witness :
  _convergence_criterion example.fresh = inl IndexError
  /\ _convergence_criterion example.settled
     = inr (frobenius [[1]] / nu example.settled).
Proof.
  split.
  - apply (proj1 (criterion_short_history example.fresh [[1]])). reflexivity.
  - apply (proj2 (criterion_short_history example.settled [[1]]));
      reflexivity.
Defined.

Lemma criterion_nonnegative_witness :
  0 <= np.dist [[1]] (previous [] (np.zeros_like [[1]])) / nu example.settled.
Proof.
  apply (criterion_nonnegative example.settled).
  - cbn. lra.
  - discriminate.
  - apply (criterion_plain example.settled [] [[1]]); reflexivity.
Defined.

Lemma constructed_object_witness :
  exists self,
    __init__ standin.BaseOptimizer_init standin.get_prox default_args = inr self
    /\ 0 <= threshold self /\ 0 < nu self /\ 0 < tol self.
Proof.
  eexists. split; [exact default_init |].
  destruct (constructed_object_is_valid
              standin.BaseOptimizer_init standin.get_prox default_args _
              default_init)
    as (H1 & H2 & H3 & _).
  split; [exact H1 | split; [exact H2 | exact H3]].
Defined.

Lemma constructor_error_witness :
  is_not_implemented
    (NotImplementedError
       "Please use a valid thresholder, l0, l1, l2, cad, weighted_l0, weighted_l1, weighted_l2.")
  <-> 0 <= arg_threshold cases.unknown_thresholder
      /\ 0 < arg_nu cases.unknown_thresholder
      /\ 0 < arg_tol cases.unknown_thresholder
      /\ 0 <= arg_trimming_fraction cases.unknown_thresholder <= 1
      /\ ~ is_variant (arg_thresholder cases.unknown_thresholder).
Proof.
  apply (constructor_error_kinds
           standin.BaseOptimizer_init standin.get_prox
           cases.unknown_thresholder).
  - eexists. reflexivity.
  - exact standin_get_prox_total.
  - exact unknown_thresholder_init.
Defined.

Lemma trimming_switches_compose_witness :
  (forall s, enable_trimming example.fresh 0 = inr s -> use_trimming s = true)
  /\ (forall s, __init__ standin.BaseOptimizer_init standin.get_prox default_args
                = inr s -> use_trimming s = false).
Proof.
  destruct (trimming_switches_compose example.fresh 0 0)
    as (_ & _ & _ & _ & Hon & Hoff).
  split; [exact Hon |].
  intros s Hs.
  exact (Hoff standin.BaseOptimizer_init standin.get_prox default_args s
           eq_refl Hs).
Defined.

Lemma gram_symmetric_witness :
  symmetric (gram example.x2 example.x2 1)
  /\ symmetric (gram (np.scale_rows example.x2 [1 / 4; 3 / 4]) example.x2 1).
Proof.
  destruct (gram_symmetric example.x2 1) as [Hplain Hweighted].
  split; [exact Hplain | apply Hweighted; reflexivity].
Defined.

Lemma gram_positive_definite_witness :
  positive_definite (gram example.x2 example.x2 1)
  /\ positive_definite
       (gram (np.scale_rows example.x2 [1 / 4; 3 / 4]) example.x2 1).
Proof.
  destruct (gram_positive_definite example.x2 1 Rlt_0_1) as [Hplain Hweighted].
  split; [exact Hplain |].
  apply Hweighted; [reflexivity |].
  repeat constructor; lra.
Defined.

Lemma trimming_gradient_witness :
  Forall (fun g => 0 <= g) (residual_grad example.x2 example.y2 [[0]])
  /\ (forall i,
        lt i (length (np.vsub [1 / 2; 1 / 2]
                        (np.vscale 1 (residual_grad example.x2 example.y2 [[0]])))) ->
        nth i (np.vsub [1 / 2; 1 / 2]
                 (np.vscale 1 (residual_grad example.x2 example.y2 [[0]]))) 0
        <= nth i [1 / 2; 1 / 2] 0).
Proof.
  destruct (trimming_gradient_nonnegative
              example.x2 example.y2 [[0]] [1 / 2; 1 / 2] 1) as [Hg Hstep].
  split; [exact Hg | apply Hstep; lra].
Defined.

(** * The stopping rule, the factored matrix and the constructor *)

Section Stopping.

Variable Cho : Type.
Variable cho_factor : matrix -> result Cho.
Variable cho_solve : Cho -> matrix -> result matrix.

Local Abbreviation Run := (Run Cho).
Local Abbreviation body := (reduce_body cho_factor cho_solve).
Local Abbreviation enter := (reduce_enter cho_factor).
Local Abbreviation loop := (reduce_loop cho_factor cho_solve).
Local Abbreviation reaches := (enters cho_factor cho_solve).
Local Abbreviation reduce := (_reduce cho_factor cho_solve).

(** C1.  In every run, with nu and, under trimming, trimming_step_size
    other than 0, the criterion computed at the end of an iteration
    within the budget is the Frobenius norm of the difference between the
    new history entry and the entry before it, divided by nu, the entry
    before the first one being the zero matrix; from the second
    iteration on the entry before is the sparse iterate of the previous
    iteration.  With trimming, the Euclidean norm of the change of the
    trimming weights divided by trimming_step_size is added.  When this
    number is below the tolerance the loop stops with this iteration:
    [_reduce] runs no further iteration and returns, without a warning,
    the coefficients of this one.  Otherwise the loop goes on with the
    next iteration, or with its [else] clause when the budget is used
    up. *)
Theorem convergence_criterion_value (self : SR3) x y tr (r0 r r' : Run) j b :
  nu self <> 0 ->
  (use_trimming self = true -> trimming_step_size self <> 0) ->
  enter self x y tr = inr r0 ->
  reaches x y r0 j r ->
  (j < Z.to_nat (max_iter (base self)))%nat ->
  body x y r = inr (r', b) ->
  let Vk := np.T (locals.coef_sparse (loc r')) in
  exists Vprev err,
    history_ (base (obj r')) = history_ (base (obj r)) ++ [Vk]
    /\ match j with
       | O => Vprev = previous (history_ (base self)) (np.zeros_like Vk)
       | S _ => Vprev = np.T (locals.coef_sparse (loc r))
       end
    /\ _convergence_criterion (obj r') = inr err
    /\ (if use_trimming self
        then exists tk tprev,
               locals.trimming_array (loc r') = Some tk
               /\ locals.trimming_array (loc r) = Some tprev
               /\ err = frobenius (np.sub Vk Vprev) / nu self
                        + euclidean (np.vsub tk tprev) / trimming_step_size self
        else err = frobenius (np.sub Vk Vprev) / nu self)
    /\ (b = true <-> err < tol self)
    /\ (err < tol self ->
        loop (Z.to_nat (max_iter (base self))) x y r0 = inr (r', true)
        /\ exists self' tr',
             reduce self x y tr = inr (self', tr')
             /\ coef_ (base self') = Vk
             /\ iters (base self') = (iters (base self) + Z.of_nat (S j))%Z
             /\ length (history_ (base self'))
                = (length (history_ (base self)) + S j)%nat
             /\ warnings tr' = warnings tr)
    /\ (tol self <= err ->
        reaches x y r0 (S j) r'
        /\ loop (Z.to_nat (max_iter (base self))) x y r0
           = loop (Z.to_nat (max_iter (base self)) - S j) x y r').
Proof.
  intros _ _ He Hr Hj Hb Vk.
  destruct (iteration_criterion _ _ _ _ _ _ _ _ _ _ _ _ He Hr Hb)
    as (Vprev & err & Hh & HV & Hc & Herr & Hiff).
  exists Vprev, err.
  split; [exact Hh |]. split; [exact HV |]. split; [exact Hc |].
  split; [exact Herr |]. split; [exact Hiff |].
  destruct (enter_settings _ _ _ _ _ _ _ He) as (Hs0 & Hh0 & Hi0 & _).
  destruct (reaches_history _ _ _ _ _ _ _ _ Hr) as (vs & Hhr & Hlen & Hit & _).
  destruct (body_history _ _ _ _ _ _ _ _ Hb) as [_ Hit'].
  split.
  - intros Hlt. apply Hiff in Hlt. subst b.
    assert (Hloop : loop (Z.to_nat (max_iter (base self))) x y r0
                    = inr (r', true))
      by (eapply reduce_loop_break; eassumption).
    split; [exact Hloop |].
    destruct (body_coef_full _ _ _ _ _ _ _ _ Hb) as [[W HW] Ht].
    destruct (reduce_exit_run _ r' true W HW Ht)
      as (self' & Hexit & Hcoef & _ & Hhist & Hiters & _).
    exists self', (log r'). split.
    { eapply reduce_run; [exact He | | exact Hexit].
      pose proof (settings_fields _ _ Hs0)
        as (_ & _ & _ & _ & _ & _ & _ & _ & Hm0).
      rewrite Hm0. exact Hloop. }
    split; [exact Hcoef |].
    split; [rewrite Hiters, Hit', Hit, Hi0; lia |].
    split.
    { rewrite Hhist, Hh, Hhr, Hh0, !length_app, Hlen. simpl. lia. }
    destruct (body_solve _ _ _ _ _ _ _ _ Hb) as (W' & _ & _ & _ & H).
    erewrite <- (reaches_warnings _ _ _ _ _ _ _ _ _ _ He Hr).
    destruct (use_trimming (obj r)).
    + destruct H as (t & cf & _ & _ & _ & _ & _ & ->). reflexivity.
    + destruct H as (_ & _ & _ & ->). reflexivity.
  - intros Hge.
    assert (Eb : b = false).
    { destruct b; [| reflexivity].
      assert (err < tol self) by (apply Hiff; reflexivity). lra. }
    subst b.
    assert (Hnext : reaches x y r0 (S j) r')
      by (eapply enters_next; eassumption).
    split; [exact Hnext |].
    replace (Z.to_nat (max_iter (base self)))
      with (S j + (Z.to_nat (max_iter (base self)) - S j))%nat at 1 by lia.
    eapply reduce_loop_resume. exact Hnext.
Qed.

End Stopping.

(** ** The examples of the three claims *)

Lemma convergence_criterion_witness :
  (exists r0 r1 err,
     reduce_enter standin.cho_factor example.fresh example.x1 example.y1
       example.tr0 = inr r0
     /\ reduce_body standin.cho_factor standin.cho_solve example.x1 example.y1 r0
        = inr (r1, false)
     /\ _convergence_criterion (obj r1) = inr err
     /\ err = frobenius
                (np.sub (np.T (locals.coef_sparse (loc r1)))
                        (previous [] (np.zeros_like
                                        (np.T (locals.coef_sparse (loc r1))))))
              / 1
     /\ (tol example.fresh <= err ->
         reduce_loop standin.cho_factor standin.cho_solve 1
           example.x1 example.y1 r0
         = reduce_loop standin.cho_factor standin.cho_solve 0
             example.x1 example.y1 r1))
  /\ (exists r0 r1 err,
        reduce_enter standin.cho_factor example.settled example.x1 example.y1
          example.tr0 = inr r0
        /\ reduce_body standin.cho_factor standin.cho_solve
             example.x1 example.y1 r0 = inr (r1, true)
        /\ _convergence_criterion (obj r1) = inr err
        /\ err < tol example.settled
        /\ reduce_loop standin.cho_factor standin.cho_solve 30
             example.x1 example.y1 r0 = inr (r1, true)).
Proof.
  split.
  - destruct fresh_run as (r0 & r1 & He & Hb & _).
    destruct (convergence_criterion_value
                standin.Cho standin.cho_factor standin.cho_solve
                example.fresh example.x1 example.y1 example.tr0 r0 r0 r1 O false
                R1_neq_R0 (fun H => False_ind _ (Bool.diff_false_true H))
                He (enters_first _ _ _ _ _) Nat.lt_0_1 Hb)
      as (Vprev & err & _ & HV & Hc & Herr & _ & _ & Hgo).
    exists r0, r1, err.
    split; [exact He |]. split; [exact Hb |]. split; [exact Hc |].
    split; [subst Vprev; exact Herr |].
    intros Hge. exact (proj2 (Hgo Hge)).
  - destruct settled_breaks as (r0 & r1 & He & Hb).
    destruct (convergence_criterion_value
                standin.Cho standin.cho_factor standin.cho_solve
                example.settled example.x1 example.y1 example.tr0
                r0 r0 r1 O true
                R1_neq_R0 (fun H => False_ind _ (Bool.diff_false_true H))
                He (enters_first _ _ _ _ _) (Nat.lt_0_succ 29) Hb)
      as (Vprev & err & _ & _ & Hc & _ & Hiff & Hstop & _).
    exists r0, r1, err.
    split; [exact He |]. split; [exact Hb |]. split; [exact Hc |].
    assert (Hlt : err < tol example.settled) by (apply Hiff; reflexivity).
    split; [exact Hlt |]. exact (proj1 (Hstop Hlt)).
Defined.

(** On the two-sample problem with the uniform weights 1/2 the first
    iteration factors X^T diag(t) X + I / nu = [[2]]: the weights enter
    once.  The normal matrix of the scaled design matrix would be
    [[3/2]]. *)
Lemma factors_scaled_design_fails :
  ~ factors_scaled_design standin.cho_factor standin.cho_solve
      example.trimmed example.x2 example.y2.
Proof.
  intros H.
  destruct trimmed_run as (r0 & r1 & b & He & Hb & Ht0 & _).
  destruct (H example.tr0 r0 O r0 r1 b _ He (enters_first _ _ _ _ _) Hb Ht0)
    as [Hlog _].
  destruct (enter_settings _ _ _ _ _ _ _ He) as (Hs0 & _).
  pose proof (settings_fields _ _ Hs0) as (Hnu & _ & Hu & _).
  destruct (body_solve _ _ _ _ _ _ _ _ Hb) as (W & _ & _ & _ & Hcase).
  rewrite Hu in Hcase. change (use_trimming example.trimmed) with true in Hcase.
  destruct Hcase as (t & cf & Ht & _ & _ & _ & _ & Hl).
  rewrite Ht0 in Ht. injection Ht as <-.
  rewrite Hl, Hnu in Hlog. cbn [log_factor factorized] in Hlog.
  apply app_inv_head in Hlog.
  change (nu example.trimmed) with 1 in Hlog.
  revert Hlog. arrays. cbv [normal_matrix reweighted identity np.map2 np.add
       np.dot np.T np.shape np.column np.inner np.sum1 np.divs np.full
       map seq fold_right nth hd length snd fst repeat Nat.eqb].
  intros Hlog. injection Hlog as Hlog. lra.
Qed.

Lemma default_no_config_error : ~ config_error default_args.
Proof.
  intros Hc.
  destruct (checks_raise_iff_config_error
              standin.BaseOptimizer_init standin.get_prox default_args)
    as [Hiff _];
    [eexists; reflexivity | exact standin_get_prox_total |].
  apply Hiff in Hc. rewrite default_init in Hc.
  now apply not_raises_inr in Hc.
Qed.

Lemma zero_budget_init :
  __init__ standin.BaseOptimizer_init standin.get_prox cases.zero_budget
  = inl (ValueError "max_iter must be positive").
Proof. reflexivity. Qed.

(** With a budget of 0 and every other argument at its default, none of
    the listed conditions holds, and the base-class constructor, called
    first, raises. *)
Lemma construction_as_specified_fails :
  ~ construction_as_specified standin.BaseOptimizer_init standin.get_prox
      cases.zero_budget.
Proof.
  intros [_ Hok].
  destruct Hok as [self Hself]; [exact default_no_config_error |].
  rewrite zero_budget_init in Hself. discriminate Hself.
Qed.

Lemma init_raises_witness :
  raises (__init__ standin.BaseOptimizer_init standin.get_prox cases.zero_budget)
  /\ succeeds (__init__ standin.BaseOptimizer_init standin.get_prox default_args).
Proof.
  split.
  - apply (proj1 (init_raises_iff_config_error
                    standin.BaseOptimizer_init standin.get_prox
                    cases.zero_budget standin_get_prox_total)).
    left. eexists. reflexivity.
  - apply (proj2 (init_raises_iff_config_error
                    standin.BaseOptimizer_init standin.get_prox
                    default_args standin_get_prox_total)).
    + intros [e He]. discriminate He.
    + exact default_no_config_error.
Defined.

Section Returns.

Variable Cho : Type.
Variable cho_factor : matrix -> result Cho.
Variable cho_solve : Cho -> matrix -> result matrix.

Local Abbreviation Run := (Run Cho).
Local Abbreviation body := (reduce_body cho_factor cho_solve).
Local Abbreviation enter := (reduce_enter cho_factor).
Local Abbreviation loop := (reduce_loop cho_factor cho_solve).
Local Abbreviation reaches := (enters cho_factor cho_solve).
Local Abbreviation reduce := (_reduce cho_factor cho_solve).

(** X7.  What a run that returns has passed: the factorization of
    X^T X + I / nu before the loop has succeeded, also with trimming,
    where every iteration replaces the factor before it is used; with
    trimming the fraction is a number; without trimming the budget
    allows at least one iteration. *)
Theorem run_returns_only_if (self : SR3) x y tr self' tr' :
  reduce self x y tr = inr (self', tr') ->
  (exists c, cho_factor (gram x x (nu self)) = inr c)
  /\ (use_trimming self = true -> exists f, trimming_fraction self = Some f)
  /\ (use_trimming self = false -> (0 < max_iter (base self))%Z).
Proof.
  intros H.
  destruct (reduce_inv _ _ _ _ _ _ _ _ H) as (r0 & rf & broke & He & Hl & Hexit).
  destruct (enter_settings _ _ _ _ _ _ _ He) as (Hs0 & _ & _ & _ & _ & Hc & _).
  pose proof (settings_fields _ _ Hs0) as (_ & _ & Hu0 & Hf0 & _).
  split; [eexists; exact Hc |]. split.
  - intros Hu. rewrite <- Hu0 in Hu.
    destruct (enter_ready _ _ _ _ _ _ _ He Hu) as (h & t & cf & f & _ & _ & _ & Hf).
    exists f. rewrite <- Hf0. exact Hf.
  - intros Hu.
    destruct (Z_lt_le_dec 0 (max_iter (base self))) as [Hpos | Hle];
      [exact Hpos | exfalso].
    replace (Z.to_nat (max_iter (base self))) with O in Hl by lia.
    cbn [reduce_loop ret] in Hl. inversion Hl; subst rf broke.
    destruct (reduce_exit_inv _ _ _ _ _ Hexit) as (W & HW & _).
    destruct (enter_frame _ _ _ _ _ _ _ He) as (_ & _ & Hfr).
    destruct (Hfr Hu) as (_ & _ & Hnone). congruence.
Qed.

End Returns.

(** X17.  The convergence test returns a value only on a history that
    is not empty and, with trimming, on a trimming history that is there
    and not empty: on an empty list the index -1 raises, and without
    [_reduce] having run there is no trimming history to read. *)
Theorem criterion_returns_only_if (self : SR3) (err : R) :
  _convergence_criterion self = inr err ->
  (exists h V, history_ (base self) = h ++ [V])
  /\ (use_trimming self = true ->
      exists ht t, history_trimming_ self = Some (ht ++ [t])).
Proof.
  intros H.
  destruct (history_ (base self)) as [| V0 h0] eqn:Eh.
  { unfold _convergence_criterion in H. rewrite Eh in H. discriminate H. }
  assert (Hne : V0 :: h0 <> []) by discriminate.
  destruct (exists_last Hne) as (h & V & Ehv).
  split; [exists h, V; exact Ehv |].
  intros Eu. rewrite Ehv in Eh.
  unfold _convergence_criterion in H. rewrite Eh, Eu in H.
  rewrite (last_two h V np.zeros_like) in H.
  destruct (history_trimming_ self) as [[| t0 ht0] |].
  - discriminate H.
  - assert (Hne' : t0 :: ht0 <> []) by discriminate.
    destruct (exists_last Hne') as (ht & t & Eht).
    exists ht, t. now rewrite Eht.
  - discriminate H.
Qed.

Lemma run_returns_witness :
  exists self' tr',
    _reduce standin.cho_factor standin.cho_solve example.fresh
      example.x1 example.y1 example.tr0 = inr (self', tr')
    /\ (exists c, standin.cho_factor (gram example.x1 example.x1 1) = inr c)
    /\ (0 < max_iter (base example.fresh))%Z.
Proof.
  destruct fresh_reduce as (self' & tr' & Hrun).
  destruct (run_returns_only_if
              standin.Cho standin.cho_factor standin.cho_solve example.fresh
              example.x1 example.y1 example.tr0 self' tr' Hrun)
    as (Hc & _ & Hbudget).
  exists self', tr'. split; [exact Hrun |]. split; [exact Hc |].
  apply Hbudget. reflexivity.
Defined.

Lemma criterion_returns_witness :
  exists h V, history_ (base example.settled) = h ++ [V].
Proof.
  apply (criterion_returns_only_if example.settled
           (np.dist [[1]] (previous [] (np.zeros_like [[1]]))
            / nu example.settled)).
  apply (criterion_plain example.settled [] [[1]]); reflexivity.
Defined.
